(** * Tonk: a shallow embedding of the game core and its verified properties

  The development follows the layout of the JavaScript sources:
  [Card], [Deck], [Spread] (with [findPossibleSpreads]), [Player],
  [ComputerPlayer], the constants of [rules.js] and the [Game]
  controller.  Part I holds the embedding, Part II the lemmas.

  Conventions.
  - A JavaScript array is a [list] in array order: index 0 is the head,
    [push]/[pop] work at the end of the list.
  - Card values, rank indices, hand points, chips and the pot are
    JavaScript numbers that only ever hold integers: they are [Z].
  - Object references (a spread on the table, a player) are positions in
    the array that owns the object ([spreadsOnTable], [players]), so two
    references are [===] exactly when the positions are equal.
  - A method of [Game] returns [Ok v g'] (value and state at the return)
    or [Throw msg g'] (message of the [Error] and state at the throw). *)

From stdpp Require Import base list sorting gmap strings.
From Stdlib Require Import ZArith Lia Permutation.

Local Open Scope Z_scope.

(* ===================================================================== *)
(** * Part I: the embedding                                               *)
(* ===================================================================== *)

(** ** JavaScript arrays *)

Module Array.

(** [arr.pop()]: the array without its last element, and that element;
    [None] stands for [undefined] on an empty array. *)
Fixpoint pop {A : Type} (l : list A) : option (list A * A) :=
  match l with
  | [] => None
  | x :: l' =>
      match pop l' with
      | None => Some ([], x)
      | Some (r, y) => Some (x :: r, y)
      end
  end.

(** [arr.findIndex(f)]: [None] stands for [-1]. *)
Fixpoint findIndex {A : Type} (f : A -> bool) (l : list A) : option nat :=
  match l with
  | [] => None
  | x :: l' => if f x then Some 0%nat else S <$> findIndex f l'
  end.

(** [arr.sort((a, b) => key(a) - key(b))].  The language standard makes
    [sort] stable, so for a comparator of this shape the outcome is the
    stable ascending arrangement by [key], computed here by insertion. *)
Fixpoint insert_by {A : Type} (key : A -> Z) (x : A) (l : list A) : list A :=
  match l with
  | [] => [x]
  | y :: l' => if key x <=? key y then x :: y :: l' else y :: insert_by key x l'
  end.

Fixpoint sort_by {A : Type} (key : A -> Z) (l : list A) : list A :=
  match l with
  | [] => []
  | x :: l' => insert_by key x (sort_by key l')
  end.

(** [arr.reduce((sum, x) => sum + f(x), 0)]. *)
Definition sum_by {A : Type} (f : A -> Z) (l : list A) : Z :=
  fold_left (fun sum x => sum + f x) l 0.

(** [[arr[i], arr[j]] = [arr[j], arr[i]]] for positions inside the array. *)
Definition swap {A : Type} (i j : nat) (l : list A) : list A :=
  match l !! i, l !! j with
  | Some x, Some y => <[j := x]> (<[i := y]> l)
  | _, _ => l
  end.

(** [arr.splice(i, 0, x)] for a position [i] of the array or its length:
    [x] is put in before the element at [i]. *)
Definition insertAt {A : Type} (i : nat) (x : A) (l : list A) : list A :=
  take i l ++ x :: drop i l.

End Array.

(** ** Card.js *)

Module Card.

Inductive Suit := hearts | diamonds | clubs | spades.

Inductive Rank :=
  RA | R2 | R3 | R4 | R5 | R6 | R7 | R8 | R9 | R10 | RJ | RQ | RK.

Definition SUITS : list Suit := [hearts; diamonds; clubs; spades].
Definition RANKS : list Rank :=
  [RA; R2; R3; R4; R5; R6; R7; R8; R9; R10; RJ; RQ; RK].

#[global] Instance Suit_eq_dec : EqDecision Suit.
Proof. solve_decision. Defined.
#[global] Instance Rank_eq_dec : EqDecision Rank.
Proof. solve_decision. Defined.

(** The fields [value] and [id] of the class are functions of [rank] and
    [suit] fixed by the constructor; [value] is [calculateValue] below. *)
Record t := mk { suit : Suit; rank : Rank }.

#[global] Instance t_eq_dec : EqDecision t.
Proof. solve_decision. Defined.

(** [calculateValue]: A = 1, J/Q/K = 10, otherwise [parseInt(rank, 10)]. *)
Definition calculateValue (c : t) : Z :=
  match rank c with
  | RA => 1
  | RJ | RQ | RK => 10
  | R2 => 2 | R3 => 3 | R4 => 4 | R5 => 5 | R6 => 6
  | R7 => 7 | R8 => 8 | R9 => 9 | R10 => 10
  end.

Definition value (c : t) : Z := calculateValue c.

(** [RANKS.indexOf(rank)]. *)
Definition rankIndexOf (r : Rank) : Z :=
  match r with
  | RA => 0 | R2 => 1 | R3 => 2 | R4 => 3 | R5 => 4 | R6 => 5 | R7 => 6
  | R8 => 7 | R9 => 8 | R10 => 9 | RJ => 10 | RQ => 11 | RK => 12
  end.

Definition getRankIndex (c : t) : Z := rankIndexOf (rank c).

Definition equals (c other : t) : bool :=
  bool_decide (suit c = suit other) && bool_decide (rank c = rank other).

End Card.

(** ** rules.js *)

Module Rules.

Definition CARDS_PER_PLAYER : nat := 5.
Definition INITIAL_TONK_MIN : Z := 49.
Definition INITIAL_TONK_MAX : Z := 50.
Definition MIN_SPREAD_SIZE : nat := 3.
Definition MATCH_POINT_LIMIT : Z := 100.
Definition STARTING_CHIPS : Z := 1000.
Definition ANTE_AMOUNT : Z := 10.

Definition getCardsPerPlayer (playerCount : nat) : nat := CARDS_PER_PLAYER.

Definition canKnock (points : Z) : bool := true.

Definition hasInitialTonk (points : Z) : bool :=
  (INITIAL_TONK_MIN <=? points) && (points <=? INITIAL_TONK_MAX).

Inductive Phase :=
| PRE_GAME | INITIAL_TONK_CHECK | START_OF_TURN | DRAW | ACTION
| DISCARD | GAME_OVER.

Inductive WinCondition :=
| TONK | INITIAL_TONK | INITIAL_TONK_DRAW | KNOCK | CAUGHT | STOCK_EMPTY.

#[global] Instance Phase_eq_dec : EqDecision Phase.
Proof. solve_decision. Defined.
#[global] Instance WinCondition_eq_dec : EqDecision WinCondition.
Proof. solve_decision. Defined.

(** [determineKnockWinner]: [None] is [null].  The function asks its
    arguments for [calculatePoints()] only, so it is stated for any type of
    player with such a method; [reduce] without an initial value starts
    from the first player. *)
Definition determineKnockWinner {P : Type} (calculatePoints : P -> Z)
    (players : list P) : option P :=
  match players with
  | [] => None
  | first :: rest =>
      Some (fold_left
              (fun winner player =>
                 let winnerPoints := calculatePoints winner in
                 let playerPoints := calculatePoints player in
                 if playerPoints <? winnerPoints then player else winner)
              rest first)
  end.

End Rules.

(** ** Deck.js *)

Module Deck.

(** [cards] is the draw pile and [discardPile] the discard pile; the top
    of either pile is the end of the array. *)
Record t := mk { cards : list Card.t; discardPile : list Card.t }.

(** [generateDeck]: for each suit, for each rank, push the card. *)
Definition generateDeck : list Card.t :=
  flat_map (fun s => map (fun r => Card.mk s r) Card.RANKS) Card.SUITS.

(** One value returned by [Math.random()]: the number
    [rnum / (rnum + rgap + 1)], which lies in the interval [0, 1). *)
Record Rand := mkRand { rnum : nat; rgap : nat }.

(** [Math.floor(Math.random() * n)]. *)
Definition randomBelow (u : Rand) (n : nat) : nat :=
  ((rnum u * n) / (rnum u + rgap u + 1))%nat.

(** [shuffle]: Fisher-Yates.  [random k] is the value of the [k]-th call
    of [Math.random()] made by this shuffle; the loop runs [i] from
    [length - 1] down to 1, [steps] counts the iterations left. *)
Fixpoint shuffle_loop (random : nat -> Rand) (k : nat) (steps : nat)
    (cs : list Card.t) : list Card.t :=
  match steps with
  | O => cs
  | S i' =>
      let i := steps in
      let j := randomBelow (random k) (i + 1) in
      shuffle_loop random (S k) i' (Array.swap i j cs)
  end.

Definition shuffle (random : nat -> Rand) (cs : list Card.t) : list Card.t :=
  shuffle_loop random 0%nat (length cs - 1)%nat cs.

(** [new Deck()]: generate, then shuffle. *)
Definition new (random : nat -> Rand) : t :=
  mk (shuffle random generateDeck) [].

Arguments generateDeck : simpl never.
Arguments shuffle : simpl never.
Arguments new : simpl never.

(** [draw]: [None] is the [null] returned for an empty draw pile. *)
Definition draw (d : t) : option Card.t * t :=
  match Array.pop (cards d) with
  | None => (None, d)
  | Some (rest, c) => (Some c, mk rest (discardPile d))
  end.

Definition discard (card : Card.t) (d : t) : t :=
  mk (cards d) (discardPile d ++ [card]).

Definition getTopDiscard (d : t) : option Card.t :=
  snd <$> Array.pop (discardPile d).

(** [drawFromDiscard]: [None] is the [undefined] of [pop] on an empty
    pile. *)
Definition drawFromDiscard (d : t) : option Card.t * t :=
  match Array.pop (discardPile d) with
  | None => (None, d)
  | Some (rest, c) => (Some c, mk (cards d) rest)
  end.

Definition cardsRemaining (d : t) : nat := length (cards d).

Definition isEmpty (d : t) : bool := bool_decide (length (cards d) = 0%nat).

End Deck.

(** ** Spread.js *)

Module Spread.

Inductive SpreadType := book | run.

#[global] Instance SpreadType_eq_dec : EqDecision SpreadType.
Proof. solve_decision. Defined.

(** [owner] is the seat of the player who laid the spread.  The random
    [id] string of the class is the identity of the object; here the
    position of the spread on the table plays that part. *)
Record t := mk { cards : list Card.t; type : SpreadType; owner : nat }.

Definition sortByRank (cs : list Card.t) : list Card.t :=
  Array.sort_by Card.getRankIndex cs.

(** [isValidBook]: 3 or 4 cards, every rank equal to that of [cards[0]]. *)
Definition isValidBook (cards : list Card.t) : bool :=
  if (length cards <? Rules.MIN_SPREAD_SIZE)%nat then false
  else if (4 <? length cards)%nat then false
  else
    match cards with
    | [] => false
    | c0 :: _ =>
        forallb (fun card => bool_decide (Card.rank card = Card.rank c0)) cards
    end.

(** The loop of [isValidRun] over the sorted array: every card's rank index
    is one more than that of the card before it. *)
Fixpoint consecutive (sorted : list Card.t) : bool :=
  match sorted with
  | [] => true
  | prev :: rest =>
      match rest with
      | [] => true
      | curr :: _ =>
          if bool_decide (Card.getRankIndex curr <> Card.getRankIndex prev + 1)
          then false
          else consecutive rest
      end
  end.

Definition isValidRun (cards : list Card.t) : bool :=
  if (length cards <? Rules.MIN_SPREAD_SIZE)%nat then false
  else
    match cards with
    | [] => false
    | c0 :: _ =>
        if negb (forallb (fun card => bool_decide (Card.suit card = Card.suit c0)) cards)
        then false
        else consecutive (sortByRank cards)
    end.

(** The object [{ valid, type }] returned by [validate]; [None] is the
    [null] type. *)
Record Validation := mkValidation { valid : bool; vtype : option SpreadType }.

Definition validate (cards : list Card.t) : Validation :=
  if isValidBook cards then mkValidation true (Some book)
  else if isValidRun cards then mkValidation true (Some run)
  else mkValidation false None.

(** [canAddToBook], [canAddToRun], [canAddCard]: the answer is [None] when
    the method raises a [TypeError] on [this.cards[0]] (or [sorted[0]]) of
    a spread that has no card. *)
Definition canAddToBook (s : t) (card : Card.t) : option bool :=
  if (4 <=? length (cards s))%nat then Some false
  else
    match cards s with
    | [] => None
    | c0 :: _ => Some (bool_decide (Card.rank card = Card.rank c0))
    end.

Definition canAddToRun (s : t) (card : Card.t) : option bool :=
  match cards s with
  | [] => None
  | c0 :: _ =>
      if bool_decide (Card.suit card <> Card.suit c0) then Some false
      else
        let sorted := sortByRank (cards s) in
        match head sorted, last sorted with
        | Some lo, Some hi =>
            let lowestIndex := Card.getRankIndex lo in
            let highestIndex := Card.getRankIndex hi in
            let cardIndex := Card.getRankIndex card in
            Some (bool_decide (cardIndex = lowestIndex - 1)
                  || bool_decide (cardIndex = highestIndex + 1))
        | _, _ => None
        end
  end.

Definition canAddCard (s : t) (card : Card.t) : option bool :=
  match type s with
  | book => canAddToBook s card
  | run => canAddToRun s card
  end.

(** [addCard]: [inl msg] is the thrown error; the cards are pushed, and a
    run is sorted again in place. *)
Definition addCard (card : Card.t) (s : t) : string + t :=
  match canAddCard s card with
  | None => inl "TypeError"
  | Some false => inl "Cannot add this card to the spread"
  | Some true =>
      let pushed := cards s ++ [card] in
      inr (mk (match type s with
               | run => sortByRank pushed
               | book => pushed
               end) (type s) (owner s))
  end.

Definition getPoints (s : t) : Z := Array.sum_by Card.value (cards s).

(** *** findPossibleSpreads *)

(** An object used as a dictionary from a key to an array of cards, kept
    in the order in which the keys were first assigned. *)
Fixpoint groupPush {K : Type} `{EqDecision K} (k : K) (card : Card.t)
    (groups : list (K * list Card.t)) : list (K * list Card.t) :=
  match groups with
  | [] => [(k, [card])]
  | (k', cs) :: rest =>
      if decide (k = k') then (k', cs ++ [card]) :: rest
      else (k', cs) :: groupPush k card rest
  end.

Definition groupCardsByRank (cards : list Card.t)
    : list (Card.Rank * list Card.t) :=
  fold_left (fun groups card => groupPush (Card.rank card) card groups) cards [].

Definition groupCardsBySuit (cards : list Card.t)
    : list (Card.Suit * list Card.t) :=
  fold_left (fun groups card => groupPush (Card.suit card) card groups) cards [].

(** The rank strings "2" to "10" are integer keys of a JavaScript object:
    [Object.entries] lists them first, in ascending numeric order, and the
    keys "A", "J", "Q", "K" after them in insertion order.  Suit names are
    plain string keys, listed in insertion order. *)
Definition integerRanks : list Card.Rank :=
  [Card.R2; Card.R3; Card.R4; Card.R5; Card.R6; Card.R7; Card.R8; Card.R9;
   Card.R10].

Definition entriesByRank (groups : list (Card.Rank * list Card.t))
    : list (Card.Rank * list Card.t) :=
  flat_map (fun r => filter (fun e => fst e = r) groups) integerRanks
  ++ filter (fun e => fst e ∉ integerRanks) groups.

(** The scan of [findConsecutiveRuns] over the sorted cards of one suit:
    [prev] is [sorted[i - 1]], [rest] starts at [sorted[i]]. *)
Fixpoint scanRuns (prev : Card.t) (rest : list Card.t)
    (currentRun : list Card.t) (runs : list (list Card.t))
    : list (list Card.t) :=
  match rest with
  | [] =>
      if (Rules.MIN_SPREAD_SIZE <=? length currentRun)%nat
      then runs ++ [currentRun] else runs
  | curr :: rest' =>
      if bool_decide (Card.getRankIndex curr = Card.getRankIndex prev + 1)
      then scanRuns curr rest' (currentRun ++ [curr]) runs
      else scanRuns curr rest' [curr]
             (if (Rules.MIN_SPREAD_SIZE <=? length currentRun)%nat
              then runs ++ [currentRun] else runs)
  end.

Definition findConsecutiveRuns (cards : list Card.t) : list (list Card.t) :=
  if (length cards <? Rules.MIN_SPREAD_SIZE)%nat then []
  else
    match sortByRank cards with
    | [] => []
    | first :: rest => scanRuns first rest [first] []
    end.

(** A candidate [{ type, cards }] found in a hand. *)
Record Candidate := mkCandidate { ctype : SpreadType; ccards : list Card.t }.

Definition findPossibleSpreads (cards : list Card.t) : list Candidate :=
  let books :=
    flat_map (fun e : Card.Rank * list Card.t =>
                if (Rules.MIN_SPREAD_SIZE <=? length (snd e))%nat
                then [mkCandidate book (take 4 (snd e))] else [])
             (entriesByRank (groupCardsByRank cards)) in
  let runs :=
    flat_map (fun e : Card.Suit * list Card.t =>
                map (mkCandidate run) (findConsecutiveRuns (snd e)))
             (groupCardsBySuit cards) in
  books ++ runs.

End Spread.

(** ** Player.js and ComputerPlayer.js *)

Module Player.

(** [id] is the string built by the constructor from the clock and
    [Math.random()]; [spreads] holds references to spreads on the table;
    [difficulty] is [Some] for a [ComputerPlayer] and [None] otherwise. *)
Record t := mk {
  id : string;
  name : string;
  hand : list Card.t;
  isHuman : bool;
  spreads : list nat;
  chips : Z;
  currentBet : Z;
  isEliminated : bool;
  difficulty : option string
}.

Definition new (id name : string) (isHuman : bool) : t :=
  mk id name [] isHuman [] 0 0 false None.

Definition set_hand (h : list Card.t) (p : t) : t :=
  mk (id p) (name p) h (isHuman p) (spreads p) (chips p) (currentBet p)
     (isEliminated p) (difficulty p).

Definition set_spreads (s : list nat) (p : t) : t :=
  mk (id p) (name p) (hand p) (isHuman p) s (chips p) (currentBet p)
     (isEliminated p) (difficulty p).

Definition set_betting (c b : Z) (e : bool) (p : t) : t :=
  mk (id p) (name p) (hand p) (isHuman p) (spreads p) c b e (difficulty p).

Definition addCard (card : Card.t) (p : t) : t :=
  set_hand (hand p ++ [card]) p.

(** [removeCard]: the card spliced out of the hand, or [None] for the
    [null] returned when no card of the hand equals [card]. *)
Definition removeCard (card : Card.t) (p : t) : option Card.t * t :=
  match Array.findIndex (fun c => Card.equals c card) (hand p) with
  | Some index => (hand p !! index, set_hand (delete index (hand p)) p)
  | None => (None, p)
  end.

(** [removeCards]: the cards actually removed, in order. *)
Fixpoint removeCards (cards : list Card.t) (p : t) : list Card.t * t :=
  match cards with
  | [] => ([], p)
  | card :: cards' =>
      let '(removedCard, p1) := removeCard card p in
      let '(removed, p2) := removeCards cards' p1 in
      (match removedCard with
       | Some c => c :: removed
       | None => removed
       end, p2)
  end.

Definition calculatePoints (p : t) : Z := Array.sum_by Card.value (hand p).

Definition canKnock (p : t) : bool := Rules.canKnock (calculatePoints p).

Definition hasEmptyHand (p : t) : bool := bool_decide (length (hand p) = 0%nat).

Definition cardCount (p : t) : nat := length (hand p).

Definition findPossibleSpreads (p : t) : list Spread.Candidate :=
  Spread.findPossibleSpreads (hand p).

Definition addSpread (spread : nat) (p : t) : t :=
  set_spreads (spreads p ++ [spread]) p.

Definition clearHand (p : t) : t := set_hand [] p.
Definition clearSpreads (p : t) : t := set_spreads [] p.
Definition reset (p : t) : t := clearSpreads (clearHand p).

Definition hasCard (card : Card.t) (p : t) : bool :=
  existsb (fun c => Card.equals c card) (hand p).

(** [bet]: the amount actually deducted, [Math.min(amount, chips)]. *)
Definition bet (amount : Z) (p : t) : Z * t :=
  let actualBet := Z.min amount (chips p) in
  (actualBet,
   set_betting (chips p - actualBet) (currentBet p + actualBet)
               (isEliminated p) p).

Definition receiveChips (amount : Z) (p : t) : t :=
  set_betting (chips p + amount) (currentBet p) (isEliminated p) p.

Definition resetBet (p : t) : t :=
  set_betting (chips p) 0 (isEliminated p) p.

Definition canAfford (amount : Z) (p : t) : bool := amount <=? chips p.

(** [reorderCard]: the guards return on an index that is no position of
    the hand and on equal indices; otherwise the card at [fromIndex] is
    spliced out and spliced in again at [toIndex]. *)
Definition reorderCard (fromIndex toIndex : Z) (p : t) : t :=
  if (fromIndex <? 0) || (Z.of_nat (length (hand p)) <=? fromIndex) then p
  else if (toIndex <? 0) || (Z.of_nat (length (hand p)) <=? toIndex) then p
  else if bool_decide (fromIndex = toIndex) then p
  else
    match hand p !! Z.to_nat fromIndex with
    | Some card =>
        set_hand (Array.insertAt (Z.to_nat toIndex) card
                    (delete (Z.to_nat fromIndex) (hand p))) p
    | None => p
    end.

End Player.

Module ComputerPlayer.

Definition new (id name difficulty : string) : Player.t :=
  Player.mk id name [] false [] 0 0 false (Some difficulty).

Definition countSpreadPotential (p : Player.t) : nat :=
  length (Spread.findPossibleSpreads (Player.hand p)).

Definition shouldKnock (p : Player.t) : bool :=
  let points := Player.calculatePoints p in
  if points <=? 3 then true
  else if points <=? 5 then
    let spreadPotential := countSpreadPotential p in
    if bool_decide (spreadPotential = 0%nat)
       || (length (Player.hand p) <=? 2)%nat
    then true
    else false
  else false.

(** The points of a candidate,
    [cards.reduce((sum, c) => sum + c.value, 0)], and
    [possibleSpreads.sort((a, b) => pointsB - pointsA)]. *)
Definition candidatePoints (s : Spread.Candidate) : Z :=
  Array.sum_by Card.value (Spread.ccards s).

Definition sortByPoints (spreads : list Spread.Candidate)
    : list Spread.Candidate :=
  Array.sort_by (fun s => - candidatePoints s) spreads.

(** [findBestSpread]: [None] is [null]. *)
Definition findBestSpread (p : Player.t) : option Spread.Candidate :=
  head (sortByPoints (Spread.findPossibleSpreads (Player.hand p))).

(** The inner loop of [findAllSpreadsToLay]: each card of [best.cards]
    that is found in [remainingHand] is spliced out of it. *)
Fixpoint removeFound (cards : list Card.t) (remainingHand : list Card.t)
    : list Card.t :=
  match cards with
  | [] => remainingHand
  | card :: cards' =>
      match Array.findIndex (fun c => Card.equals c card) remainingHand with
      | Some idx => removeFound cards' (delete idx remainingHand)
      | None => removeFound cards' remainingHand
      end
  end.

(** The [while (true)] loop of [findAllSpreadsToLay].  It ends when no
    spread is possible in [remainingHand] (the sorted array is empty
    exactly when [possibleSpreads] is); [fuel] bounds the number of
    further iterations, and the result is [None] when it is used up. *)
Fixpoint laySpreadsLoop (fuel : nat) (remainingHand : list Card.t)
    (spreads : list Spread.Candidate) : option (list Spread.Candidate) :=
  match sortByPoints (Spread.findPossibleSpreads remainingHand) with
  | [] => Some spreads
  | best :: _ =>
      match fuel with
      | O => None
      | S fuel' =>
          laySpreadsLoop fuel' (removeFound (Spread.ccards best) remainingHand)
            (spreads ++ [best])
      end
  end.

Definition findAllSpreadsToLay (fuel : nat) (p : Player.t)
    : option (list Spread.Candidate) :=
  laySpreadsLoop fuel (Player.hand p) [].

(** An entry [{ card, spread }] of [findHitOpportunities]; [hspread] is
    the position of the spread on the table. *)
Record Hit := mkHit { hcard : Card.t; hspread : nat }.

(** The loop over the hand for the spread [s] at position [i], and the
    loop over the spreads.  [None] is the [TypeError] that [canAddCard]
    raises on a spread without cards. *)
Fixpoint hitsOfSpread (s : Spread.t) (i : nat) (hand : list Card.t)
    (hits : list Hit) : option (list Hit) :=
  match hand with
  | [] => Some hits
  | card :: hand' =>
      match Spread.canAddCard s card with
      | None => None
      | Some true => hitsOfSpread s i hand' (hits ++ [mkHit card i])
      | Some false => hitsOfSpread s i hand' hits
      end
  end.

Fixpoint hitsLoop (spreads : list Spread.t) (i : nat) (hand : list Card.t)
    (hits : list Hit) : option (list Hit) :=
  match spreads with
  | [] => Some hits
  | s :: spreads' =>
      match hitsOfSpread s i hand hits with
      | None => None
      | Some hits1 => hitsLoop spreads' (S i) hand hits1
      end
  end.

(** [findHitOpportunities]: the hits, sorted by card value, highest
    first. *)
Definition findHitOpportunities (spreadsOnTable : list Spread.t)
    (p : Player.t) : option (list Hit) :=
  Array.sort_by (fun h => - Card.value (hcard h))
    <$> hitsLoop spreadsOnTable 0%nat (Player.hand p) [].

(** A card object of the hand: its position in the hand together with the
    card.  Two cards of a hand are the same object exactly when they are
    at the same position. *)
Definition HandCard : Type := nat * Card.t.

(** [groups[key].push(x)], creating the array when the key is new. *)
Fixpoint groupAdd {K : Type} `{EqDecision K} (k : K) (x : HandCard)
    (groups : list (K * list HandCard)) : list (K * list HandCard) :=
  match groups with
  | [] => [(k, [x])]
  | (k', xs) :: rest =>
      if decide (k = k') then (k', xs ++ [x]) :: rest
      else (k', xs) :: groupAdd k x rest
  end.

(** [Object.values] of an object keyed by rank: the integer keys "2" to
    "10" in ascending order, then the other keys in insertion order. *)
Definition valuesByRank (groups : list (Card.Rank * list HandCard))
    : list (list HandCard) :=
  map snd
    (flat_map (fun r => filter (fun e => fst e = r) groups)
       Spread.integerRanks
     ++ filter (fun e => fst e ∉ Spread.integerRanks) groups).

(** [contributing.add(x)] on a [Set] kept in insertion order. *)
Definition setAdd (x : HandCard) (set : list HandCard) : list HandCard :=
  if bool_decide (x ∈ set) then set else set ++ [x].

(** The loop of [getSpreadContributingCards] over the sorted cards of one
    suit: [sorted[i]] and [sorted[i + 1]] are added when their rank
    indices differ by 1 or 2. *)
Fixpoint nearPairs (sorted : list HandCard) (contributing : list HandCard)
    : list HandCard :=
  match sorted with
  | [] => contributing
  | a :: rest =>
      match rest with
      | [] => contributing
      | b :: _ =>
          let diff := Card.getRankIndex (snd b) - Card.getRankIndex (snd a) in
          nearPairs rest
            (if bool_decide (diff = 1) || bool_decide (diff = 2)
             then setAdd b (setAdd a contributing)
             else contributing)
      end
  end.

Definition getSpreadContributingCards (p : Player.t) : list Card.t :=
  let hand := imap (fun i c => (i, c)) (Player.hand p) in
  let byRank :=
    fold_left (fun groups x => groupAdd (Card.rank (snd x)) x groups) hand [] in
  let contributing1 :=
    fold_left
      (fun contributing cards =>
         if (2 <=? length cards)%nat
         then fold_left (fun set c => setAdd c set) cards contributing
         else contributing)
      (valuesByRank byRank) [] in
  let bySuit :=
    fold_left (fun groups x => groupAdd (Card.suit (snd x)) x groups) hand [] in
  let contributing2 :=
    fold_left
      (fun contributing cards =>
         if (length cards <? 2)%nat then contributing
         else nearPairs
                (Array.sort_by (fun x => Card.getRankIndex (snd x)) cards)
                contributing)
      (map snd bySuit) contributing1 in
  map snd contributing2.

(** [decideDiscard]: [None] is the [undefined] returned for an empty hand.
    The [id] of a card is made of its rank and suit, so a card's id is in
    [spreadCardIds] exactly when the card equals a contributing card. *)
Definition decideDiscard (p : Player.t) : option Card.t :=
  let spreadCards := getSpreadContributingCards p in
  let nonSpreadCards :=
    filter (fun c => c ∉ spreadCards) (Player.hand p) in
  if (0 <? length nonSpreadCards)%nat
  then head (Array.sort_by (fun c => - Card.value c) nonSpreadCards)
  else head (Array.sort_by (fun c => - Card.value c) (Player.hand p)).

End ComputerPlayer.

(** ** Game.js *)

Module Game.

Import Rules.

(** Entries of [turnActions]. *)
Inductive Action :=
| ActDraw (fromDiscard : bool) (card : Card.t)
| ActSpread (cards : list Card.t) (spreadType : Spread.SpreadType)
| ActHit (card : Card.t) (spread : nat)
| ActDiscard (card : Card.t).

(** The notifications passed to [emit], with the seats, cards and table
    positions they carry. *)
Inductive Event :=
| gameInitialized
| initialTonkDraw (players : list nat)
| gameOver (winner : option nat) (condition : option WinCondition)
| turnStart (player : nat)
| turnEnd (nextPlayer : nat)
| cardsDealt (cardsPerPlayer : nat)
| cardDrawn (player : nat) (fromDiscard : bool) (card : Card.t)
| spreadLaid (player spread : nat)
| spreadHit (player : nat) (card : Card.t) (spread : nat)
| phaseChanged (phase : Phase)
| cardDiscarded (player : nat) (card : Card.t)
| knockResolved (knocker : nat) (winner : option nat)
| roundStart (roundNumber : nat)
| antesCollected (pot ante : Z)
| betPlaced (player : nat) (amount pot : Z)
| potAwarded (winner : nat) (amount : Z).

(** The fields of a [Game] on which [initialize] has run ([deck] is then
    never [null]).  [winner] and [matchWinner] are seats; [emitted] is the
    sequence of notifications delivered so far, oldest first; [matchScores]
    is the object keyed by player id. *)
Record t := mk {
  deck : Deck.t;
  players : list Player.t;
  currentPlayerIndex : nat;
  phase : Phase;
  spreadsOnTable : list Spread.t;
  winner : option nat;
  winCondition : option WinCondition;
  turnActions : list Action;
  hasDrawnThisTurn : bool;
  emitted : list Event;
  matchScores : gmap string Z;
  pointLimit : Z;
  matchWinner : option nat;
  roundNumber : nat;
  pot : Z;
  highestBet : Z
}.

Definition set_deck (x : Deck.t) (g : t) : t :=
  mk x (players g) (currentPlayerIndex g) (phase g) (spreadsOnTable g)
     (winner g) (winCondition g) (turnActions g) (hasDrawnThisTurn g)
     (emitted g) (matchScores g) (pointLimit g) (matchWinner g)
     (roundNumber g) (pot g) (highestBet g).

Definition set_players (x : list Player.t) (g : t) : t :=
  mk (deck g) x (currentPlayerIndex g) (phase g) (spreadsOnTable g)
     (winner g) (winCondition g) (turnActions g) (hasDrawnThisTurn g)
     (emitted g) (matchScores g) (pointLimit g) (matchWinner g)
     (roundNumber g) (pot g) (highestBet g).

Definition set_currentPlayerIndex (x : nat) (g : t) : t :=
  mk (deck g) (players g) x (phase g) (spreadsOnTable g) (winner g)
     (winCondition g) (turnActions g) (hasDrawnThisTurn g) (emitted g)
     (matchScores g) (pointLimit g) (matchWinner g) (roundNumber g)
     (pot g) (highestBet g).

Definition set_phase (x : Phase) (g : t) : t :=
  mk (deck g) (players g) (currentPlayerIndex g) x (spreadsOnTable g)
     (winner g) (winCondition g) (turnActions g) (hasDrawnThisTurn g)
     (emitted g) (matchScores g) (pointLimit g) (matchWinner g)
     (roundNumber g) (pot g) (highestBet g).

Definition set_spreadsOnTable (x : list Spread.t) (g : t) : t :=
  mk (deck g) (players g) (currentPlayerIndex g) (phase g) x (winner g)
     (winCondition g) (turnActions g) (hasDrawnThisTurn g) (emitted g)
     (matchScores g) (pointLimit g) (matchWinner g) (roundNumber g)
     (pot g) (highestBet g).

Definition set_winner (x : option nat) (g : t) : t :=
  mk (deck g) (players g) (currentPlayerIndex g) (phase g)
     (spreadsOnTable g) x (winCondition g) (turnActions g)
     (hasDrawnThisTurn g) (emitted g) (matchScores g) (pointLimit g)
     (matchWinner g) (roundNumber g) (pot g) (highestBet g).

Definition set_winCondition (x : option WinCondition) (g : t) : t :=
  mk (deck g) (players g) (currentPlayerIndex g) (phase g)
     (spreadsOnTable g) (winner g) x (turnActions g) (hasDrawnThisTurn g)
     (emitted g) (matchScores g) (pointLimit g) (matchWinner g)
     (roundNumber g) (pot g) (highestBet g).

Definition set_turnActions (x : list Action) (g : t) : t :=
  mk (deck g) (players g) (currentPlayerIndex g) (phase g)
     (spreadsOnTable g) (winner g) (winCondition g) x (hasDrawnThisTurn g)
     (emitted g) (matchScores g) (pointLimit g) (matchWinner g)
     (roundNumber g) (pot g) (highestBet g).

Definition set_hasDrawnThisTurn (x : bool) (g : t) : t :=
  mk (deck g) (players g) (currentPlayerIndex g) (phase g)
     (spreadsOnTable g) (winner g) (winCondition g) (turnActions g) x
     (emitted g) (matchScores g) (pointLimit g) (matchWinner g)
     (roundNumber g) (pot g) (highestBet g).

Definition set_emitted (x : list Event) (g : t) : t :=
  mk (deck g) (players g) (currentPlayerIndex g) (phase g)
     (spreadsOnTable g) (winner g) (winCondition g) (turnActions g)
     (hasDrawnThisTurn g) x (matchScores g) (pointLimit g) (matchWinner g)
     (roundNumber g) (pot g) (highestBet g).

Definition set_matchScores (x : gmap string Z) (g : t) : t :=
  mk (deck g) (players g) (currentPlayerIndex g) (phase g)
     (spreadsOnTable g) (winner g) (winCondition g) (turnActions g)
     (hasDrawnThisTurn g) (emitted g) x (pointLimit g) (matchWinner g)
     (roundNumber g) (pot g) (highestBet g).

Definition set_matchWinner (x : option nat) (g : t) : t :=
  mk (deck g) (players g) (currentPlayerIndex g) (phase g)
     (spreadsOnTable g) (winner g) (winCondition g) (turnActions g)
     (hasDrawnThisTurn g) (emitted g) (matchScores g) (pointLimit g) x
     (roundNumber g) (pot g) (highestBet g).

Definition set_roundNumber (x : nat) (g : t) : t :=
  mk (deck g) (players g) (currentPlayerIndex g) (phase g)
     (spreadsOnTable g) (winner g) (winCondition g) (turnActions g)
     (hasDrawnThisTurn g) (emitted g) (matchScores g) (pointLimit g)
     (matchWinner g) x (pot g) (highestBet g).

Definition set_pot (x : Z) (g : t) : t :=
  mk (deck g) (players g) (currentPlayerIndex g) (phase g)
     (spreadsOnTable g) (winner g) (winCondition g) (turnActions g)
     (hasDrawnThisTurn g) (emitted g) (matchScores g) (pointLimit g)
     (matchWinner g) (roundNumber g) x (highestBet g).

Definition set_highestBet (x : Z) (g : t) : t :=
  mk (deck g) (players g) (currentPlayerIndex g) (phase g)
     (spreadsOnTable g) (winner g) (winCondition g) (turnActions g)
     (hasDrawnThisTurn g) (emitted g) (matchScores g) (pointLimit g)
     (matchWinner g) (roundNumber g) (pot g) x.

Definition emit (e : Event) (g : t) : t := set_emitted (emitted g ++ [e]) g.

Definition pushAction (a : Action) (g : t) : t :=
  set_turnActions (turnActions g ++ [a]) g.

(** The outcome of a method: a returned value or a thrown error, each
    with the state of the game at that point. *)
Inductive Result (A : Type) :=
| Ok (value : A) (g : t)
| Throw (message : string) (g : t).
Arguments Ok {A} value g.
Arguments Throw {A} message g.

Definition stateOf {A : Type} (r : Result A) : t :=
  match r with Ok _ g => g | Throw _ g => g end.

Definition isThrow {A : Type} (r : Result A) : bool :=
  match r with Ok _ _ => false | Throw _ _ => true end.

(** [getCurrentPlayer]: [None] is [undefined]. *)
Definition getCurrentPlayer (g : t) : option Player.t :=
  players g !! currentPlayerIndex g.

(** *** Betting *)

(** The loop of [collectAntes]; [pot] is [this.pot] on entry. *)
Fixpoint anteLoop (ps : list Player.t) (pot : Z) : list Player.t * Z :=
  match ps with
  | [] => ([], pot)
  | player :: ps' =>
      if Player.isEliminated player then
        let '(ps1, pot1) := anteLoop ps' pot in (player :: ps1, pot1)
      else
        let '(actualAnte, player1) :=
          Player.bet ANTE_AMOUNT (Player.resetBet player) in
        let '(ps1, pot1) := anteLoop ps' (pot + actualAnte) in
        (player1 :: ps1, pot1)
  end.

Definition collectAntes (g : t) : t :=
  let g1 := set_highestBet ANTE_AMOUNT (set_pot 0 g) in
  let '(ps, pot1) := anteLoop (players g1) (pot g1) in
  let g2 := set_pot pot1 (set_players ps g1) in
  emit (antesCollected (pot g2) ANTE_AMOUNT) g2.

(** [placeBet]: [player] is the seat of the player object passed in. *)
Definition placeBet (player : nat) (amount : Z) (g : t) : Result Z :=
  match players g !! player with
  | None => Throw "TypeError" g
  | Some p =>
      if Player.isEliminated p then Throw "Eliminated players cannot bet" g
      else
        let '(actualBet, p1) := Player.bet amount p in
        let g1 := set_pot (pot g + actualBet)
                    (set_players (<[player := p1]> (players g)) g) in
        let g2 := if highestBet g1 <? Player.currentBet p1
                  then set_highestBet (Player.currentBet p1) g1 else g1 in
        Ok actualBet (emit (betPlaced player actualBet (pot g2)) g2)
  end.

Definition awardPot (winner : nat) (g : t) : Result Z :=
  match players g !! winner with
  | None => Throw "TypeError" g
  | Some p =>
      let winnings := pot g in
      let g1 := set_players (<[winner := Player.receiveChips winnings p]>
                               (players g)) g in
      Ok winnings (emit (potAwarded winner winnings) (set_pot 0 g1))
  end.

(** *** Dealing *)

(** One pass of the inner loop of [deal]: a card for each player in seat
    order, as long as the draw pile gives one. *)
Fixpoint dealPass (d : Deck.t) (ps : list Player.t)
    : Deck.t * list Player.t :=
  match ps with
  | [] => (d, [])
  | player :: ps' =>
      let '(card, d1) := Deck.draw d in
      let player1 := match card with
                     | Some c => Player.addCard c player
                     | None => player
                     end in
      let '(d2, ps2) := dealPass d1 ps' in
      (d2, player1 :: ps2)
  end.

Fixpoint dealPasses (n : nat) (d : Deck.t) (ps : list Player.t)
    : Deck.t * list Player.t :=
  match n with
  | O => (d, ps)
  | S n' => let '(d1, ps1) := dealPass d ps in dealPasses n' d1 ps1
  end.

Definition deal (g : t) : t :=
  let cardsPerPlayer := getCardsPerPlayer (length (players g)) in
  let '(d1, ps1) := dealPasses cardsPerPlayer (deck g) (players g) in
  let '(firstDiscard, d2) := Deck.draw d1 in
  let d3 := match firstDiscard with
            | Some c => Deck.discard c d2
            | None => d2
            end in
  emit (cardsDealt cardsPerPlayer) (set_deck d3 (set_players ps1 g)).

(** [checkInitialTonk]: the seats of the players with an initial tonk, in
    seat order; [i] is the seat of the head of [ps]. *)
Fixpoint tonkSeats (ps : list Player.t) (i : nat) : list nat :=
  match ps with
  | [] => []
  | player :: ps' =>
      if hasInitialTonk (Player.calculatePoints player)
      then i :: tonkSeats ps' (S i)
      else tonkSeats ps' (S i)
  end.

Definition checkInitialTonk (g : t) : list nat := tonkSeats (players g) 0%nat.

(** The first steps of [dealAndCheckInitialTonk]: antes, deal, phase. *)
Definition dealAttempt (g : t) : t :=
  set_phase INITIAL_TONK_CHECK (deal (collectAntes g)).

(** The reset made before a redeal: every player reset, a new deck. *)
Definition resetForRedeal (random : nat -> Deck.Rand) (g : t) : t :=
  set_deck (Deck.new random) (set_players (map Player.reset (players g)) g).

(** The branch of [dealAndCheckInitialTonk] for a single initial tonk:
    [playersWithTonk[0]] wins the round. *)
Definition initialTonkWin (playersWithTonk : list nat) (g : t) : t :=
  let g1 := set_phase GAME_OVER
              (set_winCondition (Some INITIAL_TONK)
                 (set_winner (head playersWithTonk) g)) in
  emit (gameOver (winner g1) (winCondition g1)) g1.

(** The branch for no initial tonk: the turn of the current player starts. *)
Definition firstTurn (g : t) : t :=
  let g1 := set_phase START_OF_TURN g in
  emit (turnStart (currentPlayerIndex g1)) g1.

(** [dealAndCheckInitialTonk].  Each redeal builds a new deck and so
    consumes one element of [shuffles] (the random values of that shuffle);
    the result is [None] when the list is used up before a deal without
    two initial tonks occurs. *)
Fixpoint dealAndCheckInitialTonk (shuffles : list (nat -> Deck.Rand))
    (g : t) : option t :=
  let g1 := dealAttempt g in
  let playersWithTonk := checkInitialTonk g1 in
  if (1 <? length playersWithTonk)%nat then
    let g2 := emit (initialTonkDraw playersWithTonk) g1 in
    match shuffles with
    | [] => None
    | random :: shuffles' =>
        dealAndCheckInitialTonk shuffles' (resetForRedeal random g2)
    end
  else if bool_decide (length playersWithTonk = 1%nat) then
    Some (initialTonkWin playersWithTonk g1)
  else
    Some (firstTurn g1).

(** *** initialize and startNextRound *)

(** The object built by the constructor.  Its [deck] is [null] in the
    source; the empty deck stands for it here, and [initialize], the only
    operation that does not reject the phase [PRE_GAME], replaces it. *)
Definition constructed : t :=
  mk (Deck.mk [] []) [] 0%nat PRE_GAME [] None None [] false [] ∅
     MATCH_POINT_LIMIT None 0%nat 0 0.

(** What [initialize] takes from its environment: the id generated for the
    player of each seat, the names drawn for the computer players, the
    random values of the first shuffle and those of the redeals. *)
Record Env := mkEnv {
  playerIds : nat -> string;
  aiNames : nat -> string;
  firstShuffle : nat -> Deck.Rand;
  redealShuffles : list (nat -> Deck.Rand)
}.

Definition startingChips (p : Player.t) : Player.t :=
  Player.set_betting STARTING_CHIPS 0 false p.

Definition initialize (env : Env) (playerCount : nat)
    (humanPlayerName : string) (g : t) : option t :=
  let human := Player.new (playerIds env 0%nat) humanPlayerName true in
  let computers :=
    map (fun i => ComputerPlayer.new (playerIds env (S i)) (aiNames env i)
                    "medium")
        (seq 0 (playerCount - 1)) in
  let ps := human :: computers in
  let scores :=
    fold_left (fun m p => <[Player.id p := 0]> m) ps (∅ : gmap string Z) in
  let g1 :=
    mk (Deck.new (firstShuffle env)) (map startingChips ps) 0%nat PRE_GAME
       [] None None [] false (emitted g) scores (pointLimit g) None 1%nat
       0 0 in
  emit gameInitialized <$> dealAndCheckInitialTonk (redealShuffles env) g1.

(** The part of [startNextRound] that precedes the deal. *)
Definition prepareNextRound (random : nat -> Deck.Rand) (g : t) : t :=
  let g1 := set_roundNumber (S (roundNumber g)) g in
  let g2 := set_players
              (map (fun p => Player.resetBet (Player.reset p)) (players g1))
              g1 in
  let g3 := set_turnActions []
              (set_hasDrawnThisTurn false
                 (set_winCondition None
                    (set_winner None (set_spreadsOnTable [] g2)))) in
  let g4 := set_highestBet 0 (set_pot 0 g3) in
  let g5 := set_deck (Deck.new random) g4 in
  emit (roundStart (roundNumber g5)) g5.

Definition startNextRound (random : nat -> Deck.Rand)
    (redeals : list (nat -> Deck.Rand)) (g : t) : option t :=
  dealAndCheckInitialTonk redeals (prepareNextRound random g).

(** *** The turn *)

Definition updateCurrentPlayer (p : Player.t) (g : t) : t :=
  set_players (<[currentPlayerIndex g := p]> (players g)) g.

(** The three assignments and the notification that end a round. *)
Definition endRound (w : option nat) (c : WinCondition) (g : t) : t :=
  let g1 := set_phase GAME_OVER (set_winCondition (Some c) (set_winner w g)) in
  emit (gameOver (winner g1) (winCondition g1)) g1.

(** The loop of [endGameStockEmpty]; [i] is the seat of the head of [ps],
    [lowestPlayer] a seat. *)
Fixpoint lowestLoop (ps : list Player.t) (i : nat) (lowestPlayer : nat)
    (lowestPoints : Z) : nat :=
  match ps with
  | [] => lowestPlayer
  | player :: ps' =>
      let points := Player.calculatePoints player in
      if points <? lowestPoints
      then lowestLoop ps' (S i) i points
      else lowestLoop ps' (S i) lowestPlayer lowestPoints
  end.

Definition endGameStockEmpty (g : t) : Result unit :=
  match players g with
  | [] => Throw "TypeError" g
  | first :: _ =>
      let lowestPlayer :=
        lowestLoop (players g) 0%nat 0%nat (Player.calculatePoints first) in
      Ok () (endRound (Some lowestPlayer) STOCK_EMPTY g)
  end.

Definition drawFromDeck (g : t) : Result (option Card.t) :=
  if bool_decide (phase g <> DRAW)
  then Throw "Cannot draw - not in draw phase" g
  else
    let '(card, d1) := Deck.draw (deck g) in
    let g1 := set_deck d1 g in
    match card with
    | Some c =>
        match getCurrentPlayer g1 with
        | None => Throw "TypeError" g1
        | Some player =>
            let g2 := updateCurrentPlayer (Player.addCard c player) g1 in
            let g3 := pushAction (ActDraw false c)
                        (set_hasDrawnThisTurn true g2) in
            let g4 := set_phase ACTION g3 in
            Ok (Some c) (emit (cardDrawn (currentPlayerIndex g4) false c) g4)
        end
    | None =>
        match endGameStockEmpty g1 with
        | Ok _ g2 => Ok None g2
        | Throw m g2 => Throw m g2
        end
    end.

Definition drawFromDiscard (g : t) : Result (option Card.t) :=
  if bool_decide (phase g <> DRAW)
  then Throw "Cannot draw - not in draw phase" g
  else
    let '(card, d1) := Deck.drawFromDiscard (deck g) in
    let g1 := set_deck d1 g in
    match card with
    | Some c =>
        match getCurrentPlayer g1 with
        | None => Throw "TypeError" g1
        | Some player =>
            let g2 := updateCurrentPlayer (Player.addCard c player) g1 in
            let g3 := pushAction (ActDraw true c)
                        (set_hasDrawnThisTurn true g2) in
            let g4 := set_phase ACTION g3 in
            Ok (Some c) (emit (cardDrawn (currentPlayerIndex g4) true c) g4)
        end
    | None => Ok None g1
    end.

(** [laySpread]: the value returned is the position on the table of the
    spread that was created. *)
Definition laySpread (cards : list Card.t) (g : t) : Result nat :=
  if bool_decide (phase g <> ACTION) && bool_decide (phase g <> START_OF_TURN)
  then Throw "Cannot lay spread - not in valid phase" g
  else
    let validation := Spread.validate cards in
    if negb (Spread.valid validation) then Throw "Invalid spread" g
    else
      match getCurrentPlayer g, Spread.vtype validation with
      | Some player, Some type =>
          let '(_, player1) := Player.removeCards cards player in
          let spread := Spread.mk cards type (currentPlayerIndex g) in
          let ref := length (spreadsOnTable g) in
          let g1 := set_spreadsOnTable (spreadsOnTable g ++ [spread]) g in
          let player2 := Player.addSpread ref player1 in
          let g2 := updateCurrentPlayer player2 g1 in
          let g3 := pushAction (ActSpread cards type) g2 in
          let g4 := emit (spreadLaid (currentPlayerIndex g3) ref) g3 in
          if Player.hasEmptyHand player2
          then Ok ref (endRound (Some (currentPlayerIndex g4)) TONK g4)
          else Ok ref g4
      | _, _ => Throw "TypeError" g
      end.

Definition proceedToDraw (g : t) : Result unit :=
  if bool_decide (phase g <> START_OF_TURN)
  then Throw "Can only proceed to draw from start of turn" g
  else Ok () (emit (phaseChanged DRAW) (set_phase DRAW g)).

(** [hitSpread]: [spread] is the position on the table of the spread
    object passed in. *)
Definition hitSpread (card : Card.t) (spread : nat) (g : t) : Result unit :=
  if bool_decide (phase g <> ACTION) && bool_decide (phase g <> START_OF_TURN)
  then Throw "Cannot hit spread - not in valid phase" g
  else
    match spreadsOnTable g !! spread with
    | None => Throw "TypeError" g
    | Some s =>
        match Spread.canAddCard s card with
        | None => Throw "TypeError" g
        | Some false => Throw "Cannot add this card to the spread" g
        | Some true =>
            match getCurrentPlayer g with
            | None => Throw "TypeError" g
            | Some player =>
                let '(_, player1) := Player.removeCard card player in
                let g1 := updateCurrentPlayer player1 g in
                match Spread.addCard card s with
                | inl message => Throw message g1
                | inr s1 =>
                    let g2 := set_spreadsOnTable
                                (<[spread := s1]> (spreadsOnTable g1)) g1 in
                    let g3 := pushAction (ActHit card spread) g2 in
                    let g4 := emit (spreadHit (currentPlayerIndex g3) card
                                      spread) g3 in
                    if Player.hasEmptyHand player1
                    then Ok () (endRound (Some (currentPlayerIndex g4)) TONK g4)
                    else Ok () g4
                end
            end
        end
    end.

Definition endTurn (g : t) : t :=
  let g1 := set_currentPlayerIndex
              ((currentPlayerIndex g + 1) mod length (players g))%nat g in
  let g2 := set_phase START_OF_TURN
              (set_turnActions [] (set_hasDrawnThisTurn false g1)) in
  emit (turnStart (currentPlayerIndex g2))
    (emit (turnEnd (currentPlayerIndex g2)) g2).

Definition discard (card : Card.t) (g : t) : Result unit :=
  if bool_decide (phase g <> ACTION)
  then Throw "Cannot discard - not in action phase" g
  else
    match getCurrentPlayer g with
    | None => Throw "TypeError" g
    | Some player =>
        match Player.removeCard card player with
        | (None, _) => Throw "Card not in player hand" g
        | (Some removedCard, player1) =>
            let g1 := updateCurrentPlayer player1 g in
            let g2 := set_deck (Deck.discard removedCard (deck g1)) g1 in
            let g3 := pushAction (ActDiscard removedCard) g2 in
            let g4 := emit (cardDiscarded (currentPlayerIndex g3) removedCard)
                        g3 in
            if Player.hasEmptyHand player1
            then Ok () (endRound (Some (currentPlayerIndex g4)) TONK g4)
            else Ok () (endTurn g4)
        end
    end.

(** The loop of [knock]: the lowest points among the players other than
    the knocker, and who holds them.  [lowestOtherPoints = None] is the
    initial [Infinity], [lowestOtherPlayer = None] the initial [null]. *)
Fixpoint knockLoop (ps : list Player.t) (i : nat) (knocker : nat)
    (lowestOtherPlayer : option nat) (lowestOtherPoints : option Z)
    : option nat * option Z :=
  match ps with
  | [] => (lowestOtherPlayer, lowestOtherPoints)
  | player :: ps' =>
      if bool_decide (i <> knocker) then
        let points := Player.calculatePoints player in
        if match lowestOtherPoints with
           | None => true
           | Some lowest => points <? lowest
           end
        then knockLoop ps' (S i) knocker (Some i) (Some points)
        else knockLoop ps' (S i) knocker lowestOtherPlayer lowestOtherPoints
      else knockLoop ps' (S i) knocker lowestOtherPlayer lowestOtherPoints
  end.

Definition knock (g : t) : Result unit :=
  if bool_decide (phase g <> START_OF_TURN)
  then Throw "Can only knock at the start of your turn" g
  else
    match getCurrentPlayer g with
    | None => Throw "TypeError" g
    | Some knocker =>
        let knockerPoints := Player.calculatePoints knocker in
        let '(lowestOtherPlayer, lowestOtherPoints) :=
          knockLoop (players g) 0%nat (currentPlayerIndex g) None None in
        let g1 :=
          if match lowestOtherPoints with
             | None => true
             | Some lowest => knockerPoints <? lowest
             end
          then set_winCondition (Some KNOCK)
                 (set_winner (Some (currentPlayerIndex g)) g)
          else set_winCondition (Some CAUGHT)
                 (set_winner lowestOtherPlayer g) in
        let g2 := set_phase GAME_OVER g1 in
        let g3 := emit (knockResolved (currentPlayerIndex g2) (winner g2)) g2 in
        Ok () (emit (gameOver (winner g3) (winCondition g3)) g3)
    end.

(** *** Scores *)

(** An entry [{ player, pointsAdded, newTotal }] of the array returned
    by [applyRoundScoring]. *)
Record Loser := mkLoser { loser : nat; pointsAdded : Z; newTotal : Z }.

(** The loop of [applyRoundScoring]; [i] is the seat of the head of [ps].
    [default 0 (scores !! id)] is [scores[id] || 0]. *)
Fixpoint scoringLoop (ps : list Player.t) (i : nat) (winner : option nat)
    (scores : gmap string Z) (losers : list Loser)
    : gmap string Z * list Loser :=
  match ps with
  | [] => (scores, losers)
  | player :: ps' =>
      if bool_decide (Some i <> winner) then
        let points := Player.calculatePoints player in
        let scores1 :=
          <[Player.id player := default 0 (scores !! Player.id player) + points]>
            scores in
        scoringLoop ps' (S i) winner scores1
          (losers ++ [mkLoser i points
                        (default 0 (scores1 !! Player.id player))])
      else scoringLoop ps' (S i) winner scores losers
  end.

Definition applyRoundScoring (g : t) : Result (list Loser) :=
  let '(scores, losers) :=
    scoringLoop (players g) 0%nat (winner g) (matchScores g) [] in
  Ok losers (set_matchScores scores g).

Definition getScore (g : t) (p : Player.t) : Z :=
  default 0 (matchScores g !! Player.id p).

Definition getTopDiscard (g : t) : option Card.t :=
  Deck.getTopDiscard (deck g).

Definition getDeckCount (g : t) : nat := Deck.cardsRemaining (deck g).

Definition isStockEmpty (g : t) : bool := Deck.isEmpty (deck g).

(** The inner loop of [checkMatchEnd]; [i] is the seat of the head of
    [ps], [matchWinner] a seat.  A score is [None] when [matchScores] has
    no entry for the id: the comparison with [undefined] is false. *)
Fixpoint lowestScoreLoop (scores : gmap string Z) (ps : list Player.t)
    (i : nat) (matchWinner : nat) (lowestScore : option Z) : nat :=
  match ps with
  | [] => matchWinner
  | p :: ps' =>
      if match scores !! Player.id p, lowestScore with
         | Some score, Some lowest => score <? lowest
         | _, _ => false
         end
      then lowestScoreLoop scores ps' (S i) i (scores !! Player.id p)
      else lowestScoreLoop scores ps' (S i) matchWinner lowestScore
  end.

(** The outer loop of [checkMatchEnd]: at the first player whose score
    has reached the limit the winner is sought among [all] players. *)
Fixpoint matchEndLoop (ps : list Player.t) (all : list Player.t) (g : t)
    : bool * t :=
  match ps with
  | [] => (false, g)
  | player :: ps' =>
      if match matchScores g !! Player.id player with
         | Some score => pointLimit g <=? score
         | None => false
         end
      then
        let lowestScore := head all ≫= fun p => matchScores g !! Player.id p in
        (true,
         set_matchWinner
           (Some (lowestScoreLoop (matchScores g) all 0%nat 0%nat lowestScore))
           g)
      else matchEndLoop ps' all g
  end.

Definition checkMatchEnd (g : t) : bool * t :=
  matchEndLoop (players g) (players g) g.

(** *** The operations offered to the presentation layer *)

Inductive Op :=
| OpInitialize (env : Env) (playerCount : nat) (humanPlayerName : string)
| OpProceedToDraw
| OpDrawFromDeck
| OpDrawFromDiscard
| OpLaySpread (cards : list Card.t)
| OpHitSpread (card : Card.t) (spread : nat)
| OpDiscard (card : Card.t)
| OpKnock
| OpStartNextRound (random : nat -> Deck.Rand)
    (redeals : list (nat -> Deck.Rand)).

(** The state in which a call leaves the game, whether it returned or
    threw; [None] when the supplied shuffles do not suffice. *)
Definition exec (op : Op) (g : t) : option t :=
  match op with
  | OpInitialize env playerCount name => initialize env playerCount name g
  | OpProceedToDraw => Some (stateOf (proceedToDraw g))
  | OpDrawFromDeck => Some (stateOf (drawFromDeck g))
  | OpDrawFromDiscard => Some (stateOf (drawFromDiscard g))
  | OpLaySpread cards => Some (stateOf (laySpread cards g))
  | OpHitSpread card spread => Some (stateOf (hitSpread card spread g))
  | OpDiscard card => Some (stateOf (discard card g))
  | OpKnock => Some (stateOf (knock g))
  | OpStartNextRound random redeals => startNextRound random redeals g
  end.

(** The states produced by sequences of operations that start with
    [initialize]. *)
Inductive Reachable : t -> Prop :=
| reach_init g0 env playerCount name g :
    initialize env playerCount name g0 = Some g -> Reachable g
| reach_step g op g' :
    Reachable g -> exec op g = Some g' -> Reachable g'.

(** Every card held anywhere: draw pile, discard pile, hands, spreads. *)
Definition allCards (g : t) : list Card.t :=
  Deck.cards (deck g) ++ Deck.discardPile (deck g)
  ++ concat (map Player.hand (players g))
  ++ concat (map Spread.cards (spreadsOnTable g)).

(** The chips of all players together with the pot. *)
Definition chipsInPlay (g : t) : Z :=
  Array.sum_by Player.chips (players g) + pot g.

End Game.

(** ** Concrete games used in the examples *)

Module Demo.

Import Card.

Definition card (r : Rank) (s : Suit) : Card.t := Card.mk s r.

(** A random source given by its first values; every later call of
    [Math.random()] returns 0. *)
Definition randomOf (us : list Deck.Rand) : nat -> Deck.Rand :=
  fun k => nth k us (Deck.mkRand 0 0).

(** [Math.random()] returns 0 at every call. *)
Definition zeroShuffle : nat -> Deck.Rand := randomOf [].

(** The value [j / (i + 1)], for which [Math.floor(u * (i + 1))] is [j]. *)
Definition pick (i j : nat) : Deck.Rand := Deck.mkRand j (i - j).

(** Seat 0 is dealt 7♥ 7♦ 7♣ A♥ 5♠, seat 1 Q♠ 10♠ 8♠ 6♠ 4♠, and 3♠ is
    turned up; 7♠ stays in the draw pile. *)
Definition sevensShuffle : nat -> Deck.Rand :=
  randomOf [pick 51 6; pick 50 50; pick 49 19; pick 48 48; pick 47 32;
            pick 46 46; pick 45 0; pick 44 44; pick 43 43; pick 42 42;
            pick 41 41].

(** Both seats are dealt five cards worth 10 points each. *)
Definition tonkShuffle : nat -> Deck.Rand :=
  randomOf [pick 51 51; pick 50 50; pick 49 49; pick 48 48; pick 47 38;
            pick 46 37; pick 45 36; pick 44 35; pick 43 25; pick 42 24].

Definition playerIds (seat : nat) : string :=
  match seat with
  | O => "player-0"
  | S O => "player-1"
  | S (S O) => "player-2"
  | _ => "player-3"
  end.

Definition env (random : nat -> Deck.Rand) : Game.Env :=
  Game.mkEnv playerIds (fun _ => "Alex") random [].

(** The run 5♠ 6♠ 7♠ laid by seat 0, a same-suit set with a gap, and
    five cards of one rank. *)
Definition run567 : Spread.t :=
  Spread.mk [card R5 spades; card R6 spades; card R7 spades] Spread.run 0.

Definition gapped : list Card.t :=
  [card R4 spades; card R5 spades; card R7 spades].

Definition fiveSevens : list Card.t :=
  [card R7 hearts; card R7 diamonds; card R7 clubs; card R7 spades;
   card R7 hearts].

(** The player of seat [i] with the given hand and the starting chips;
    seat 0 is the human player. *)
Definition seat (i : nat) (hand : list Card.t) : Player.t :=
  Player.set_hand hand
    (Game.startingChips
       (Player.new (playerIds i) "P" (bool_decide (i = 0%nat)))).

(** A game with the given hands, seat to act, phase and piles: pot and
    scores as at the start of a match, nothing on the table. *)
Definition seated (hands : list (list Card.t)) (phase : Rules.Phase)
    (current : nat) (drawPile discardPile : list Card.t) : Game.t :=
  Game.mk (Deck.mk drawPile discardPile) (imap seat hands) current phase
    [] None None [] false [] ∅ Rules.MATCH_POINT_LIMIT None 1%nat 0 0.

(** The knocker and the other player both hold 5 points. *)
Definition tiedKnock : Game.t :=
  seated [[card R5 hearts]; [card R5 spades]] Rules.START_OF_TURN 0 [] [].

(** The stock is empty; seats 0 and 2 both hold the lowest total, 7. *)
Definition emptyStock : Game.t :=
  seated [[card R5 hearts; card R2 clubs]; [card R9 spades];
          [card R7 diamonds]]
    Rules.DRAW 1 [] [card RK hearts; card RQ hearts].

(** The round of [tiedKnock] after the knock: seat 1 has won. *)
Definition knocked : Game.t := Game.stateOf (Game.knock tiedKnock).

(** A new round prepared after [knocked], with the deck that deals two
    initial tonks: both players hold 1000 chips. *)
Definition tonkRound : Game.t := Game.prepareNextRound tonkShuffle knocked.

(** Both players of [tiedKnock] bet all their chips with [placeBet]. *)
Definition allIn : Game.t :=
  Game.stateOf
    (Game.placeBet 1 1000 (Game.stateOf (Game.placeBet 0 1000 tiedKnock))).

(** Seat 0 then knocks and the next round is prepared with the deck that
    deals two initial tonks: nobody holds a chip. *)
Definition broke : Game.t :=
  Game.prepareNextRound tonkShuffle (Game.stateOf (Game.knock allIn)).

(** The state a call leaves behind, when there is one. *)
Definition after (op : Game.Op) (g : option Game.t) : option Game.t :=
  g ≫= Game.exec op.

(** Two players, the sevens deal. *)
Definition dealt : option Game.t :=
  Game.initialize (env sevensShuffle) 2 "You" Game.constructed.

(** Seat 0 has laid the book 7♥ 7♦ 7♣. *)
Definition bookLaid : option Game.t :=
  after (Game.OpLaySpread [card R7 hearts; card R7 diamonds; card R7 clubs])
    dealt.

(** Seat 0 then hits the book with 7♠, a card of the draw pile. *)
Definition bookHit : option Game.t :=
  after (Game.OpHitSpread (card R7 spades) 0) bookLaid.

(** A first round played to its end by seat 1, then the next round:
    seat 0 draws from the deck and discards A♥, seat 1 knocks, and
    [startNextRound] deals again. *)
Definition seatOneKnocked : option Game.t :=
  after Game.OpKnock
    (after (Game.OpDiscard (card RA hearts))
       (after Game.OpDrawFromDeck (after Game.OpProceedToDraw dealt))).

Definition secondRound : option Game.t :=
  after (Game.OpStartNextRound zeroShuffle []) seatOneKnocked.

(** Seat 0 holds 5♥ 2♣ and is to draw; K♦ 3♦ are in the draw pile, 3♦ on
    top, and Q♥ is the discard pile. *)
Definition drawing : Game.t :=
  seated [[card R5 hearts; card R2 clubs]; [card R9 spades]] Rules.DRAW 0
    [card RK diamonds; card R3 diamonds] [card RQ hearts].

(** The same seats after seat 0 has drawn 3♦ from the deck. *)
Definition acting : Game.t := Game.stateOf (Game.drawFromDeck drawing).

(** Seat 1 holds 4♠ 4♥ 4♦ 9♠ at the start of its turn; the run 5♠ 6♠ 7♠
    laid by seat 0 is on the table. *)
Definition hitting : Game.t :=
  Game.set_spreadsOnTable [run567]
    (seated [[card R5 hearts];
             [card R4 spades; card R4 hearts; card R4 diamonds;
              card R9 spades]]
       Rules.START_OF_TURN 1 [card RK diamonds] [card RQ hearts]).

(** The scores of a match that seat 1 has lost at 104 points. *)
Definition finished : Game.t :=
  Game.set_matchScores
    (<[playerIds 0 := 37]> (<[playerIds 1 := 104]> (∅ : gmap string Z)))
    knocked.

End Demo.

(** ** Vocabulary of the statements *)

Module Spec.

(** All cards of the set share one rank, or one suit. *)
Definition uniformRank (cards : list Card.t) : Prop :=
  forall c1 c2, c1 ∈ cards -> c2 ∈ cards -> Card.rank c1 = Card.rank c2.

Definition uniformSuit (cards : list Card.t) : Prop :=
  forall c1 c2, c1 ∈ cards -> c2 ∈ cards -> Card.suit c1 = Card.suit c2.

(** The integers [lo], [lo + 1], ..., [lo + n - 1]. *)
Definition progression (lo : Z) (n : nat) : list Z :=
  map (fun k => lo + Z.of_nat k) (seq 0 n).

(** The rank indices of the set, put in order, increase by exactly one
    from each card to the next. *)
Definition contiguousRanks (cards : list Card.t) : Prop :=
  exists lo, map Card.getRankIndex cards ≡ₚ progression lo (length cards).

(** [lo] is the lowest, [hi] the highest rank index among the cards. *)
Definition lowestIndex (cards : list Card.t) (lo : Z) : Prop :=
  lo ∈ map Card.getRankIndex cards
  /\ forall x, x ∈ map Card.getRankIndex cards -> lo <= x.

Definition highestIndex (cards : list Card.t) (hi : Z) : Prop :=
  hi ∈ map Card.getRankIndex cards
  /\ forall x, x ∈ map Card.getRankIndex cards -> x <= hi.

(** The invariant of a spread on the table: a book has 3 or 4 cards of one
    rank, a run at least 3 cards of one suit with contiguous ranks. *)
Definition laid (s : Spread.t) : Prop :=
  match Spread.type s with
  | Spread.book =>
      (3 <= length (Spread.cards s) <= 4)%nat
      /\ uniformRank (Spread.cards s)
  | Spread.run =>
      (3 <= length (Spread.cards s))%nat
      /\ uniformSuit (Spread.cards s)
      /\ contiguousRanks (Spread.cards s)
  end.

(** The answer of [validate] for a set that is no spread. *)
Definition invalid : Spread.Validation := Spread.mkValidation false None.

(** What the loop of [knock] knows after the seats below [i]. *)
Definition knockInv (all : list Player.t) (i k : nat)
    (lowestOtherPlayer : option nat) (lowestOtherPoints : option Z) : Prop :=
  match lowestOtherPlayer, lowestOtherPoints with
  | None, None => forall j, (j < i)%nat -> (j < length all)%nat -> j = k
  | Some w, Some m =>
      w <> k
      /\ (exists pw, all !! w = Some pw /\ Player.calculatePoints pw = m)
      /\ (forall j p, (j < i)%nat -> all !! j = Some p -> j <> k ->
            m <= Player.calculatePoints p)
      /\ (forall j p, (j < w)%nat -> all !! j = Some p -> j <> k ->
            m < Player.calculatePoints p)
  | _, _ => False
  end.

(** What the loop of [endGameStockEmpty] knows after the seats below [i]. *)
Definition lowestInv (all : list Player.t) (i : nat) (w : nat) (m : Z)
    : Prop :=
  (exists pw, all !! w = Some pw /\ Player.calculatePoints pw = m)
  /\ (forall j p, (j < i)%nat -> all !! j = Some p ->
        m <= Player.calculatePoints p)
  /\ (forall j p, (j < w)%nat -> all !! j = Some p ->
        m < Player.calculatePoints p).

(** The ante [collectAntes] takes from a player: nothing from an
    eliminated player, otherwise the ante clamped to the chips held. *)
Definition anteOf (p : Player.t) : Z :=
  if Player.isEliminated p then 0
  else Z.min Rules.ANTE_AMOUNT (Player.chips p).

(** The chips and the elimination flag of a player. *)
Definition account (p : Player.t) : Z * bool :=
  (Player.chips p, Player.isEliminated p).

(** The state in which the redeal starts when the deal attempted from [g]
    is void: notification sent, players reset, new deck. *)
Definition voided (random : nat -> Deck.Rand) (g : Game.t) : Game.t :=
  Game.resetForRedeal random
    (Game.emit
       (Game.initialTonkDraw (Game.checkInitialTonk (Game.dealAttempt g)))
       (Game.dealAttempt g)).

(** [Game.Reachable] for the outcome of a chain of calls. *)
Definition reached (g : option Game.t) : Prop :=
  match g with
  | Some g => Game.Reachable g
  | None => False
  end.

(** The cards in the hands of the players, and on the table. *)
Definition handCards (ps : list Player.t) : list Card.t :=
  concat (map Player.hand ps).

Definition tableCards (ss : list Spread.t) : list Card.t :=
  concat (map Spread.cards ss).


(** The seat to act is a seat of the game. *)
Definition hasCurrentPlayer (g : Game.t) : Prop :=
  (Game.currentPlayerIndex g < length (Game.players g))%nat.





(** The phases in which a game is after [initialize]. *)
Definition playing (ph : Rules.Phase) : Prop :=
  ph = Rules.START_OF_TURN \/ ph = Rules.DRAW \/ ph = Rules.ACTION
  \/ ph = Rules.GAME_OVER.

(** How phase, winner and draw flag hang together: a seat is to act; a
    round that is over has a winner among the seats and a win condition;
    a round that is not over has neither; the current player has drawn
    exactly in the phase ACTION. *)
Definition coherent (g : Game.t) : Prop :=
  playing (Game.phase g)
  /\ hasCurrentPlayer g
  /\ (Game.phase g = Rules.GAME_OVER ->
      exists w c,
        Game.winner g = Some w /\ (w < length (Game.players g))%nat
        /\ Game.winCondition g = Some c
        /\ c <> Rules.INITIAL_TONK_DRAW)
  /\ (Game.phase g <> Rules.GAME_OVER ->
      Game.winner g = None /\ Game.winCondition g = None
      /\ (Game.hasDrawnThisTurn g = true <-> Game.phase g = Rules.ACTION)).


(** Among the players below position [i], [pw], at position [w], has the
    lowest points, and strictly lower points than anyone before it. *)
Definition firstLowest {P : Type} (points : P -> Z) (all : list P)
    (i w : nat) (pw : P) : Prop :=
  all !! w = Some pw
  /\ (forall j p, (j < i)%nat -> all !! j = Some p -> points pw <= points p)
  /\ (forall j p, (j < w)%nat -> all !! j = Some p -> points pw < points p).

(** Two cards that can come to lie in one spread: they have the same
    rank, or the same suit and rank indices one or two apart. *)
Definition near (c c' : Card.t) : Prop :=
  Card.rank c' = Card.rank c
  \/ (Card.suit c' = Card.suit c
      /\ (Z.abs (Card.getRankIndex c' - Card.getRankIndex c) = 1
          \/ Z.abs (Card.getRankIndex c' - Card.getRankIndex c) = 2)).

(** The card is in the hand, and at another position of the hand there is
    a card near it. *)
Definition partnered (hand : list Card.t) (c : Card.t) : Prop :=
  exists i j c',
    i <> j /\ hand !! i = Some c /\ hand !! j = Some c' /\ near c c'.

(** [a] and [b] follow each other in the sorted cards of a suit, and
    their rank indices are one or two apart. *)
Definition nearPair (sorted : list ComputerPlayer.HandCard)
    (a b : ComputerPlayer.HandCard) : Prop :=
  (exists l1 l2, sorted = l1 ++ a :: b :: l2)
  /\ (Card.getRankIndex (snd b) - Card.getRankIndex (snd a) = 1
      \/ Card.getRankIndex (snd b) - Card.getRankIndex (snd a) = 2).

(** The calls a game receives in play: the operations of a round, the
    bets, and what is done when a round is over. *)
Inductive Call :=
| CallOp (op : Game.Op)
| CallPlaceBet (player : nat) (amount : Z)
| CallAwardPot (winner : nat)
| CallApplyRoundScoring
| CallCheckMatchEnd.

(** The state in which a call leaves the game. *)
Definition call (c : Call) (g : Game.t) : option Game.t :=
  match c with
  | CallOp op => Game.exec op g
  | CallPlaceBet player amount =>
      Some (Game.stateOf (Game.placeBet player amount g))
  | CallAwardPot winner => Some (Game.stateOf (Game.awardPot winner g))
  | CallApplyRoundScoring => Some (Game.stateOf (Game.applyRoundScoring g))
  | CallCheckMatchEnd => Some (snd (Game.checkMatchEnd g))
  end.

(** A bet is placed with an amount that is not negative. *)
Definition fair (c : Call) : Prop :=
  match c with
  | CallPlaceBet _ amount => 0 <= amount
  | _ => True
  end.

(** The states produced from [initialize] by such calls. *)
Inductive Played : Game.t -> Prop :=
| played_init g0 env playerCount name g :
    Game.initialize env playerCount name g0 = Some g -> Played g
| played_step g c g' :
    Played g -> fair c -> call c g = Some g' -> Played g'.

(** Nobody is eliminated or in debt, the pot is not negative, and the
    chips in play are no more than the starting chips of the players. *)
Definition solvent (g : Game.t) : Prop :=
  Forall (fun p => Player.isEliminated p = false /\ 0 <= Player.chips p)
    (Game.players g)
  /\ 0 <= Game.pot g
  /\ Game.chipsInPlay g
     <= Rules.STARTING_CHIPS * Z.of_nat (length (Game.players g)).

(** The card [k] places below the top of the draw pile. *)
Definition fromTop (d : Deck.t) (k : nat) : option Card.t :=
  reverse (Deck.cards d) !! k.

End Spec.

(* ===================================================================== *)
(** * Part II: properties                                                 *)
(* ===================================================================== *)

(** ** Arrays *)

Section ArrayFacts.

Context {A : Type}.

Lemma pop_None (l : list A) : Array.pop l = None <-> l = [].
Proof.
  destruct l as [|x l]; simpl; [done|].
  destruct (Array.pop l) as [[r y]|]; split; done.
Qed.

Lemma pop_Some (l r : list A) (y : A) :
  Array.pop l = Some (r, y) <-> l = r ++ [y].
Proof.
  revert r y. induction l as [|x l IH]; intros r y; simpl.
  - split; [done|]. by destruct r.
  - destruct (Array.pop l) as [[r' y']|] eqn:E.
    + destruct (IH r' y') as [Hl' _]. specialize (Hl' eq_refl) as ->.
      clear IH E. split.
      * by intros [= <- <-].
      * destruct r as [|x' r]; simpl; intros [= -> Hl].
        { by destruct r'. }
        by apply app_inj_tail in Hl as [-> ->].
    + apply pop_None in E as ->. split.
      * by intros [= <- <-].
      * destruct r as [|x' r]; simpl; intros Hl; simplify_eq; [done|].
        by destruct r.
Qed.

Lemma pop_snoc (r : list A) (y : A) : Array.pop (r ++ [y]) = Some (r, y).
Proof. by apply pop_Some. Qed.

Lemma sum_by_from (f : A -> Z) (l : list A) (z : Z) :
  fold_left (fun sum x => sum + f x) l z = z + Array.sum_by f l.
Proof.
  unfold Array.sum_by. revert z.
  induction l as [|x l IH]; intros z; simpl; [lia|].
  rewrite (IH (z + f x)), (IH (0 + f x)). lia.
Qed.

Lemma sum_by_cons (f : A -> Z) (x : A) (l : list A) :
  Array.sum_by f (x :: l) = f x + Array.sum_by f l.
Proof. unfold Array.sum_by at 1. simpl. rewrite sum_by_from. lia. Qed.

Lemma sum_by_app (f : A -> Z) (l1 l2 : list A) :
  Array.sum_by f (l1 ++ l2) = Array.sum_by f l1 + Array.sum_by f l2.
Proof.
  induction l1 as [|x l1 IH]; simpl; [done|].
  rewrite !sum_by_cons, IH. lia.
Qed.

Lemma findIndex_Some (f : A -> bool) (l : list A) (i : nat) :
  Array.findIndex f l = Some i ->
  exists x, l !! i = Some x /\ f x = true.
Proof.
  revert i. induction l as [|x l IH]; intros i; simpl; [done|].
  destruct (f x) eqn:Hx.
  - intros [= <-]. eauto.
  - destruct (Array.findIndex f l) as [j|]; simpl; [|done].
    intros [= <-]. by apply IH.
Qed.

Lemma findIndex_None (f : A -> bool) (l : list A) :
  Array.findIndex f l = None -> forall x, x ∈ l -> f x = false.
Proof.
  induction l as [|y l IH]; simpl; intros Hf x Hx.
  - by apply elem_of_nil in Hx.
  - destruct (f y) eqn:Hy; [done|].
    destruct (Array.findIndex f l); [done|].
    apply elem_of_cons in Hx as [->|Hx]; auto.
Qed.

(** Sorting keeps the elements and puts the keys in ascending order. *)

Variable key : A -> Z.

Lemma insert_by_perm (x : A) (l : list A) :
  Array.insert_by key x l ≡ₚ x :: l.
Proof.
  induction l as [|y l IH]; simpl; [done|].
  destruct (key x <=? key y); [done|].
  rewrite IH. apply Permutation_swap.
Qed.

Lemma sort_by_perm (l : list A) : Array.sort_by key l ≡ₚ l.
Proof.
  induction l as [|x l IH]; simpl; [done|].
  by rewrite insert_by_perm, IH.
Qed.

Lemma sort_by_length (l : list A) :
  length (Array.sort_by key l) = length l.
Proof. by rewrite sort_by_perm. Qed.

Lemma insert_by_sorted (x : A) (l : list A) :
  StronglySorted Z.le (map key l) ->
  StronglySorted Z.le (map key (Array.insert_by key x l)).
Proof.
  induction l as [|y l IH]; simpl; intros Hs.
  - repeat constructor.
  - apply StronglySorted_inv in Hs as [Hs Hy].
    destruct (key x <=? key y) eqn:E; simpl.
    + apply Z.leb_le in E. constructor; [by constructor|].
      constructor; [done|].
      eapply Forall_impl; [exact Hy|]. simpl. lia.
    + apply Z.leb_gt in E. constructor; [by apply IH|].
      rewrite insert_by_perm. simpl. constructor; [lia|done].
Qed.

Lemma sort_by_sorted (l : list A) :
  StronglySorted Z.le (map key (Array.sort_by key l)).
Proof.
  induction l as [|x l IH]; simpl; [constructor|].
  by apply insert_by_sorted.
Qed.

End ArrayFacts.

(** Two ascending lists of integers with the same elements are equal. *)
Lemma sorted_perm_eq (l1 l2 : list Z) :
  StronglySorted Z.le l1 -> StronglySorted Z.le l2 -> l1 ≡ₚ l2 -> l1 = l2.
Proof.
  intros H1 H2 Hp.
  assert (AntiSymm (=) Z.le) by (intros x y ??; lia).
  by apply (StronglySorted_unique Z.le).
Qed.

(** ** Spreads *)

Section SpreadFacts.

Import Spec.

Lemma progression_length lo n : length (progression lo n) = n.
Proof. unfold progression. by rewrite length_map, length_seq. Qed.

Lemma progression_S lo n :
  progression lo (S n) = lo :: progression (lo + 1) n.
Proof.
  unfold progression. simpl. f_equal; [f_equal; lia|].
  rewrite <- seq_shift, map_map. apply map_ext. intros k. lia.
Qed.

Lemma progression_snoc lo n :
  progression lo (S n) = progression lo n ++ [lo + Z.of_nat n].
Proof. unfold progression. by rewrite seq_S, map_app. Qed.

Lemma elem_of_progression lo n x :
  x ∈ progression lo n <-> lo <= x < lo + Z.of_nat n.
Proof.
  unfold progression. rewrite list_elem_of_fmap. split.
  - intros (k & -> & Hk). apply elem_of_seq in Hk. lia.
  - intros Hx. exists (Z.to_nat (x - lo)). split; [lia|].
    apply elem_of_seq. lia.
Qed.

Lemma progression_sorted lo n : StronglySorted Z.le (progression lo n).
Proof.
  revert lo. induction n as [|n IH]; intros lo.
  - constructor.
  - rewrite progression_S. constructor; [apply IH|].
    apply Forall_forall. intros x Hx. apply elem_of_progression in Hx. lia.
Qed.

(** The loop of [isValidRun] accepts exactly the arrays whose rank indices
    go up by one from the first card on. *)
Lemma consecutive_progression (c : Card.t) (l : list Card.t) :
  Spread.consecutive (c :: l) = true <->
  map Card.getRankIndex (c :: l)
  = progression (Card.getRankIndex c) (S (length l)).
Proof.
  revert c. induction l as [|d l IH]; intros c.
  - simpl. unfold progression. simpl. split; [|done].
    intros _. f_equal. lia.
  - change (Spread.consecutive (c :: d :: l))
      with (if bool_decide (Card.getRankIndex d <> Card.getRankIndex c + 1)
            then false else Spread.consecutive (d :: l)).
    rewrite progression_S. simpl length. case_bool_decide as Hd.
    + split; [done|]. intros [= Hd' _]. lia.
    + rewrite IH, <- Hd. split.
      * intros Hl. change (map Card.getRankIndex (c :: d :: l))
          with (Card.getRankIndex c :: map Card.getRankIndex (d :: l)).
        by rewrite Hl.
      * intros Hl.
        change (map Card.getRankIndex (c :: d :: l))
          with (Card.getRankIndex c :: map Card.getRankIndex (d :: l)) in Hl.
        congruence.
Qed.

Lemma isValidBook_iff (cards : list Card.t) :
  Spread.isValidBook cards = true <->
  (3 <= length cards <= 4)%nat /\ uniformRank cards.
Proof.
  unfold Spread.isValidBook, Rules.MIN_SPREAD_SIZE.
  destruct (Nat.ltb_spec (length cards) 3) as [Hlt|Hge].
  { split; [done|]. lia. }
  destruct (Nat.ltb_spec 4 (length cards)) as [Hgt|Hle].
  { split; [done|]. lia. }
  destruct cards as [|c0 cards]; [simpl in Hge; lia|].
  rewrite forallb_forall. split.
  - intros Hall. split; [lia|]. intros c1 c2 H1 H2.
    apply list_elem_of_In, Hall, bool_decide_eq_true in H1.
    apply list_elem_of_In, Hall, bool_decide_eq_true in H2. congruence.
  - intros [_ Hu] c Hc. apply bool_decide_eq_true.
    apply Hu; [by apply list_elem_of_In|]. apply list_elem_of_here.
Qed.

(** The sorted copy made by [isValidRun] is consecutive exactly when the
    ranks are contiguous. *)
Lemma consecutive_sortByRank (cards : list Card.t) :
  cards <> [] ->
  Spread.consecutive (Spread.sortByRank cards) = true <->
  contiguousRanks cards.
Proof.
  intros Hne. unfold Spread.sortByRank.
  pose proof (sort_by_perm Card.getRankIndex cards) as Hperm.
  pose proof (sort_by_sorted Card.getRankIndex cards) as Hsorted.
  destruct (Array.sort_by Card.getRankIndex cards) as [|c l] eqn:E.
  { apply Permutation_nil_l in Hperm. congruence. }
  rewrite consecutive_progression. split.
  - intros Hl. exists (Card.getRankIndex c).
    by rewrite <- Hperm, Hl.
  - intros [lo Hlo].
    assert (map Card.getRankIndex (c :: l) = progression lo (S (length l)))
      as Heq.
    { apply sorted_perm_eq; [done|apply progression_sorted|].
      rewrite Hperm, Hlo. by rewrite <- (Permutation_length Hperm). }
    rewrite Heq. f_equal. rewrite progression_S in Heq. by injection Heq.
Qed.

Lemma isValidRun_iff (cards : list Card.t) :
  Spread.isValidRun cards = true <->
  (3 <= length cards)%nat /\ uniformSuit cards /\ contiguousRanks cards.
Proof.
  unfold Spread.isValidRun, Rules.MIN_SPREAD_SIZE.
  destruct (Nat.ltb_spec (length cards) 3) as [Hlt|Hge].
  { split; [done|]. lia. }
  destruct cards as [|c0 cards]; [simpl in Hge; lia|].
  destruct (forallb _ (c0 :: cards)) eqn:Hall; simpl.
  - rewrite forallb_forall in Hall.
    assert (uniformSuit (c0 :: cards)) as Hu.
    { intros c1 c2 H1 H2.
      apply list_elem_of_In, Hall, bool_decide_eq_true in H1.
      apply list_elem_of_In, Hall, bool_decide_eq_true in H2. congruence. }
    rewrite consecutive_sortByRank by done. tauto.
  - split; [done|]. intros (_ & Hu & _).
    apply not_true_iff_false in Hall. destruct Hall.
    apply forallb_forall. intros c Hc. apply bool_decide_eq_true.
    apply Hu; [by apply list_elem_of_In|]. apply list_elem_of_here.
Qed.

(** Cards of one rank cannot have contiguous ranks, unless there is at
    most one of them. *)
Lemma uniformRank_not_contiguous (cards : list Card.t) :
  (2 <= length cards)%nat -> uniformRank cards -> ~ contiguousRanks cards.
Proof.
  intros Hlen Hu [lo Hlo].
  assert (lo ∈ map Card.getRankIndex cards) as H0.
  { rewrite Hlo. apply elem_of_progression. lia. }
  assert (lo + 1 ∈ map Card.getRankIndex cards) as H1.
  { rewrite Hlo. apply elem_of_progression. lia. }
  apply list_elem_of_fmap in H0 as (c0 & E0 & Hc0).
  apply list_elem_of_fmap in H1 as (c1 & E1 & Hc1).
  unfold Card.getRankIndex in E0, E1. rewrite (Hu c0 c1) in E0 by done. lia.
Qed.

Lemma validate_valid (cards : list Card.t) :
  Spread.valid (Spread.validate cards) = true <->
  Spread.isValidBook cards = true \/ Spread.isValidRun cards = true.
Proof.
  unfold Spread.validate.
  destruct (Spread.isValidBook cards), (Spread.isValidRun cards); simpl;
    intuition congruence.
Qed.

End SpreadFacts.

Section SpreadEnds.

Import Spec.

Lemma lowestIndex_unique cards a b :
  lowestIndex cards a -> lowestIndex cards b -> a = b.
Proof. intros [Ha Ha'] [Hb Hb']. apply Ha' in Hb. apply Hb' in Ha. lia. Qed.

Lemma highestIndex_unique cards a b :
  highestIndex cards a -> highestIndex cards b -> a = b.
Proof. intros [Ha Ha'] [Hb Hb']. apply Ha' in Hb. apply Hb' in Ha. lia. Qed.

Lemma sorted_head_le (l : list Z) (x : Z) :
  StronglySorted Z.le l -> head l = Some x -> forall y, y ∈ l -> x <= y.
Proof.
  destruct l as [|z l]; [done|]. intros Hs [= ->] y Hy.
  apply StronglySorted_inv in Hs as [_ Hz].
  apply elem_of_cons in Hy as [->|Hy]; [lia|].
  by apply (proj1 (Forall_forall _ _) Hz).
Qed.

Lemma sorted_last_ge (l : list Z) (x : Z) :
  StronglySorted Z.le l -> last l = Some x -> forall y, y ∈ l -> y <= x.
Proof.
  induction l as [|z l IH]; [done|]. intros Hs Hlast y Hy.
  apply StronglySorted_inv in Hs as [Hs Hz].
  destruct l as [|z' l].
  - injection Hlast as <-. apply list_elem_of_singleton in Hy. lia.
  - change (last (z :: z' :: l)) with (last (z' :: l)) in Hlast.
    apply elem_of_cons in Hy as [->|Hy]; [|by apply IH].
    assert (x ∈ z' :: l) as Hx.
    { by apply last_Some_elem_of. }
    by apply (proj1 (Forall_forall _ _) Hz).
Qed.

(** The first and the last card of the sorted copy carry the lowest and
    the highest rank index of the spread. *)
Lemma sortByRank_ends (cards : list Card.t) :
  cards <> [] ->
  exists lo hi,
    head (Spread.sortByRank cards) = Some lo
    /\ last (Spread.sortByRank cards) = Some hi
    /\ lowestIndex cards (Card.getRankIndex lo)
    /\ highestIndex cards (Card.getRankIndex hi).
Proof.
  intros Hne. unfold Spread.sortByRank.
  pose proof (sort_by_perm Card.getRankIndex cards) as Hperm.
  pose proof (sort_by_sorted Card.getRankIndex cards) as Hsorted.
  set (sorted := Array.sort_by Card.getRankIndex cards) in *.
  assert (sorted <> []) as Hne'.
  { intros E. rewrite E in Hperm. by apply Permutation_nil_l in Hperm. }
  destruct (head sorted) as [lo|] eqn:Hlo;
    [|by apply head_None in Hlo].
  destruct (last sorted) as [hi|] eqn:Hhi;
    [|by apply last_None in Hhi].
  exists lo, hi. repeat split; try done.
  - rewrite <- Hperm. apply list_elem_of_fmap. exists lo. split; [done|].
    by apply head_Some_elem_of.
  - intros x Hx. rewrite <- Hperm in Hx.
    apply (sorted_head_le _ _ Hsorted); [|done].
    apply head_Some in Hlo as [rest E]. by rewrite E.
  - rewrite <- Hperm. apply list_elem_of_fmap. exists hi. split; [done|].
    by apply last_Some_elem_of.
  - intros x Hx. rewrite <- Hperm in Hx.
    apply (sorted_last_ge _ _ Hsorted); [|done].
    by rewrite fmap_last, Hhi.
Qed.

Lemma laid_nonempty (s : Spread.t) : laid s -> Spread.cards s <> [].
Proof.
  unfold laid. destruct (Spread.type s), (Spread.cards s); simpl;
    intros H; try done; lia.
Qed.

End SpreadEnds.

Section SpreadRules.

Import Spec.

Lemma validate_invalid (cards : list Card.t) :
  Spread.valid (Spread.validate cards) = false ->
  Spread.validate cards = invalid.
Proof.
  unfold Spread.validate.
  by destruct (Spread.isValidBook cards), (Spread.isValidRun cards).
Qed.

Lemma validate_not (cards : list Card.t) :
  ~ ((3 <= length cards <= 4)%nat /\ uniformRank cards) ->
  ~ ((3 <= length cards)%nat /\ uniformSuit cards /\ contiguousRanks cards) ->
  Spread.validate cards = invalid.
Proof.
  intros Hb Hr. apply validate_invalid, not_true_iff_false.
  rewrite validate_valid, isValidBook_iff, isValidRun_iff. tauto.
Qed.

(** C6: [Spread.validate] answers [{valid: false, type: null}] for every
    set of fewer than 3 cards, for every set that is neither of one rank
    nor of one suit with contiguous rank indices (the set 4♠ 5♠ 7♠ among
    them), and for every set of one rank with 5 or more cards; and no set
    passes both [isValidBook] and [isValidRun]. *)
Theorem validate_rejects (cards : list Card.t) :
  ((length cards < 3)%nat -> Spread.validate cards = invalid)
  /\ (~ uniformRank cards ->
      ~ (uniformSuit cards /\ contiguousRanks cards) ->
      Spread.validate cards = invalid)
  /\ (uniformRank cards -> (5 <= length cards)%nat ->
      Spread.validate cards = invalid)
  /\ ~ (Spread.isValidBook cards = true /\ Spread.isValidRun cards = true)
  /\ Spread.validate Demo.gapped = invalid.
Proof.
  split; [|split; [|split; [|split]]].
  - intros Hlen. apply validate_not; lia.
  - intros Hr Hs. apply validate_not; tauto.
  - intros Hu Hlen. apply validate_not; [lia|].
    intros (_ & _ & Hc). revert Hc.
    apply uniformRank_not_contiguous; [lia|done].
  - rewrite isValidBook_iff, isValidRun_iff.
    intros [[Hlen Hu] (_ & _ & Hc)]. revert Hc.
    apply uniformRank_not_contiguous; [lia|done].
  - reflexivity.
Qed.

Lemma validate_rejects_witness :
  Spread.validate [Demo.card Card.R4 Card.spades; Demo.card Card.R5 Card.spades]
  = invalid
  /\ Spread.validate Demo.gapped = invalid
  /\ Spread.validate Demo.fiveSevens = invalid.
Proof.
  split; [|split].
  - destruct (validate_rejects
                [Demo.card Card.R4 Card.spades; Demo.card Card.R5 Card.spades])
      as (Hshort & _).
    apply Hshort. simpl. lia.
  - destruct (validate_rejects Demo.gapped) as (_ & Hneither & _).
    apply Hneither.
    + intros Hu.
      specialize (Hu (Demo.card Card.R4 Card.spades)
                     (Demo.card Card.R5 Card.spades)).
      assert (Card.R4 = Card.R5) as E; [|discriminate E].
      apply Hu; unfold Demo.gapped; rewrite !elem_of_cons; tauto.
    + intros [_ [lo Hlo]].
      assert (3 ∈ progression lo 3) as H3.
      { rewrite <- Hlo. unfold Demo.gapped. simpl.
        rewrite !elem_of_cons. tauto. }
      assert (6 ∈ progression lo 3) as H6.
      { rewrite <- Hlo. unfold Demo.gapped. simpl.
        rewrite !elem_of_cons. tauto. }
      apply elem_of_progression in H3, H6. lia.
  - destruct (validate_rejects Demo.fiveSevens) as (_ & _ & Hfive & _).
    apply Hfive; [|simpl; lia].
    intros c1 c2 H1 H2. unfold Demo.fiveSevens in *.
    rewrite !elem_of_cons, elem_of_nil in H1, H2.
    destruct H1 as [->|[->|[->|[->|[->|[]]]]]];
      destruct H2 as [->|[->|[->|[->|[->|[]]]]]]; reflexivity.
Defined.

(** [canAddToBook] on cards of one rank. *)
Lemma canAddToBook_spec (s : Spread.t) (card : Card.t) :
  Spread.cards s <> [] -> uniformRank (Spread.cards s) ->
  exists b, Spread.canAddToBook s card = Some b /\
    (b = true <->
     (length (Spread.cards s) < 4)%nat
     /\ (forall c, c ∈ Spread.cards s -> Card.rank card = Card.rank c)).
Proof.
  intros Hne Hu. unfold Spread.canAddToBook.
  destruct (Spread.cards s) as [|c0 cards] eqn:E; [done|].
  destruct (Nat.leb_spec 4 (length (c0 :: cards))) as [H4|H4].
  - exists false. split; [done|]. split; [done|]. lia.
  - eexists. split; [done|]. rewrite bool_decide_eq_true. split.
    + intros Hr. split; [lia|]. intros c Hc. rewrite Hr.
      apply Hu; [apply list_elem_of_here|done].
    + intros [_ H]. apply H, list_elem_of_here.
Qed.

(** [canAddToRun] on cards of one suit. *)
Lemma canAddToRun_spec (s : Spread.t) (card : Card.t) :
  Spread.cards s <> [] -> uniformSuit (Spread.cards s) ->
  exists b, Spread.canAddToRun s card = Some b /\
    (b = true <->
     (forall c, c ∈ Spread.cards s -> Card.suit card = Card.suit c)
     /\ exists lo hi,
          lowestIndex (Spread.cards s) lo
          /\ highestIndex (Spread.cards s) hi
          /\ (Card.getRankIndex card = lo - 1
              \/ Card.getRankIndex card = hi + 1)).
Proof.
  intros Hne Hu. unfold Spread.canAddToRun.
  destruct (Spread.cards s) as [|c0 cards] eqn:E; [done|].
  case_bool_decide as Hsuit.
  - exists false. split; [done|]. split; [done|].
    intros [H _]. destruct Hsuit. apply H, list_elem_of_here.
  - destruct (sortByRank_ends (c0 :: cards) Hne)
      as (lo & hi & -> & -> & Hlo & Hhi).
    eexists. split; [done|].
    rewrite orb_true_iff, !bool_decide_eq_true. split.
    + intros Hor. split.
      { intros c Hc. rewrite Hsuit.
        apply Hu; [apply list_elem_of_here|done]. }
      by exists (Card.getRankIndex lo), (Card.getRankIndex hi).
    + intros (_ & lo' & hi' & Hlo' & Hhi' & Hor).
      by rewrite (lowestIndex_unique _ _ _ Hlo Hlo'),
                 (highestIndex_unique _ _ _ Hhi Hhi').
Qed.

(** C7: for a spread on the table, [canAddCard] answers, and the answer is
    [true] for a book exactly when it has fewer than 4 cards and the card
    has the rank of the book, and for a run exactly when the card has the
    suit of the run and its rank index is the lowest rank index of the run
    minus 1 or the highest plus 1. *)
Theorem canAddCard_laid (s : Spread.t) (card : Card.t) :
  laid s ->
  exists b, Spread.canAddCard s card = Some b /\
    (b = true <->
     match Spread.type s with
     | Spread.book =>
         (length (Spread.cards s) < 4)%nat
         /\ (forall c, c ∈ Spread.cards s -> Card.rank card = Card.rank c)
     | Spread.run =>
         (forall c, c ∈ Spread.cards s -> Card.suit card = Card.suit c)
         /\ exists lo hi,
              lowestIndex (Spread.cards s) lo
              /\ highestIndex (Spread.cards s) hi
              /\ (Card.getRankIndex card = lo - 1
                  \/ Card.getRankIndex card = hi + 1)
     end).
Proof.
  intros Hlaid. pose proof (laid_nonempty s Hlaid) as Hne.
  unfold laid in Hlaid. unfold Spread.canAddCard.
  destruct (Spread.type s).
  - destruct Hlaid as [_ Hu]. by apply canAddToBook_spec.
  - destruct Hlaid as (_ & Hu & _). by apply canAddToRun_spec.
Qed.

Lemma run567_laid : laid Demo.run567.
Proof.
  unfold laid. simpl. split; [lia|]. split.
  - intros c1 c2 H1 H2. rewrite !elem_of_cons, elem_of_nil in H1, H2.
    destruct H1 as [->|[->|[->|[]]]]; destruct H2 as [->|[->|[->|[]]]];
      reflexivity.
  - by exists 4.
Qed.

Lemma canAddCard_laid_witness :
  laid Demo.run567
  /\ Spread.canAddCard Demo.run567 (Demo.card Card.R4 Card.spades) = Some true
  /\ Spread.canAddCard Demo.run567 (Demo.card Card.R8 Card.spades) = Some true
  /\ Spread.canAddCard Demo.run567 (Demo.card Card.R6 Card.hearts) = Some false
  /\ Spread.canAddCard Demo.run567 (Demo.card Card.R9 Card.spades) = Some false.
Proof.
  split; [exact run567_laid|].
  assert (lowestIndex (Spread.cards Demo.run567) 4) as Hlo.
  { split; unfold Demo.run567, Demo.card, Card.getRankIndex; simpl; intros;
      rewrite !elem_of_cons, elem_of_nil in *; lia. }
  assert (highestIndex (Spread.cards Demo.run567) 6) as Hhi.
  { split; unfold Demo.run567, Demo.card, Card.getRankIndex; simpl; intros;
      rewrite !elem_of_cons, elem_of_nil in *; lia. }
  assert (forall card b,
    (b = true <->
     (forall c, c ∈ Spread.cards Demo.run567 -> Card.suit card = Card.suit c)
     /\ exists lo hi,
          lowestIndex (Spread.cards Demo.run567) lo
          /\ highestIndex (Spread.cards Demo.run567) hi
          /\ (Card.getRankIndex card = lo - 1
              \/ Card.getRankIndex card = hi + 1)) ->
    b = bool_decide (Card.suit card = Card.spades)
        && (bool_decide (Card.getRankIndex card = 3)
            || bool_decide (Card.getRankIndex card = 7))) as Hdec.
  { intros card b Hb. apply eq_true_iff_eq. rewrite Hb.
    rewrite andb_true_iff, orb_true_iff, !bool_decide_eq_true. split.
    - intros (Hs & lo & hi & Hlo' & Hhi' & Hor).
      rewrite <- (lowestIndex_unique _ _ _ Hlo Hlo') in Hor.
      rewrite <- (highestIndex_unique _ _ _ Hhi Hhi') in Hor.
      split; [|lia]. apply (Hs (Demo.card Card.R5 Card.spades)).
      apply list_elem_of_here.
    - intros [Hs Hor]. split.
      + intros c Hc. simpl in Hc. rewrite !elem_of_cons, elem_of_nil in Hc.
        destruct Hc as [->|[->|[->|[]]]]; exact Hs.
      + exists 4, 6. repeat split; try apply Hlo; try apply Hhi. lia. }
  split; [|split; [|split]].
  - destruct (canAddCard_laid Demo.run567 (Demo.card Card.R4 Card.spades)
                run567_laid) as (b & -> & Hb).
    by rewrite (Hdec _ _ Hb).
  - destruct (canAddCard_laid Demo.run567 (Demo.card Card.R8 Card.spades)
                run567_laid) as (b & -> & Hb).
    by rewrite (Hdec _ _ Hb).
  - destruct (canAddCard_laid Demo.run567 (Demo.card Card.R6 Card.hearts)
                run567_laid) as (b & -> & Hb).
    by rewrite (Hdec _ _ Hb).
  - destruct (canAddCard_laid Demo.run567 (Demo.card Card.R9 Card.spades)
                run567_laid) as (b & -> & Hb).
    by rewrite (Hdec _ _ Hb).
Defined.

End SpreadRules.

(** ** The computer player *)

(** C9: [shouldKnock] answers [true] whenever the hand is worth at most 3
    points; for 4 or 5 points it answers [true] exactly when
    [findPossibleSpreads] finds no candidate in the hand or the hand has at
    most 2 cards; above 5 points it answers [false]. *)
Theorem shouldKnock_spec (p : Player.t) :
  (Player.calculatePoints p <= 3 -> ComputerPlayer.shouldKnock p = true)
  /\ (4 <= Player.calculatePoints p <= 5 ->
      (ComputerPlayer.shouldKnock p = true <->
       length (Spread.findPossibleSpreads (Player.hand p)) = 0%nat
       \/ (length (Player.hand p) <= 2)%nat))
  /\ (5 < Player.calculatePoints p -> ComputerPlayer.shouldKnock p = false).
Proof.
  unfold ComputerPlayer.shouldKnock, ComputerPlayer.countSpreadPotential.
  destruct (Z.leb_spec (Player.calculatePoints p) 3) as [H3|H3];
    [repeat split; intros; try done; try lia; by left|].
  destruct (Z.leb_spec (Player.calculatePoints p) 5) as [H5|H5];
    [|repeat split; intros; try done; lia].
  split; [lia|]. split; [|lia]. intros _.
  destruct (bool_decide _ || _) eqn:E.
  - split; [|done]. intros _.
    apply orb_true_iff in E as [E|E].
    + left. by apply bool_decide_eq_true in E.
    + right. by apply Nat.leb_le in E.
  - split; [done|]. apply orb_false_iff in E as [E1 E2].
    apply bool_decide_eq_false in E1. apply Nat.leb_gt in E2.
    intros [?|?]; [done|lia].
Qed.

Lemma shouldKnock_spec_witness :
  let withHand h := Player.set_hand h (ComputerPlayer.new "id" "Alex" "medium") in
  ComputerPlayer.shouldKnock
    (withHand [Demo.card Card.RA Card.hearts; Demo.card Card.R2 Card.hearts])
  = true
  /\ ComputerPlayer.shouldKnock
       (withHand [Demo.card Card.RA Card.hearts; Demo.card Card.RA Card.clubs;
                  Demo.card Card.RA Card.spades; Demo.card Card.R2 Card.hearts])
     <> true
  /\ ComputerPlayer.shouldKnock
       (withHand [Demo.card Card.R3 Card.hearts; Demo.card Card.R3 Card.spades])
     = false.
Proof.
  intros withHand. split; [|split].
  - destruct (shouldKnock_spec
                (withHand [Demo.card Card.RA Card.hearts;
                           Demo.card Card.R2 Card.hearts])) as (Hlow & _).
    apply Hlow. by vm_compute.
  - destruct (shouldKnock_spec
                (withHand [Demo.card Card.RA Card.hearts;
                           Demo.card Card.RA Card.clubs;
                           Demo.card Card.RA Card.spades;
                           Demo.card Card.R2 Card.hearts])) as (_ & Hmid & _).
    rewrite Hmid by (by vm_compute).
    vm_compute. intros [E|E]; [discriminate E|lia].
  - destruct (shouldKnock_spec
                (withHand [Demo.card Card.R3 Card.hearts;
                           Demo.card Card.R3 Card.spades])) as (_ & _ & Hhigh).
    apply Hhigh. by vm_compute.
Defined.

(** ** Knocking and the empty stock *)

Section LowestPoints.

Import Rules Spec.

Lemma drop_cons_inv {A} (l : list A) (i : nat) (x : A) (l' : list A) :
  drop i l = x :: l' -> l !! i = Some x /\ drop (S i) l = l'.
Proof.
  revert i. induction l as [|y l IH]; intros [|i]; simpl; try done.
  - intros [= -> ->]. split; [done|]. by rewrite drop_0.
  - apply IH.
Qed.

Lemma knockLoop_inv (all : list Player.t) (k : nat) (ps : list Player.t) :
  forall i lp lpts,
    drop i all = ps ->
    knockInv all i k lp lpts ->
    knockInv all (length all) k
      (fst (Game.knockLoop ps i k lp lpts))
      (snd (Game.knockLoop ps i k lp lpts)).
Proof.
  induction ps as [|p ps IH]; intros i lp lpts Hdrop Hinv.
  - simpl. apply drop_nil_inv in Hdrop.
    unfold knockInv in *. destruct lp as [w|], lpts as [m|]; try done.
    + destruct Hinv as (Hw & Hpw & Hle & Hlt). repeat split; try done.
      intros j q Hj Hq. apply Hle; [lia|done].
    + intros j Hj _. apply Hinv; lia.
  - apply drop_cons_inv in Hdrop as [Hi Hdrop]. simpl.
    assert (i < length all)%nat as Hilen by (by eapply lookup_lt_Some).
    case_bool_decide as Hik.
    + destruct lpts as [m|].
      * destruct lp as [w|]; [|done].
        destruct Hinv as (Hw & (pw & Hpw & Hm) & Hle & Hlt).
        destruct (Z.ltb_spec (Player.calculatePoints p) m) as [Hlow|Hhigh].
        -- apply IH; [done|]. repeat split; try done; [by exists p| |].
           ++ intros j q Hj Hq Hjk.
              destruct (decide (j = i)) as [->|Hne]; [by simplify_eq|].
              assert (m <= Player.calculatePoints q) by (apply (Hle j); [lia|done..]). lia.
           ++ intros j q Hj Hq Hjk.
              assert (m <= Player.calculatePoints q) by (by apply (Hle j)). lia.
        -- apply IH; [done|]. repeat split; try done; [by exists pw|].
           intros j q Hj Hq Hjk.
           destruct (decide (j = i)) as [->|Hne]; [by simplify_eq|].
           apply (Hle j); [lia|done..].
      * destruct lp as [w|]; [done|].
        apply IH; [done|]. repeat split; try done; [by exists p| |].
        -- intros j q Hj Hq Hjk.
           destruct (decide (j = i)) as [->|Hne]; [by simplify_eq|].
           destruct Hjk. apply Hinv; [lia|by eapply lookup_lt_Some].
        -- intros j q Hj Hq Hjk. destruct Hjk.
           apply Hinv; [lia|by eapply lookup_lt_Some].
    + apply IH; [done|].
      unfold knockInv in *. destruct lp as [w|], lpts as [m|]; try done.
      * destruct Hinv as (Hw & Hpw & Hle & Hlt). repeat split; try done.
        intros j q Hj Hq Hjk. apply (Hle j); [lia|done..].
      * intros j Hj Hjl.
        destruct (decide (j = i)) as [->|Hne]; [done|]. apply Hinv; lia.
Qed.

Lemma lowestLoop_inv (all : list Player.t) (ps : list Player.t) :
  forall i w m,
    drop i all = ps ->
    lowestInv all i w m ->
    exists m', lowestInv all (length all) (Game.lowestLoop ps i w m) m'.
Proof.
  induction ps as [|p ps IH]; intros i w m Hdrop Hinv.
  - simpl. apply drop_nil_inv in Hdrop. exists m.
    destruct Hinv as (Hpw & Hle & Hlt). repeat split; try done.
    intros j q Hj Hq. apply (Hle j); [lia|done].
  - apply drop_cons_inv in Hdrop as [Hi Hdrop]. simpl.
    destruct Hinv as ((pw & Hpw & Hm) & Hle & Hlt).
    destruct (Z.ltb_spec (Player.calculatePoints p) m) as [Hlow|Hhigh].
    + apply IH; [done|]. repeat split; [by exists p| |].
      * intros j q Hj Hq.
        destruct (decide (j = i)) as [->|Hne]; [by simplify_eq|].
        assert (m <= Player.calculatePoints q) by (apply (Hle j); [lia|done]). lia.
      * intros j q Hj Hq.
        assert (m <= Player.calculatePoints q) by (by apply (Hle j)). lia.
    + apply IH; [done|]. repeat split; [by exists pw| |done].
      intros j q Hj Hq.
      destruct (decide (j = i)) as [->|Hne]; [by simplify_eq|].
      apply (Hle j); [lia|done].
Qed.

End LowestPoints.

Section RoundEnd.

Import Rules Spec.

Lemma knockLoop_result (all : list Player.t) (k : nat) :
  knockInv all (length all) k
    (fst (Game.knockLoop all 0 k None None))
    (snd (Game.knockLoop all 0 k None None)).
Proof. apply knockLoop_inv; [done|]. simpl. lia. Qed.

(** C3: [knock] in the phase START_OF_TURN returns with the phase
    GAME_OVER.  The outcome is KNOCK with the knocker as winner exactly
    when the knocker has strictly fewer points than every other player;
    otherwise it is CAUGHT, and the winner is another player whose points
    are the lowest among the others, the first such player in seat
    order. *)
Theorem knock_resolution (g : Game.t) (knocker : Player.t) :
  Game.phase g = START_OF_TURN ->
  Game.getCurrentPlayer g = Some knocker ->
  let k := Game.currentPlayerIndex g in
  let lower :=
    forall j p, Game.players g !! j = Some p -> j <> k ->
                Player.calculatePoints knocker < Player.calculatePoints p in
  exists g',
    Game.knock g = Game.Ok () g'
    /\ Game.phase g' = GAME_OVER
    /\ ((Game.winCondition g' = Some KNOCK /\ Game.winner g' = Some k)
        <-> lower)
    /\ (~ lower ->
        Game.winCondition g' = Some CAUGHT
        /\ exists w pw,
             Game.winner g' = Some w /\ w <> k
             /\ Game.players g !! w = Some pw
             /\ (forall j p, Game.players g !! j = Some p -> j <> k ->
                   Player.calculatePoints pw <= Player.calculatePoints p)
             /\ (forall j p, Game.players g !! j = Some p -> j <> k ->
                   (j < w)%nat ->
                   Player.calculatePoints pw < Player.calculatePoints p)).
Proof.
  intros Hphase Hcur k lower. unfold Game.knock.
  rewrite Hphase, Hcur. rewrite bool_decide_eq_false_2 by (by intros H).
  pose proof (knockLoop_result (Game.players g) k) as Hinv. fold k.
  destruct (Game.knockLoop (Game.players g) 0 k None None) as [lp lpts].
  unfold knockInv in Hinv. simpl in Hinv.
  destruct lp as [w|], lpts as [m|]; try done.
  - destruct Hinv as (Hw & (pw & Hpw & Hm) & Hle & Hlt).
    destruct (Z.ltb_spec (Player.calculatePoints knocker) m) as [Hlow|Hhigh].
    + eexists. split; [done|]. split; [done|]. simpl.
      assert lower as Hlower.
      { intros j p Hp Hj.
        assert (m <= Player.calculatePoints p); [|lia].
        apply (Hle j); [by eapply lookup_lt_Some|done..]. }
      split; [done|]. by intros [].
    + eexists. split; [done|]. split; [done|]. simpl.
      assert (~ lower) as Hnot.
      { intros Hl. specialize (Hl w pw Hpw Hw). lia. }
      split; [split; [by intros [[=] _]|done]|].
      intros _. split; [done|]. exists w, pw. subst m.
      repeat split; try done.
      * intros j p Hp Hj. apply (Hle j); [by eapply lookup_lt_Some|done..].
      * intros j p Hp Hj Hjw. by apply (Hlt j).
  - eexists. split; [done|]. split; [done|]. simpl.
    assert lower as Hlower.
    { intros j p Hp Hj. destruct Hj.
      apply Hinv; by eapply lookup_lt_Some. }
    split; [done|]. by intros [].
Qed.

Lemma knock_resolution_witness :
  exists g',
    Game.knock Demo.tiedKnock = Game.Ok () g'
    /\ Game.phase g' = GAME_OVER
    /\ Game.winCondition g' = Some CAUGHT
    /\ Game.winner g' = Some 1%nat.
Proof.
  destruct (knock_resolution Demo.tiedKnock
              (Demo.seat 0 [Demo.card Card.R5 Card.hearts])
              eq_refl eq_refl)
    as (g' & Hknock & Hphase & _ & Hcaught).
  exists g'. split; [done|]. split; [done|].
  destruct Hcaught as (Hc & w & pw & Hw & Hne & Hpw & _).
  { intros Hlower.
    specialize (Hlower 1%nat (Demo.seat 1 [Demo.card Card.R5 Card.spades])
                  eq_refl).
    vm_compute in Hlower.
    assert (Eq = Lt) as E by (apply Hlower; discriminate). discriminate E. }
  split; [done|]. rewrite Hw. f_equal.
  apply lookup_lt_Some in Hpw. simpl in Hpw, Hne. lia.
Defined.

(** C5: [drawFromDeck] in the phase DRAW with an empty draw pile returns
    [null] and ends the round: the phase is GAME_OVER, the outcome
    STOCK_EMPTY, the winner the first player in seat order (the current
    player included) whose points are the lowest; no hand changes, the
    current player stays, and the deck is left as it was, so the discard
    pile is not moved into the draw pile. *)
Theorem drawFromDeck_stock_empty (g : Game.t) :
  Game.phase g = DRAW ->
  Deck.cards (Game.deck g) = [] ->
  Game.players g <> [] ->
  exists g' w pw,
    Game.drawFromDeck g = Game.Ok None g'
    /\ Game.phase g' = GAME_OVER
    /\ Game.winCondition g' = Some STOCK_EMPTY
    /\ Game.winner g' = Some w
    /\ Game.players g !! w = Some pw
    /\ (forall j p, Game.players g !! j = Some p ->
          Player.calculatePoints pw <= Player.calculatePoints p)
    /\ (forall j p, Game.players g !! j = Some p -> (j < w)%nat ->
          Player.calculatePoints pw < Player.calculatePoints p)
    /\ Game.players g' = Game.players g
    /\ Game.deck g' = Game.deck g
    /\ Game.spreadsOnTable g' = Game.spreadsOnTable g
    /\ Game.currentPlayerIndex g' = Game.currentPlayerIndex g.
Proof.
  intros Hphase Hempty Hps. unfold Game.drawFromDeck, Deck.draw.
  rewrite Hphase, Hempty. rewrite bool_decide_eq_false_2 by (by intros H).
  simpl. unfold Game.endGameStockEmpty. simpl.
  destruct (Game.players g) as [|first ps] eqn:Eps; [done|].
  destruct (lowestLoop_inv (first :: ps) (first :: ps) 0 0
              (Player.calculatePoints first)) as (m & Hinv).
  { done. }
  { repeat split; [by exists first|intros; lia..]. }
  destruct Hinv as ((pw & Hpw & Hm) & Hle & Hlt).
  eexists _, _, pw. split; [done|]. simpl. rewrite Eps.
  repeat split; try done.
  - intros j p Hp. rewrite Hm. apply (Hle j); [by eapply lookup_lt_Some|done].
  - intros j p Hp Hj. rewrite Hm. by apply (Hlt j).
Qed.

End RoundEnd.

Lemma drawFromDeck_stock_empty_witness :
  exists g',
    Game.drawFromDeck Demo.emptyStock = Game.Ok None g'
    /\ Game.phase g' = Rules.GAME_OVER
    /\ Game.winCondition g' = Some Rules.STOCK_EMPTY
    /\ Game.winner g' = Some 0%nat
    /\ Game.deck g' = Game.deck Demo.emptyStock.
Proof.
  destruct (drawFromDeck_stock_empty Demo.emptyStock)
    as (g' & w & pw & Hdraw & Hphase & Hcond & Hw & Hpw & Hle & Hlt & _ & Hdeck & _).
  { reflexivity. }
  { reflexivity. }
  { discriminate. }
  exists g'. repeat (split; [done|]). split; [|done].
  rewrite Hw. f_equal.
  destruct w as [|[|[|w]]]; [done| | |by apply lookup_lt_Some in Hpw; simpl in Hpw; lia].
  - injection Hpw as <-.
    specialize (Hle 0%nat _ eq_refl). vm_compute in Hle. by destruct Hle.
  - injection Hpw as <-.
    specialize (Hlt 0%nat _ eq_refl). vm_compute in Hlt.
    by specialize (Hlt (Nat.lt_0_succ 1)).
Defined.

(** ** Round scoring *)

Section Scoring.

Lemma scoringLoop_spec (ps : list Player.t) :
  forall i winner scores losers,
    NoDup (map Player.id ps) ->
    let scores' := fst (Game.scoringLoop ps i winner scores losers) in
    (forall j p, ps !! j = Some p ->
       scores' !! Player.id p
       = if decide (winner = Some (i + j)%nat) then scores !! Player.id p
         else Some (default 0 (scores !! Player.id p)
                    + Player.calculatePoints p))
    /\ (forall key, key ∉ map Player.id ps -> scores' !! key = scores !! key).
Proof.
  induction ps as [|p ps IH]; intros i winner scores losers Hnd; simpl.
  - split; [done|]. by intros.
  - apply NoDup_cons in Hnd as [Hp Hnd].
    case_bool_decide as Hw.
    + match goal with
      | |- context [Game.scoringLoop ps (S i) winner ?s ?l] =>
          destruct (IH (S i) winner s l Hnd) as [IHin IHout]
      end.
      split.
      * intros [|j] q Hq; simpl in Hq.
        -- injection Hq as <-. rewrite IHout by done.
           rewrite lookup_insert_eq, Nat.add_0_r.
           by rewrite decide_False by congruence.
        -- rewrite (IHin j q Hq).
           assert (Player.id p <> Player.id q) as Hne.
           { intros E. apply Hp. rewrite E.
             apply list_elem_of_fmap. exists q. split; [done|].
             by eapply list_elem_of_lookup_2. }
           rewrite lookup_insert_ne by done.
           by replace (S i + j)%nat with (i + S j)%nat by lia.
      * intros key Hkey. apply not_elem_of_cons in Hkey as [Hk1 Hk2].
        rewrite IHout by done. by rewrite lookup_insert_ne.
    + destruct (IH (S i) winner scores losers Hnd) as [IHin IHout].
      split.
      * intros [|j] q Hq; simpl in Hq.
        -- injection Hq as <-. rewrite IHout by done.
           rewrite Nat.add_0_r. by rewrite decide_True.
        -- rewrite (IHin j q Hq).
           by replace (S i + j)%nat with (i + S j)%nat by lia.
      * intros key Hkey. apply not_elem_of_cons in Hkey as [Hk1 Hk2].
        by apply IHout.
Qed.

(** C8: [applyRoundScoring] returns; afterwards the score of the winner is
    what it was, the score of every other player is what it was plus the
    points of that player's hand, the entries of [matchScores] under other
    keys are untouched, and no other field of the game has changed.  The
    ids of the players are taken to be distinct. *)
Theorem applyRoundScoring_spec (g : Game.t) :
  NoDup (map Player.id (Game.players g)) ->
  exists losers g',
    Game.applyRoundScoring g = Game.Ok losers g'
    /\ (forall i p, Game.players g !! i = Some p ->
          Game.getScore g' p
          = if decide (Game.winner g = Some i) then Game.getScore g p
            else Game.getScore g p + Player.calculatePoints p)
    /\ (forall i p, Game.players g !! i = Some p -> Game.winner g = Some i ->
          Game.matchScores g' !! Player.id p
          = Game.matchScores g !! Player.id p)
    /\ (forall key, key ∉ map Player.id (Game.players g) ->
          Game.matchScores g' !! key = Game.matchScores g !! key)
    /\ g' = Game.set_matchScores (Game.matchScores g') g.
Proof.
  intros Hnd. unfold Game.applyRoundScoring.
  destruct (scoringLoop_spec (Game.players g) 0 (Game.winner g)
              (Game.matchScores g) [] Hnd) as [Hin Hout].
  destruct (Game.scoringLoop _ _ _ _ _) as [scores losers].
  simpl in Hin, Hout.
  exists losers, (Game.set_matchScores scores g).
  split; [done|]. split; [|split; [|split; [done|done]]].
  - intros i p Hp. unfold Game.getScore. simpl. rewrite (Hin i p Hp).
    by destruct (decide _).
  - intros i p Hp Hw. simpl. rewrite (Hin i p Hp). by rewrite decide_True.
Qed.

Lemma applyRoundScoring_spec_witness :
  exists losers g',
    Game.applyRoundScoring Demo.knocked = Game.Ok losers g'
    /\ Game.winner Demo.knocked = Some 1%nat
    /\ Game.getScore g' (Demo.seat 0 [Demo.card Card.R5 Card.hearts]) = 5
    /\ Game.getScore g' (Demo.seat 1 [Demo.card Card.R5 Card.spades]) = 0.
Proof.
  destruct (applyRoundScoring_spec Demo.knocked)
    as (losers & g' & Happly & Hscore & _).
  { apply (bool_decide_unpack _). by vm_compute. }
  exists losers, g'. split; [done|]. split; [done|]. split.
  - by rewrite (Hscore 0%nat (Demo.seat 0 [Demo.card Card.R5 Card.hearts])
                  eq_refl).
  - by rewrite (Hscore 1%nat (Demo.seat 1 [Demo.card Card.R5 Card.spades])
                  eq_refl).
Defined.

End Scoring.

(** ** Antes and redeals *)

Section Antes.

Import Spec.

Lemma sum_by_map {A B : Type} (f : A -> Z) (h : B -> Z) (l : list A)
    (l' : list B) :
  map f l = map h l' -> Array.sum_by f l = Array.sum_by h l'.
Proof.
  revert l'. induction l as [|x l IH]; intros [|y l']; simpl; try done.
  intros [= Hx Hl]. rewrite !sum_by_cons, Hx. f_equal. by apply IH.
Qed.

Lemma sum_by_sub {A : Type} (f h : A -> Z) (l : list A) :
  Array.sum_by (fun x => f x - h x) l = Array.sum_by f l - Array.sum_by h l.
Proof.
  induction l as [|x l IH]; [done|]. rewrite !sum_by_cons, IH. lia.
Qed.

Lemma anteLoop_spec (ps : list Player.t) (pot : Z) :
  snd (Game.anteLoop ps pot) = pot + Array.sum_by anteOf ps
  /\ map Player.chips (fst (Game.anteLoop ps pot))
     = map (fun p => Player.chips p - anteOf p) ps
  /\ map Player.isEliminated (fst (Game.anteLoop ps pot))
     = map Player.isEliminated ps
  /\ map Player.hand (fst (Game.anteLoop ps pot)) = map Player.hand ps.
Proof.
  revert pot. induction ps as [|p ps IH]; intros pot; simpl.
  - unfold Array.sum_by. simpl. split; [lia|done].
  - rewrite sum_by_cons. unfold anteOf at 1 3.
    destruct (Player.isEliminated p) eqn:Hel.
    + destruct (IH pot) as (Hpot & Hchips & Helim & Hhand).
      destruct (Game.anteLoop ps pot) as [ps1 pot1]. simpl in *.
      rewrite Hchips, Helim, Hhand.
      split; [lia|]. split; [f_equal; lia|]. split; [by f_equal|done].
    + simpl.
      destruct (IH (pot + Z.min Rules.ANTE_AMOUNT (Player.chips p)))
        as (Hpot & Hchips & Helim & Hhand).
      destruct (Game.anteLoop ps _) as [ps1 pot1]. simpl in *.
      rewrite Hchips, Helim, Hhand.
      split; [lia|]. split; [done|]. split; [by f_equal|done].
Qed.

Lemma collectAntes_pot (g : Game.t) :
  Game.pot (Game.collectAntes g) = Array.sum_by anteOf (Game.players g).
Proof.
  unfold Game.collectAntes. simpl.
  destruct (anteLoop_spec (Game.players g) 0) as (Hpot & _).
  destruct (Game.anteLoop (Game.players g) 0) as [ps pot1]. simpl in *. lia.
Qed.

Lemma collectAntes_chips (g : Game.t) :
  map Player.chips (Game.players (Game.collectAntes g))
  = map (fun p => Player.chips p - anteOf p) (Game.players g).
Proof.
  unfold Game.collectAntes. simpl.
  destruct (anteLoop_spec (Game.players g) 0) as (_ & Hchips & _).
  by destruct (Game.anteLoop (Game.players g) 0) as [ps pot1].
Qed.

Lemma collectAntes_eliminated (g : Game.t) :
  map Player.isEliminated (Game.players (Game.collectAntes g))
  = map Player.isEliminated (Game.players g).
Proof.
  unfold Game.collectAntes. simpl.
  destruct (anteLoop_spec (Game.players g) 0) as (_ & _ & Helim & _).
  by destruct (Game.anteLoop (Game.players g) 0) as [ps pot1].
Qed.

Lemma collectAntes_total (g : Game.t) :
  Game.chipsInPlay (Game.collectAntes g) = Game.chipsInPlay g - Game.pot g.
Proof.
  unfold Game.chipsInPlay. rewrite collectAntes_pot.
  rewrite (sum_by_map _ _ _ _ (collectAntes_chips g)), sum_by_sub. lia.
Qed.

(** Dealing and the reset before a redeal move cards only. *)
Lemma dealPass_account (d : Deck.t) (ps : list Player.t) :
  map account (snd (Game.dealPass d ps)) = map account ps.
Proof.
  revert d. induction ps as [|p ps IH]; intros d; simpl; [done|].
  destruct (Deck.draw d) as [card d1].
  specialize (IH d1). destruct (Game.dealPass d1 ps) as [d2 ps2]. simpl in *.
  rewrite IH. by destruct card.
Qed.

Lemma dealPasses_account (n : nat) (d : Deck.t) (ps : list Player.t) :
  map account (snd (Game.dealPasses n d ps)) = map account ps.
Proof.
  revert d ps. induction n as [|n IH]; intros d ps; simpl; [done|].
  pose proof (dealPass_account d ps) as H1.
  destruct (Game.dealPass d ps) as [d1 ps1]. simpl in H1.
  by rewrite IH.
Qed.

Lemma deal_account (g : Game.t) :
  map account (Game.players (Game.deal g)) = map account (Game.players g)
  /\ Game.pot (Game.deal g) = Game.pot g.
Proof.
  unfold Game.deal.
  pose proof (dealPasses_account
                (Rules.getCardsPerPlayer (length (Game.players g)))
                (Game.deck g) (Game.players g)) as H1.
  destruct (Game.dealPasses _ _ _) as [d1 ps1].
  by destruct (Deck.draw d1) as [firstDiscard d2].
Qed.

Lemma account_chips (ps ps' : list Player.t) :
  map account ps = map account ps' ->
  map Player.chips ps = map Player.chips ps'
  /\ map anteOf ps = map anteOf ps'.
Proof.
  revert ps'. induction ps as [|p ps IH]; intros [|p' ps']; simpl; try done.
  intros [= Hc He Hl]. destruct (IH ps' Hl) as [-> ->].
  unfold anteOf. by rewrite Hc, He.
Qed.

Lemma map_chips_ante (l l' : list Player.t) :
  map Player.chips l = map Player.chips l' ->
  map anteOf l = map anteOf l' ->
  map (fun p => Player.chips p - anteOf p) l
  = map (fun p => Player.chips p - anteOf p) l'.
Proof.
  revert l'. induction l as [|p l IH]; intros [|q l']; simpl; try done.
  intros [= Hc Hl] [= Ha Hl']. rewrite Hc, Ha. f_equal. by apply IH.
Qed.

Lemma dealAttempt_account (g : Game.t) :
  map account (Game.players (Game.dealAttempt g))
  = map account (Game.players (Game.collectAntes g))
  /\ Game.pot (Game.dealAttempt g) = Game.pot (Game.collectAntes g).
Proof. unfold Game.dealAttempt. simpl. apply deal_account. Qed.

Lemma voided_account (random : nat -> Deck.Rand) (g : Game.t) :
  map account (Game.players (voided random g))
  = map account (Game.players (Game.dealAttempt g))
  /\ Game.pot (voided random g) = Game.pot (Game.dealAttempt g).
Proof.
  unfold voided, Game.resetForRedeal. simpl. split; [|done].
  rewrite map_map. by apply map_ext.
Qed.

Lemma redeal_total (random : nat -> Deck.Rand) (g : Game.t) :
  Game.chipsInPlay (Game.dealAttempt (voided random g))
  = Game.chipsInPlay (Game.dealAttempt g) - Game.pot (Game.dealAttempt g).
Proof.
  set (g1 := voided random g).
  destruct (dealAttempt_account g1) as [Hacc Hpot].
  destruct (voided_account random g) as [Hacc' Hpot']. fold g1 in Hacc', Hpot'.
  apply account_chips in Hacc as [Hchips _].
  apply account_chips in Hacc' as [Hchips' _].
  pose proof (collectAntes_total g1) as Htotal.
  unfold Game.chipsInPlay in *.
  rewrite (sum_by_map _ _ _ _ Hchips), Hpot.
  rewrite (sum_by_map _ _ _ _ Hchips'), Hpot' in Htotal. lia.
Qed.

Lemma anteOf_sum_pos (ps : list Player.t) :
  (forall p, p ∈ ps -> 0 <= Player.chips p) ->
  (exists p, p ∈ ps /\ Player.isEliminated p = false /\ 0 < Player.chips p) ->
  0 < Array.sum_by anteOf ps.
Proof.
  assert (forall l : list Player.t,
            (forall p, p ∈ l -> 0 <= Player.chips p) ->
            0 <= Array.sum_by anteOf l) as Hnonneg.
  { induction l as [|q l IH]; intros Hl; [done|]. rewrite sum_by_cons.
    assert (0 <= anteOf q).
    { unfold anteOf, Rules.ANTE_AMOUNT. destruct (Player.isEliminated q); [lia|].
      specialize (Hl q (list_elem_of_here _ _)). lia. }
    assert (0 <= Array.sum_by anteOf l); [|lia].
    apply IH. intros p Hp. apply Hl. by apply list_elem_of_further. }
  induction ps as [|q ps IH]; intros Hall (p & Hp & Hel & Hpos).
  - by apply elem_of_nil in Hp.
  - rewrite sum_by_cons.
    assert (0 <= Array.sum_by anteOf ps).
    { apply Hnonneg. intros r Hr. apply Hall. by apply list_elem_of_further. }
    assert (0 <= anteOf q).
    { unfold anteOf, Rules.ANTE_AMOUNT. destruct (Player.isEliminated q); [lia|].
      specialize (Hall q (list_elem_of_here _ _)). lia. }
    apply elem_of_cons in Hp as [->|Hp].
    + unfold anteOf, Rules.ANTE_AMOUNT in *. rewrite Hel in *. lia.
    + assert (0 < Array.sum_by anteOf ps); [|lia].
      apply IH; [|by exists p].
      intros r Hr. apply Hall. by apply list_elem_of_further.
Qed.

End Antes.

Section Redeals.

Import Spec.

Lemma dealAndCheckInitialTonk_unfold (shuffles : list (nat -> Deck.Rand))
    (g : Game.t) :
  Game.dealAndCheckInitialTonk shuffles g
  = if (1 <? length (Game.checkInitialTonk (Game.dealAttempt g)))%nat then
      match shuffles with
      | [] => None
      | random :: rest => Game.dealAndCheckInitialTonk rest (voided random g)
      end
    else if bool_decide
              (length (Game.checkInitialTonk (Game.dealAttempt g)) = 1%nat)
    then Some (Game.initialTonkWin
                 (Game.checkInitialTonk (Game.dealAttempt g))
                 (Game.dealAttempt g))
    else Some (Game.firstTurn (Game.dealAttempt g)).
Proof. by destruct shuffles. Qed.

Lemma dealAndCheckInitialTonk_void (random : nat -> Deck.Rand)
    (shuffles : list (nat -> Deck.Rand)) (g : Game.t) :
  (1 < length (Game.checkInitialTonk (Game.dealAttempt g)))%nat ->
  Game.dealAndCheckInitialTonk (random :: shuffles) g
  = Game.dealAndCheckInitialTonk shuffles (voided random g).
Proof.
  intros Hvoid. apply Nat.ltb_lt in Hvoid.
  by rewrite dealAndCheckInitialTonk_unfold, Hvoid.
Qed.

(** C10, as stated, fails: in [Demo.broke] the deal is void (two initial
    tonks), yet the redeal takes no chip from anybody and the chips and
    the pot together are what they were after the voided attempt. *)
Lemma voided_deal_without_chips :
  (1 < length (Game.checkInitialTonk (Game.dealAttempt Demo.broke)))%nat
  /\ map Player.isEliminated (Game.players Demo.broke) = [false; false]
  /\ map Player.chips
       (Game.players (Game.dealAttempt (voided Demo.zeroShuffle Demo.broke)))
     = map Player.chips (Game.players (Game.dealAttempt Demo.broke))
  /\ ~ (Game.chipsInPlay (Game.dealAttempt (voided Demo.zeroShuffle Demo.broke))
        < Game.chipsInPlay (Game.dealAttempt Demo.broke)).
Proof. vm_compute. repeat split; try lia. discriminate. Qed.

(** C10, amended: [collectAntes] sets the pot to the sum of the antes it
    takes in that call, an ante being [ANTE_AMOUNT] clamped to the chips
    of a player who is not eliminated.  When a deal is void, the redeal
    runs [dealAndCheckInitialTonk] again from the reset state: every
    player again pays the clamped ante, the pot holds the antes of the
    new attempt only, and chips plus pot go down by exactly the pot of
    the voided attempt; the decrease is strict when no player is in debt
    and some player who is not eliminated has chips before the voided
    attempt. *)
Theorem collectAntes_redeal (g : Game.t) (random : nat -> Deck.Rand)
    (shuffles : list (nat -> Deck.Rand)) :
  Game.pot (Game.collectAntes g) = Array.sum_by anteOf (Game.players g)
  /\ map Player.chips (Game.players (Game.collectAntes g))
     = map (fun p => Player.chips p - anteOf p) (Game.players g)
  /\ Game.chipsInPlay (Game.collectAntes g) = Game.chipsInPlay g - Game.pot g
  /\ ((1 < length (Game.checkInitialTonk (Game.dealAttempt g)))%nat ->
      Game.dealAndCheckInitialTonk (random :: shuffles) g
      = Game.dealAndCheckInitialTonk shuffles (voided random g)
      /\ map Player.chips (Game.players (Game.dealAttempt (voided random g)))
         = map (fun p => Player.chips p - anteOf p)
             (Game.players (Game.dealAttempt g))
      /\ Game.pot (Game.dealAttempt (voided random g))
         = Array.sum_by anteOf (Game.players (Game.dealAttempt g))
      /\ Game.chipsInPlay (Game.dealAttempt (voided random g))
         = Game.chipsInPlay (Game.dealAttempt g)
           - Game.pot (Game.dealAttempt g)
      /\ ((forall p, p ∈ Game.players g -> 0 <= Player.chips p) ->
          (exists p, p ∈ Game.players g /\ Player.isEliminated p = false
                     /\ 0 < Player.chips p) ->
          Game.chipsInPlay (Game.dealAttempt (voided random g))
          < Game.chipsInPlay (Game.dealAttempt g))).
Proof.
  split; [apply collectAntes_pot|]. split; [apply collectAntes_chips|].
  split; [apply collectAntes_total|]. intros Hvoid.
  destruct (voided_account random g) as [Hacc Hpot].
  destruct (dealAttempt_account (voided random g)) as [Hacc1 Hpot1].
  apply account_chips in Hacc as [Hchips Hante].
  apply account_chips in Hacc1 as [Hchips1 _].
  split; [|split; [|split; [|split]]].
  - by apply dealAndCheckInitialTonk_void.
  - rewrite Hchips1, collectAntes_chips. by apply map_chips_ante.
  - rewrite Hpot1, collectAntes_pot. by apply sum_by_map.
  - apply redeal_total.
  - intros Hnonneg Hsome. rewrite redeal_total.
    destruct (dealAttempt_account g) as [_ ->]. rewrite collectAntes_pot.
    pose proof (anteOf_sum_pos _ Hnonneg Hsome). lia.
Qed.

Lemma collectAntes_redeal_witness :
  Game.dealAndCheckInitialTonk [Demo.zeroShuffle] Demo.tonkRound
  = Game.dealAndCheckInitialTonk [] (voided Demo.zeroShuffle Demo.tonkRound)
  /\ Game.chipsInPlay (Game.dealAttempt (voided Demo.zeroShuffle Demo.tonkRound))
     < Game.chipsInPlay (Game.dealAttempt Demo.tonkRound).
Proof.
  destruct (collectAntes_redeal Demo.tonkRound Demo.zeroShuffle [])
    as (_ & _ & _ & Hredeal).
  destruct Hredeal as (Hagain & _ & _ & _ & Hless).
  { vm_compute. lia. }
  split; [exact Hagain|]. apply Hless; clear Hagain Hless.
  - intros p Hp. apply list_elem_of_In in Hp. vm_compute in Hp.
    destruct Hp as [<-|[<-|[]]]; vm_compute; discriminate.
  - exists (Demo.seat 0 []). split; [|vm_compute; split; reflexivity].
    apply list_elem_of_In. vm_compute. left. reflexivity.
Defined.

End Redeals.

(** ** The deal and the initial tonk *)

Section InitialTonk.

Import Rules Spec.

Lemma hasInitialTonk_iff (points : Z) :
  hasInitialTonk points = true <-> points = 49 \/ points = 50.
Proof.
  unfold hasInitialTonk, INITIAL_TONK_MIN, INITIAL_TONK_MAX.
  rewrite andb_true_iff, !Z.leb_le. lia.
Qed.

Lemma tonkSeats_spec (ps : list Player.t) :
  forall k i,
    i ∈ Game.tonkSeats ps k <->
    exists j p, i = (k + j)%nat /\ ps !! j = Some p
                /\ hasInitialTonk (Player.calculatePoints p) = true.
Proof.
  induction ps as [|q ps IH]; intros k i; simpl.
  - split; [by intros ?%elem_of_nil|]. by intros (j & p & _ & ? & _).
  - destruct (hasInitialTonk (Player.calculatePoints q)) eqn:Hq.
    + rewrite elem_of_cons, IH. split.
      * intros [->|(j & p & -> & Hp & Ht)].
        -- exists 0%nat, q. split; [lia|done].
        -- exists (S j), p. split; [lia|done].
      * intros ([|j] & p & -> & Hp & Ht); [left; lia|].
        right. exists j, p. split; [lia|done].
    + rewrite IH. split.
      * intros (j & p & -> & Hp & Ht). exists (S j), p. split; [lia|done].
      * intros ([|j] & p & -> & Hp & Ht); simpl in Hp.
        -- injection Hp as <-. congruence.
        -- exists j, p. split; [lia|done].
Qed.

Lemma collectAntes_frame (g : Game.t) :
  Game.currentPlayerIndex (Game.collectAntes g) = Game.currentPlayerIndex g
  /\ Game.deck (Game.collectAntes g) = Game.deck g
  /\ Game.spreadsOnTable (Game.collectAntes g) = Game.spreadsOnTable g
  /\ map Player.hand (Game.players (Game.collectAntes g))
     = map Player.hand (Game.players g).
Proof.
  unfold Game.collectAntes. simpl.
  destruct (anteLoop_spec (Game.players g) 0) as (_ & _ & _ & Hhand).
  by destruct (Game.anteLoop (Game.players g) 0) as [ps pot1].
Qed.

Lemma deal_frame (g : Game.t) :
  Game.currentPlayerIndex (Game.deal g) = Game.currentPlayerIndex g
  /\ Game.spreadsOnTable (Game.deal g) = Game.spreadsOnTable g.
Proof.
  unfold Game.deal. destruct (Game.dealPasses _ _ _) as [d1 ps1].
  by destruct (Deck.draw d1) as [firstDiscard d2].
Qed.

Lemma dealAttempt_frame (g : Game.t) :
  Game.currentPlayerIndex (Game.dealAttempt g) = Game.currentPlayerIndex g
  /\ Game.spreadsOnTable (Game.dealAttempt g) = Game.spreadsOnTable g
  /\ Game.phase (Game.dealAttempt g) = INITIAL_TONK_CHECK.
Proof.
  unfold Game.dealAttempt. simpl.
  destruct (deal_frame (Game.collectAntes g)) as [-> ->].
  by destruct (collectAntes_frame g) as (-> & _ & -> & _).
Qed.

(** X9: What [dealAndCheckInitialTonk] does after the deal, by the number of
    players found with an initial tonk. *)
Lemma dealAndCheckInitialTonk_cases (shuffles : list (nat -> Deck.Rand))
    (g : Game.t) :
  let g1 := Game.dealAttempt g in
  (forall i, i ∈ Game.checkInitialTonk g1 <->
     exists p, Game.players g1 !! i = Some p
               /\ (Player.calculatePoints p = 49
                   \/ Player.calculatePoints p = 50))
  /\ (forall w, Game.checkInitialTonk g1 = [w] ->
        exists g', Game.dealAndCheckInitialTonk shuffles g = Some g'
          /\ Game.phase g' = GAME_OVER
          /\ Game.winCondition g' = Some INITIAL_TONK
          /\ Game.winner g' = Some w
          /\ Game.players g' = Game.players g1
          /\ Game.deck g' = Game.deck g1)
  /\ (Game.checkInitialTonk g1 = [] ->
        exists g', Game.dealAndCheckInitialTonk shuffles g = Some g'
          /\ Game.phase g' = START_OF_TURN
          /\ Game.currentPlayerIndex g' = Game.currentPlayerIndex g
          /\ Game.players g' = Game.players g1
          /\ Game.deck g' = Game.deck g1)
  /\ ((1 < length (Game.checkInitialTonk g1))%nat ->
        forall random rest,
          Game.dealAndCheckInitialTonk (random :: rest) g
          = Game.dealAndCheckInitialTonk rest (voided random g)
          /\ Forall (fun p => Player.hand p = [] /\ Player.spreads p = [])
               (Game.players (voided random g))
          /\ Game.deck (voided random g) = Deck.new random).
Proof.
  intros g1. split; [|split; [|split]].
  - intros i. unfold Game.checkInitialTonk. rewrite tonkSeats_spec. split.
    + intros (j & p & -> & Hp & Ht). exists p. by apply hasInitialTonk_iff in Ht.
    + intros (p & Hp & Ht). exists i, p. by apply hasInitialTonk_iff in Ht.
  - intros w Hw. subst g1.
    rewrite dealAndCheckInitialTonk_unfold, Hw. simpl.
    eexists. split; [reflexivity|]. by simpl.
  - intros Hw. subst g1.
    destruct (dealAttempt_frame g) as (Hcur & _).
    rewrite dealAndCheckInitialTonk_unfold, Hw. simpl.
    eexists. split; [reflexivity|]. by simpl.
  - intros Hvoid random rest. subst g1.
    split; [by apply dealAndCheckInitialTonk_void|]. split; [|done].
    unfold voided, Game.resetForRedeal. simpl.
    apply Forall_forall. intros p Hp.
    apply list_elem_of_fmap in Hp as (q & -> & _). done.
Qed.

End InitialTonk.

(** ** Conservation of the cards *)

Section Shuffle.

Lemma insert_swap_perm {A} (l : list A) (j : nat) (a y : A) :
  l !! j = Some y -> y :: <[j := a]> l ≡ₚ a :: l.
Proof.
  revert j. induction l as [|b l IH]; intros [|j]; simpl; try done.
  - intros [= ->]. apply Permutation_swap.
  - intros Hj. rewrite (Permutation_swap b y), (IH j Hj).
    apply Permutation_swap.
Qed.

Lemma swap_perm {A} (i j : nat) (l : list A) : Array.swap i j l ≡ₚ l.
Proof.
  unfold Array.swap.
  destruct (l !! i) as [x|] eqn:Hi; [|done].
  destruct (l !! j) as [y|] eqn:Hj; [|done].
  revert i j Hi Hj. induction l as [|a l IH]; intros [|i] [|j]; simpl; try done.
  - by intros [= ->] [= ->].
  - intros [= ->] Hj. by apply insert_swap_perm.
  - intros Hi [= ->]. by apply insert_swap_perm.
  - intros Hi Hj. by rewrite (IH i j).
Qed.

Lemma shuffle_loop_perm (random : nat -> Deck.Rand) (steps k : nat)
    (cs : list Card.t) :
  Deck.shuffle_loop random k steps cs ≡ₚ cs.
Proof.
  revert k cs. induction steps as [|i IH]; intros k cs; simpl; [done|].
  by rewrite IH, swap_perm.
Qed.

Lemma new_deck (random : nat -> Deck.Rand) :
  Deck.cards (Deck.new random) ≡ₚ Deck.generateDeck
  /\ Deck.discardPile (Deck.new random) = [].
Proof. split; [apply shuffle_loop_perm|done]. Qed.

(** The index [Math.floor(Math.random() * (i + 1))] lies in [0, i]. *)
Lemma randomBelow_lt (u : Deck.Rand) (n : nat) :
  (0 < n)%nat -> (Deck.randomBelow u n < n)%nat.
Proof.
  intros Hn. unfold Deck.randomBelow.
  apply Nat.Div0.div_lt_upper_bound. nia.
Qed.

End Shuffle.

Section Conservation.

Import Rules Spec.

Lemma equals_eq (c card : Card.t) : Card.equals c card = true <-> c = card.
Proof.
  unfold Card.equals. rewrite andb_true_iff, !bool_decide_eq_true.
  destruct c, card; simpl. split; [by intros [-> ->]|by intros [= -> ->]].
Qed.

Lemma draw_Some (d d' : Deck.t) (c : Card.t) :
  Deck.draw d = (Some c, d') ->
  Deck.cards d = Deck.cards d' ++ [c]
  /\ Deck.discardPile d' = Deck.discardPile d.
Proof.
  unfold Deck.draw. destruct (Array.pop (Deck.cards d)) as [[rest x]|] eqn:E;
    [|done].
  intros [= <- <-]. by apply pop_Some in E.
Qed.

Lemma draw_None (d d' : Deck.t) : Deck.draw d = (None, d') -> d' = d.
Proof.
  unfold Deck.draw. destruct (Array.pop (Deck.cards d)) as [[rest x]|];
    [done|]. by intros [= <-].
Qed.


Lemma drawFromDiscard_None (d d' : Deck.t) :
  Deck.drawFromDiscard d = (None, d') -> d' = d.
Proof.
  unfold Deck.drawFromDiscard.
  destruct (Array.pop (Deck.discardPile d)) as [[rest x]|]; [done|].
  by intros [= <-].
Qed.



(** [removeCard]: a card of the hand is found and taken out; a card that
    is not in the hand leaves the player as it was. *)
Lemma removeCard_Some (card c : Card.t) (p p' : Player.t) :
  Player.removeCard card p = (Some c, p') ->
  c = card /\ Player.hand p ≡ₚ card :: Player.hand p'.
Proof.
  unfold Player.removeCard.
  destruct (Array.findIndex _ (Player.hand p)) as [i|] eqn:E; [|done].
  intros [= Hc <-]. apply findIndex_Some in E as (x & Hx & Heq).
  apply equals_eq in Heq as ->. rewrite Hx in Hc. injection Hc as <-.
  split; [done|]. simpl. by apply delete_Permutation.
Qed.

Lemma removeCard_None (card : Card.t) (p p' : Player.t) :
  Player.removeCard card p = (None, p') -> p' = p /\ card ∉ Player.hand p.
Proof.
  unfold Player.removeCard.
  destruct (Array.findIndex _ (Player.hand p)) as [i|] eqn:E.
  - apply findIndex_Some in E as (x & Hx & _). rewrite Hx. done.
  - intros [= <-]. split; [done|]. intros Hin.
    pose proof (findIndex_None _ _ E card Hin) as Hf. simpl in Hf.
    pose proof (proj2 (equals_eq card card) eq_refl). congruence.
Qed.




Lemma allCards_eq (g : Game.t) :
  Game.allCards g
  = Deck.cards (Game.deck g) ++ Deck.discardPile (Game.deck g)
    ++ handCards (Game.players g) ++ tableCards (Game.spreadsOnTable g).
Proof. reflexivity. Qed.

Lemma dealPass_cards (d : Deck.t) (ps : list Player.t) :
  Deck.cards (fst (Game.dealPass d ps)) ++ handCards (snd (Game.dealPass d ps))
  ≡ₚ Deck.cards d ++ handCards ps
  /\ Deck.discardPile (fst (Game.dealPass d ps)) = Deck.discardPile d
  /\ length (snd (Game.dealPass d ps)) = length ps.
Proof.
  revert d. induction ps as [|p ps IH]; intros d; simpl; [done|].
  destruct (Deck.draw d) as [card d1] eqn:Hdraw.
  destruct (IH d1) as (Hperm & Hdisc & Hlen).
  destruct (Game.dealPass d1 ps) as [d2 ps2]. simpl in *.
  unfold handCards in *. simpl.
  destruct card as [c|].
  - apply draw_Some in Hdraw as [Hcards Hdisc1].
    rewrite Hcards, Hdisc, Hdisc1, Hlen. split; [|done]. simpl.
    rewrite <- !app_assoc.
    rewrite (Permutation_app_comm (Deck.cards d2)), <- !app_assoc.
    rewrite (Permutation_app_comm (concat (map Player.hand ps2))).
    rewrite Hperm. solve_Permutation.
  - apply draw_None in Hdraw as ->. rewrite Hdisc, Hlen. split; [|done].
    rewrite (Permutation_app_comm (Deck.cards d2)), <- !app_assoc.
    rewrite (Permutation_app_comm (concat (map Player.hand ps2))).
    rewrite Hperm. solve_Permutation.
Qed.

Lemma dealPasses_cards (n : nat) (d : Deck.t) (ps : list Player.t) :
  Deck.cards (fst (Game.dealPasses n d ps))
  ++ handCards (snd (Game.dealPasses n d ps))
  ≡ₚ Deck.cards d ++ handCards ps
  /\ Deck.discardPile (fst (Game.dealPasses n d ps)) = Deck.discardPile d
  /\ length (snd (Game.dealPasses n d ps)) = length ps.
Proof.
  revert d ps. induction n as [|n IH]; intros d ps; simpl; [done|].
  destruct (dealPass_cards d ps) as (Hperm & Hdisc & Hlen).
  destruct (Game.dealPass d ps) as [d1 ps1]. simpl in *.
  destruct (IH d1 ps1) as (Hperm1 & Hdisc1 & Hlen1).
  rewrite Hperm1, Hdisc1, Hlen1. by rewrite Hperm, Hdisc, Hlen.
Qed.

Lemma deal_cards (g : Game.t) :
  Game.allCards (Game.deal g) ≡ₚ Game.allCards g
  /\ length (Game.players (Game.deal g)) = length (Game.players g).
Proof.
  rewrite !allCards_eq. unfold Game.deal.
  destruct (dealPasses_cards (getCardsPerPlayer (length (Game.players g)))
              (Game.deck g) (Game.players g)) as (Hperm & Hdisc & Hlen).
  destruct (Game.dealPasses _ _ _) as [d1 ps1]. simpl in Hperm, Hdisc, Hlen.
  destruct (Deck.draw d1) as [firstDiscard d2] eqn:Hdraw. simpl.
  split; [|done]. rewrite <- Hdisc.
  rewrite (app_assoc (Deck.cards (Game.deck g))).
  rewrite (Permutation_app_comm (Deck.cards (Game.deck g))).
  rewrite <- !app_assoc.
  rewrite (app_assoc (Deck.cards (Game.deck g))), <- Hperm.
  destruct firstDiscard as [c|].
  - apply draw_Some in Hdraw as [Hcards Hdisc2]. simpl.
    rewrite Hcards, Hdisc2. solve_Permutation.
  - apply draw_None in Hdraw as ->. solve_Permutation.
Qed.

Lemma collectAntes_cards (g : Game.t) :
  Game.allCards (Game.collectAntes g) = Game.allCards g
  /\ length (Game.players (Game.collectAntes g)) = length (Game.players g).
Proof.
  rewrite !allCards_eq.
  destruct (collectAntes_frame g) as (_ & -> & -> & Hhands).
  unfold handCards. rewrite Hhands. split; [done|].
  apply (f_equal length) in Hhands. by rewrite !length_map in Hhands.
Qed.

Lemma dealAttempt_cards (g : Game.t) :
  Game.allCards (Game.dealAttempt g) ≡ₚ Game.allCards g
  /\ length (Game.players (Game.dealAttempt g)) = length (Game.players g).
Proof.
  unfold Game.dealAttempt.
  destruct (deal_cards (Game.collectAntes g)) as [Hperm Hlen].
  destruct (collectAntes_cards g) as [Heq Hlen'].
  change (Game.allCards (Game.set_phase INITIAL_TONK_CHECK
                           (Game.deal (Game.collectAntes g))))
    with (Game.allCards (Game.deal (Game.collectAntes g))).
  simpl. rewrite Hperm, Heq, Hlen, Hlen'. done.
Qed.





















Lemma addCard_cards (card : Card.t) (s s' : Spread.t) :
  Spread.addCard card s = inr s' ->
  Spread.cards s' ≡ₚ card :: Spread.cards s /\ Spread.type s' = Spread.type s.
Proof.
  unfold Spread.addCard. destruct (Spread.canAddCard s card) as [[|]|]; try done.
  intros [= <-]. simpl. split; [|done].
  destruct (Spread.type s).
  - by rewrite Permutation_app_comm.
  - unfold Spread.sortByRank. rewrite sort_by_perm.
    by rewrite Permutation_app_comm.
Qed.







Lemma generateDeck_NoDup : NoDup Deck.generateDeck.
Proof. apply (bool_decide_unpack _). by vm_compute. Qed.


End Conservation.

(** ** Rejected calls *)

Section Rejections.

Import Rules Spec.

(** X2: A call that is rejected for the phase, for an invalid spread, for a
    card that cannot extend the spread, or (in [discard]) for a card that
    is not in the hand, throws before it changes anything: the state at
    the throw is the state at the call. *)
Lemma rejection_keeps_state (g : Game.t) :
  hasCurrentPlayer g ->
  (Game.isThrow (Game.proceedToDraw g) = true ->
   Game.stateOf (Game.proceedToDraw g) = g)
  /\ (Game.isThrow (Game.drawFromDeck g) = true ->
      Game.stateOf (Game.drawFromDeck g) = g)
  /\ (Game.isThrow (Game.drawFromDiscard g) = true ->
      Game.stateOf (Game.drawFromDiscard g) = g)
  /\ (forall cards, Game.isThrow (Game.laySpread cards g) = true ->
        Game.stateOf (Game.laySpread cards g) = g)
  /\ (forall card spread,
        Game.isThrow (Game.hitSpread card spread g) = true ->
        Game.stateOf (Game.hitSpread card spread g) = g)
  /\ (forall card, Game.isThrow (Game.discard card g) = true ->
        Game.stateOf (Game.discard card g) = g)
  /\ (Game.isThrow (Game.knock g) = true -> Game.stateOf (Game.knock g) = g).
Proof.
  intros Hcur. destruct (lookup_lt_is_Some_2 _ _ Hcur) as [p Hp].
  split; [|split; [|split; [|split; [|split; [|split]]]]].
  - unfold Game.proceedToDraw. by destruct (bool_decide _).
  - unfold Game.drawFromDeck. destruct (bool_decide _); [done|].
    destruct (Deck.draw (Game.deck g)) as [[c|] d1] eqn:Hdraw.
    + unfold Game.getCurrentPlayer. simpl. by rewrite Hp.
    + unfold Game.endGameStockEmpty. simpl.
      destruct (Game.players g); [done|]. done.
  - unfold Game.drawFromDiscard. destruct (bool_decide _); [done|].
    destruct (Deck.drawFromDiscard (Game.deck g)) as [[c|] d1]; [|done].
    unfold Game.getCurrentPlayer. simpl. by rewrite Hp.
  - intros cards. unfold Game.laySpread.
    destruct (_ && _); [done|]. destruct (negb _); [done|].
    unfold Game.getCurrentPlayer. rewrite Hp.
    destruct (Spread.vtype _); [|done].
    destruct (Player.removeCards cards p) as [removed p1].
    by destruct (Player.hasEmptyHand _).
  - intros card spread. unfold Game.hitSpread.
    destruct (_ && _); [done|].
    destruct (Game.spreadsOnTable g !! spread) as [s|]; [|done].
    destruct (Spread.canAddCard s card) as [[|]|] eqn:Hcan; try done.
    unfold Game.getCurrentPlayer. rewrite Hp.
    destruct (Player.removeCard card p) as [removed p1].
    unfold Spread.addCard. rewrite Hcan.
    by destruct (Player.hasEmptyHand _).
  - intros card. unfold Game.discard. destruct (bool_decide _); [done|].
    unfold Game.getCurrentPlayer. rewrite Hp.
    destruct (Player.removeCard card p) as [[c|] p1]; [|done].
    by destruct (Player.hasEmptyHand _).
  - unfold Game.knock. destruct (bool_decide _); [done|].
    unfold Game.getCurrentPlayer. rewrite Hp.
    by destruct (Game.knockLoop _ _ _ _ _).
Qed.

(** The calls that [laySpread] rejects are those made in another phase
    than ACTION and START_OF_TURN and those with an invalid spread. *)
Lemma laySpread_rejects (cards : list Card.t) (g : Game.t) :
  hasCurrentPlayer g ->
  Game.isThrow (Game.laySpread cards g) = true <->
  (Game.phase g <> ACTION /\ Game.phase g <> START_OF_TURN)
  \/ Spread.valid (Spread.validate cards) = false.
Proof.
  intros Hcur. destruct (lookup_lt_is_Some_2 _ _ Hcur) as [p Hp].
  unfold Game.laySpread.
  destruct (bool_decide (Game.phase g <> ACTION)) eqn:E1;
    destruct (bool_decide (Game.phase g <> START_OF_TURN)) eqn:E2; simpl;
    try apply bool_decide_eq_true in E1; try apply bool_decide_eq_true in E2;
    try apply bool_decide_eq_false in E1; try apply bool_decide_eq_false in E2.
  1: { split; [by left|done]. }
  all: destruct (Spread.valid (Spread.validate cards)) eqn:Hvalid; simpl;
    try (split; [by right|done]).
  all: unfold Game.getCurrentPlayer; rewrite Hp.
  all: assert (exists ty, Spread.vtype (Spread.validate cards) = Some ty)
         as [ty ->]
         by (revert Hvalid; unfold Spread.validate;
             destruct (Spread.isValidBook cards), (Spread.isValidRun cards);
             simpl; eauto; done).
  all: destruct (Player.removeCards cards p) as [removed p1].
  all: destruct (Player.hasEmptyHand _); simpl; split; try done;
    intros [[? ?]|?]; done.
Qed.

End Rejections.

(** ** The spreads on the table *)

Section TableInvariant.

Import Rules Spec.


Lemma contiguous_bounds (cards : list Card.t) (lo : Z) :
  cards <> [] ->
  map Card.getRankIndex cards ≡ₚ progression lo (length cards) ->
  lowestIndex cards lo
  /\ highestIndex cards (lo + Z.of_nat (length cards) - 1).
Proof.
  intros Hne Hperm.
  assert (0 < length cards)%nat by (destruct cards; [done|simpl; lia]).
  unfold lowestIndex, highestIndex.
  repeat split; try (rewrite Hperm; apply elem_of_progression; lia);
    intros x Hx; rewrite Hperm in Hx; apply elem_of_progression in Hx; lia.
Qed.

Lemma addCard_laid (card : Card.t) (s s' : Spread.t) :
  laid s -> Spread.addCard card s = inr s' -> laid s'.
Proof.
  intros Hlaid Hadd.
  pose proof (laid_nonempty s Hlaid) as Hne.
  unfold Spread.addCard, Spread.canAddCard in Hadd.
  unfold laid in *.
  destruct (Spread.type s) eqn:Hty.
  1: destruct (canAddToBook_spec s card Hne (proj2 Hlaid))
       as (b & Hcan & Hb).
  2: destruct (canAddToRun_spec s card Hne (proj1 (proj2 Hlaid)))
       as (b & Hcan & Hb).
  all: rewrite Hcan in Hadd; destruct b; [|done]; injection Hadd as <-;
    destruct (proj1 Hb eq_refl) as [H1 H2]; clear Hb Hcan; simpl.
  - destruct Hlaid as [Hlen Hu]. rewrite length_app. simpl. split; [lia|].
    intros c1 c2 Hc1 Hc2.
    assert (forall c, c ∈ Spread.cards s ++ [card] ->
                      Card.rank c = Card.rank card) as Hall.
    { intros c Hc. apply elem_of_app in Hc as [Hc|Hc].
      - symmetry. by apply H2.
      - by apply list_elem_of_singleton in Hc as ->. }
    by rewrite (Hall c1 Hc1), (Hall c2 Hc2).
  - destruct Hlaid as (Hlen & Hu & [lo Hlo]).
    destruct H2 as (lo' & hi' & Hlo' & Hhi' & Hends).
    destruct (contiguous_bounds _ lo Hne Hlo) as [Hlow Hhigh].
    rewrite <- (lowestIndex_unique _ _ _ Hlow Hlo') in Hends.
    rewrite <- (highestIndex_unique _ _ _ Hhigh Hhi') in Hends.
    unfold Spread.sortByRank.
    pose proof (sort_by_perm Card.getRankIndex (Spread.cards s ++ [card]))
      as Hsort.
    split; [|split].
    + rewrite sort_by_length, length_app. simpl. lia.
    + intros c1 c2 Hc1 Hc2. rewrite Hsort in Hc1, Hc2.
      assert (forall c, c ∈ Spread.cards s ++ [card] ->
                        Card.suit c = Card.suit card) as Hall.
      { intros c Hc. apply elem_of_app in Hc as [Hc|Hc].
        - symmetry. by apply H1.
        - by apply list_elem_of_singleton in Hc as ->. }
      by rewrite (Hall c1 Hc1), (Hall c2 Hc2).
    + assert (length (Array.sort_by Card.getRankIndex (Spread.cards s ++ [card]))
              = S (length (Spread.cards s))) as Hlen'.
      { rewrite sort_by_length, length_app. simpl. lia. }
      unfold contiguousRanks. rewrite Hlen'.
      destruct Hends as [Hend|Hend].
      * exists (lo - 1). rewrite Hsort, map_app, progression_S. simpl.
        rewrite <- Permutation_cons_append, Hend, Hlo.
        by replace (lo - 1 + 1) with lo by lia.
      * exists lo. rewrite Hsort, map_app, progression_snoc. simpl.
        rewrite Hlo, Hend.
        by replace (lo + Z.of_nat (length (Spread.cards s)) - 1 + 1)
          with (lo + Z.of_nat (length (Spread.cards s))) by lia.
Qed.





End TableInvariant.


(** ** Chains of calls and the states they reach *)

Section Chains.

Import Rules Spec.

Lemma reached_after (op : Game.Op) (g : option Game.t) :
  reached g -> is_Some (Demo.after op g) -> reached (Demo.after op g).
Proof.
  destruct g as [g|]; simpl; [|tauto].
  intros Hg [g' Hg']. rewrite Hg'. simpl. by eapply Game.reach_step.
Qed.

Lemma reached_initialize env playerCount name g0 :
  is_Some (Game.initialize env playerCount name g0) ->
  reached (Game.initialize env playerCount name g0).
Proof.
  intros [g Hg]. rewrite Hg. simpl. by eapply Game.reach_init.
Qed.

Lemma reached_dealt : reached Demo.dealt.
Proof. apply reached_initialize. vm_compute. eexists. reflexivity. Qed.

Lemma reached_seatOneKnocked : reached Demo.seatOneKnocked.
Proof.
  do 4 (apply reached_after; [|vm_compute; eexists; reflexivity]).
  exact reached_dealt.
Qed.

Lemma reached_secondRound : reached Demo.secondRound.
Proof.
  apply reached_after; [exact reached_seatOneKnocked|].
  vm_compute. eexists. reflexivity.
Qed.

(** C4, at the second round of [Demo.secondRound]: the state is reachable,
    the deal left nobody with an initial tonk and the phase is
    START_OF_TURN, but the seat to act is seat 1, where the first round
    ended, and not seat 0. *)
Theorem next_round_starts_at_last_seat :
  exists g,
    Demo.secondRound = Some g
    /\ Game.Reachable g
    /\ Game.checkInitialTonk g = []
    /\ Game.phase g = START_OF_TURN
    /\ Game.currentPlayerIndex g = 1%nat.
Proof.
  pose proof reached_secondRound as Hreach.
  assert (Game.checkInitialTonk <$> Demo.secondRound = Some []) as H1
    by (vm_compute; reflexivity).
  assert (Game.phase <$> Demo.secondRound = Some START_OF_TURN) as H2
    by (vm_compute; reflexivity).
  assert (Game.currentPlayerIndex <$> Demo.secondRound = Some 1%nat) as H3
    by (vm_compute; reflexivity).
  destruct Demo.secondRound as [g|]; [|destruct Hreach].
  exists g. simpl in *.
  injection H1 as H1. injection H2 as H2. injection H3 as H3.
  split; [reflexivity|]. split; [exact Hreach|].
  split; [exact H1|]. split; [exact H2|exact H3].
Qed.

Lemma reached_bookLaid : reached Demo.bookLaid.
Proof.
  apply reached_after; [exact reached_dealt|].
  vm_compute. eexists. reflexivity.
Qed.

Lemma reached_bookHit : reached Demo.bookHit.
Proof.
  apply reached_after; [exact reached_bookLaid|].
  vm_compute. eexists. reflexivity.
Qed.

(** C1, at the reachable state [Demo.bookLaid] (phase START_OF_TURN, seat
    0 to act with the hand A♥ 5♠, the book 7♥ 7♦ 7♣ on the table):
    [hitSpread] with 7♠, which seat 0 does not hold, returns without an
    error, leaves every hand as it was and puts 7♠ into the book; and
    [laySpread] with three kings, none of them in the hand, returns
    without an error and puts a second spread on the table. *)
Theorem unowned_card_accepted :
  exists g p,
    Demo.bookLaid = Some g
    /\ Game.Reachable g
    /\ Game.phase g = START_OF_TURN
    /\ Game.getCurrentPlayer g = Some p
    /\ Player.hand p
       = [Demo.card Card.RA Card.hearts; Demo.card Card.R5 Card.spades]
    /\ map Spread.cards (Game.spreadsOnTable g)
       = [[Demo.card Card.R7 Card.hearts; Demo.card Card.R7 Card.diamonds;
           Demo.card Card.R7 Card.clubs]]
    /\ (let r := Game.hitSpread (Demo.card Card.R7 Card.spades) 0 g in
        Game.isThrow r = false
        /\ map Player.hand (Game.players (Game.stateOf r))
           = map Player.hand (Game.players g)
        /\ map Spread.cards (Game.spreadsOnTable (Game.stateOf r))
           = [[Demo.card Card.R7 Card.hearts; Demo.card Card.R7 Card.diamonds;
               Demo.card Card.R7 Card.clubs; Demo.card Card.R7 Card.spades]])
    /\ (let r := Game.laySpread
                   [Demo.card Card.RK Card.hearts;
                    Demo.card Card.RK Card.diamonds;
                    Demo.card Card.RK Card.clubs] g in
        Game.isThrow r = false
        /\ map Player.hand (Game.players (Game.stateOf r))
           = map Player.hand (Game.players g)
        /\ length (Game.spreadsOnTable (Game.stateOf r)) = 2%nat).
Proof.
  pose proof reached_bookLaid as Hreach.
  assert ((fun g =>
             (Game.phase g, Player.hand <$> Game.getCurrentPlayer g,
              map Spread.cards (Game.spreadsOnTable g)))
          <$> Demo.bookLaid
          = Some (START_OF_TURN,
                  Some [Demo.card Card.RA Card.hearts;
                        Demo.card Card.R5 Card.spades],
                  [[Demo.card Card.R7 Card.hearts;
                    Demo.card Card.R7 Card.diamonds;
                    Demo.card Card.R7 Card.clubs]])) as H1.
  { vm_compute. reflexivity. }
  assert ((fun g =>
             let r := Game.hitSpread (Demo.card Card.R7 Card.spades) 0 g in
             (Game.isThrow r,
              bool_decide (map Player.hand (Game.players (Game.stateOf r))
                           = map Player.hand (Game.players g)),
              map Spread.cards (Game.spreadsOnTable (Game.stateOf r))))
          <$> Demo.bookLaid
          = Some (false, true,
                  [[Demo.card Card.R7 Card.hearts;
                    Demo.card Card.R7 Card.diamonds;
                    Demo.card Card.R7 Card.clubs;
                    Demo.card Card.R7 Card.spades]])) as H2.
  { vm_compute. reflexivity. }
  assert ((fun g =>
             let r := Game.laySpread
                        [Demo.card Card.RK Card.hearts;
                         Demo.card Card.RK Card.diamonds;
                         Demo.card Card.RK Card.clubs] g in
             (Game.isThrow r,
              bool_decide (map Player.hand (Game.players (Game.stateOf r))
                           = map Player.hand (Game.players g)),
              length (Game.spreadsOnTable (Game.stateOf r))))
          <$> Demo.bookLaid
          = Some (false, true, 2%nat)) as H3.
  { vm_compute. reflexivity. }
  destruct Demo.bookLaid as [g|]; [|destruct Hreach].
  simpl in Hreach, H1, H2, H3.
  injection H1 as Hphase Hcur Htable.
  injection H2 as Hthrow2 Hhands2 Htable2.
  injection H3 as Hthrow3 Hhands3 Htable3.
  apply bool_decide_eq_true in Hhands2, Hhands3.
  destruct (Game.getCurrentPlayer g) as [p|] eqn:Ecur; [|discriminate Hcur].
  injection Hcur as Hhand.
  exists g, p. split; [reflexivity|]. split; [exact Hreach|].
  split; [exact Hphase|]. split; [exact Ecur|]. split; [exact Hhand|].
  split; [exact Htable|]. split.
  - split; [exact Hthrow2|]. split; [exact Hhands2|exact Htable2].
  - split; [exact Hthrow3|]. split; [exact Hhands3|exact Htable3].
Qed.

(** C2, at the reachable state [Demo.bookHit], produced by [initialize],
    a legal [laySpread] and the [hitSpread] of C1: 7♠ is in the draw pile
    and in the book at once, so the piles, hands and spreads hold 53
    cards and are no arrangement of the 52-card deck. *)
Theorem reachable_state_duplicates_card :
  exists g,
    Demo.bookHit = Some g
    /\ Game.Reachable g
    /\ Demo.card Card.R7 Card.spades ∈ Deck.cards (Game.deck g)
    /\ Demo.card Card.R7 Card.spades
       ∈ concat (map Spread.cards (Game.spreadsOnTable g))
    /\ length (Game.allCards g) = 53%nat
    /\ ~ Game.allCards g ≡ₚ Deck.generateDeck.
Proof.
  pose proof reached_bookHit as Hreach.
  assert ((fun g =>
             (bool_decide (Demo.card Card.R7 Card.spades
                           ∈ Deck.cards (Game.deck g)),
              bool_decide (Demo.card Card.R7 Card.spades
                           ∈ concat (map Spread.cards (Game.spreadsOnTable g))),
              length (Game.allCards g)))
          <$> Demo.bookHit = Some (true, true, 53%nat)) as H1.
  { vm_compute. reflexivity. }
  destruct Demo.bookHit as [g|]; [|destruct Hreach].
  simpl in Hreach, H1. injection H1 as Hdeck Htable Hlen.
  apply bool_decide_eq_true in Hdeck, Htable.
  exists g. split; [reflexivity|]. split; [exact Hreach|].
  split; [exact Hdeck|]. split; [exact Htable|]. split; [exact Hlen|].
  intros Hperm. apply Permutation_length in Hperm.
  rewrite Hlen in Hperm. vm_compute in Hperm. discriminate Hperm.
Qed.

End Chains.

(** ** The deck and the hand of a player *)

Section DeckFacts.

(** X19: Whatever values [Math.random()] returns, [shuffle] rearranges the
    array it is given, each swap being made between two positions
    [j <= i] of the array: no card is lost, added or duplicated.  A new
    deck therefore holds each of the 52 cards exactly once in its draw
    pile, and nothing in its discard pile. *)
Theorem shuffled_deck (random : nat -> Deck.Rand) :
  (forall cs, Deck.shuffle random cs ≡ₚ cs)
  /\ (forall u i, (Deck.randomBelow u (i + 1) <= i)%nat)
  /\ length (Deck.cards (Deck.new random)) = 52%nat
  /\ NoDup (Deck.cards (Deck.new random))
  /\ (forall c, c ∈ Deck.cards (Deck.new random))
  /\ Deck.discardPile (Deck.new random) = [].
Proof.
  destruct (new_deck random) as [Hperm Hdisc].
  split; [intros cs; apply shuffle_loop_perm|].
  split; [intros u i; pose proof (randomBelow_lt u (i + 1)); lia|].
  split; [by rewrite Hperm|]. split; [|split; [|exact Hdisc]].
  - rewrite Hperm. apply generateDeck_NoDup.
  - intros c. rewrite Hperm.
    apply (bool_decide_unpack _). by destruct c as [[] []]; vm_compute.
Qed.

(** X20: The piles are stacks whose top is the end of the array.  [draw]
    answers [null] exactly on an empty draw pile, which it leaves alone,
    and otherwise takes the last card; a card put on the discard pile is
    its top, and drawing it again restores the deck. *)
Theorem deck_piles (d : Deck.t) :
  (Deck.isEmpty d = true -> Deck.draw d = (None, d))
  /\ (Deck.isEmpty d = false ->
      exists c rest,
        Deck.cards d = rest ++ [c]
        /\ Deck.draw d = (Some c, Deck.mk rest (Deck.discardPile d))
        /\ Deck.cardsRemaining d = S (length rest))
  /\ (forall card,
        Deck.getTopDiscard (Deck.discard card d) = Some card
        /\ Deck.drawFromDiscard (Deck.discard card d) = (Some card, d)
        /\ Deck.draw (Deck.discard card d)
           = (fst (Deck.draw d), Deck.discard card (snd (Deck.draw d))))
  /\ (Deck.discardPile d = [] ->
      Deck.getTopDiscard d = None /\ Deck.drawFromDiscard d = (None, d)).
Proof.
  unfold Deck.isEmpty, Deck.draw, Deck.getTopDiscard, Deck.drawFromDiscard,
    Deck.discard, Deck.cardsRemaining.
  split; [|split; [|split]].
  - intros H%bool_decide_eq_true%length_zero_iff_nil. by rewrite H.
  - intros H%bool_decide_eq_false.
    destruct (Array.pop (Deck.cards d)) as [[rest c]|] eqn:Hpop.
    + apply pop_Some in Hpop. exists c, rest.
      rewrite Hpop, length_app. simpl. split; [done|]. split; [done|lia].
    + apply pop_None in Hpop. by rewrite Hpop in H.
  - intros card. simpl. rewrite pop_snoc. simpl.
    split; [done|]. split; [by destruct d|].
    by destruct (Array.pop (Deck.cards d)) as [[rest c]|].
  - intros ->. done.
Qed.

End DeckFacts.

Section HandFacts.

Lemma hasCard_elem (card : Card.t) (p : Player.t) :
  Player.hasCard card p = true <-> card ∈ Player.hand p.
Proof.
  unfold Player.hasCard. rewrite existsb_exists. split.
  - intros (c & Hin & Heq). apply equals_eq in Heq as ->.
    by apply list_elem_of_In.
  - intros Hin. exists card. split; [by apply list_elem_of_In|].
    by apply equals_eq.
Qed.

Lemma findIndex_first {A} (f : A -> bool) (l : list A) (i : nat) :
  Array.findIndex f l = Some i ->
  exists before x after,
    l = before ++ x :: after /\ length before = i /\ f x = true
    /\ (forall y, y ∈ before -> f y = false).
Proof.
  revert i. induction l as [|a l IH]; intros i; simpl; [done|].
  destruct (f a) eqn:Hfa.
  - intros [= <-]. exists [], a, l. split; [done|]. split; [done|].
    split; [done|]. intros y Hy. by apply elem_of_nil in Hy.
  - destruct (Array.findIndex f l) as [k|]; simpl; [|done].
    intros [= <-]. destruct (IH k eq_refl) as (b & x & r & -> & Hlen & Hx & Hb).
    exists (a :: b), x, r. split; [done|]. split; [by simpl; rewrite Hlen|].
    split; [done|]. intros y [->|Hy]%elem_of_cons; [done|by apply Hb].
Qed.

Lemma removeCard_first (card : Card.t) (p : Player.t) :
  card ∈ Player.hand p ->
  exists before after,
    Player.hand p = before ++ card :: after
    /\ (card ∉ before)
    /\ Player.removeCard card p
       = (Some card, Player.set_hand (before ++ after) p).
Proof.
  intros Hin. unfold Player.removeCard.
  destruct (Array.findIndex _ (Player.hand p)) as [i|] eqn:Hfind.
  - apply findIndex_first in Hfind
      as (before & x & after & Hhand & Hlen & Hx & Hbefore).
    apply equals_eq in Hx as ->. exists before, after.
    split; [done|]. split.
    + intros Hb. apply Hbefore in Hb.
      assert (Card.equals card card = true) by by apply equals_eq.
      congruence.
    + rewrite Hhand, <- Hlen.
      rewrite list_lookup_middle by done.
      by rewrite delete_middle.
  - apply (findIndex_None _ _ Hfind) in Hin.
    assert (Card.equals card card = true) by by apply equals_eq.
    congruence.
Qed.

(** X21: [removeCard] succeeds exactly for a card of the hand, which is what
    [hasCard] tests.  It then returns the card and takes its first
    occurrence out of the hand, the rest of the hand keeping its order;
    for a card that is not in the hand it returns [null] and leaves the
    player as it was. *)
Theorem removeCard_spec (card : Card.t) (p : Player.t) :
  (Player.hasCard card p = true <-> card ∈ Player.hand p)
  /\ (Player.hasCard card p = true ->
      exists before after,
        Player.hand p = before ++ card :: after
        /\ (card ∉ before)
        /\ Player.removeCard card p
           = (Some card, Player.set_hand (before ++ after) p))
  /\ (Player.hasCard card p = false -> Player.removeCard card p = (None, p)).
Proof.
  split; [apply hasCard_elem|]. split.
  - intros H%hasCard_elem. by apply removeCard_first.
  - intros Hnot. destruct (Player.removeCard card p) as [[c|] p'] eqn:Hrem.
    + apply removeCard_Some in Hrem as [-> Hperm].
      assert (card ∈ Player.hand p) as Hin
        by (rewrite Hperm; apply elem_of_cons; by left).
      apply hasCard_elem in Hin. congruence.
    + by apply removeCard_None in Hrem as [-> _].
Qed.



Lemma set_hand_self (p : Player.t) : Player.set_hand (Player.hand p) p = p.
Proof. by destruct p. Qed.

Lemma removeCard_frame (card : Card.t) (p : Player.t) :
  snd (Player.removeCard card p)
  = Player.set_hand (Player.hand (snd (Player.removeCard card p))) p.
Proof.
  unfold Player.removeCard. destruct (Array.findIndex _ _); simpl; [done|].
  by rewrite set_hand_self.
Qed.

Lemma removeCards_frame (cards : list Card.t) :
  forall p,
    snd (Player.removeCards cards p)
    = Player.set_hand (Player.hand (snd (Player.removeCards cards p))) p.
Proof.
  induction cards as [|card cards IH]; intros p; simpl.
  - by rewrite set_hand_self.
  - pose proof (removeCard_frame card p) as H1.
    destruct (Player.removeCard card p) as [c p1]. simpl in H1.
    pose proof (IH p1) as H2.
    destruct (Player.removeCards cards p1) as [removed p2]. simpl in *.
    rewrite H2, H1. done.
Qed.

End HandFacts.

(** ** Spreads in any order, and a spread that grows *)

Section SpreadOrder.

Import Spec.

Lemma uniformRank_perm (cards1 cards2 : list Card.t) :
  cards1 ≡ₚ cards2 -> uniformRank cards1 -> uniformRank cards2.
Proof.
  intros Hperm H c1 c2 H1 H2. apply H; by rewrite Hperm.
Qed.

Lemma uniformSuit_perm (cards1 cards2 : list Card.t) :
  cards1 ≡ₚ cards2 -> uniformSuit cards1 -> uniformSuit cards2.
Proof.
  intros Hperm H c1 c2 H1 H2. apply H; by rewrite Hperm.
Qed.

Lemma contiguousRanks_perm (cards1 cards2 : list Card.t) :
  cards1 ≡ₚ cards2 -> contiguousRanks cards1 -> contiguousRanks cards2.
Proof.
  intros Hperm [lo H]. exists lo. by rewrite <- Hperm.
Qed.

(** X24: The answer of [validate] does not depend on the order in which the
    cards are given. *)
Theorem validate_permutation (cards1 cards2 : list Card.t) :
  cards1 ≡ₚ cards2 -> Spread.validate cards1 = Spread.validate cards2.
Proof.
  intros Hperm.
  assert (Spread.isValidBook cards1 = Spread.isValidBook cards2) as Hbook.
  { apply Bool.eq_true_iff_eq. rewrite !isValidBook_iff.
    rewrite (Permutation_length Hperm).
    split; intros [Hlen Hrank]; (split; [done|]).
    - by apply (uniformRank_perm cards1).
    - by apply (uniformRank_perm cards2). }
  assert (Spread.isValidRun cards1 = Spread.isValidRun cards2) as Hrun.
  { apply Bool.eq_true_iff_eq. rewrite !isValidRun_iff.
    rewrite (Permutation_length Hperm).
    split; intros (Hlen & Hsuit & Hranks); (split; [done|]); split.
    - by apply (uniformSuit_perm cards1).
    - by apply (contiguousRanks_perm cards1).
    - by apply (uniformSuit_perm cards2).
    - by apply (contiguousRanks_perm cards2). }
  unfold Spread.validate. by rewrite Hbook, Hrun.
Qed.

Lemma validate_permutation_witness :
  Spread.validate
    [Demo.card Card.R7 Card.spades; Demo.card Card.R5 Card.spades;
     Demo.card Card.R6 Card.spades]
  = Spread.validate (Spread.cards Demo.run567).
Proof.
  apply validate_permutation. unfold Demo.run567. simpl. solve_Permutation.
Defined.

Lemma canAddCard_answers (s : Spread.t) (card : Card.t) :
  laid s -> exists b, Spread.canAddCard s card = Some b.
Proof.
  intros Hlaid. pose proof (laid_nonempty s Hlaid) as Hne.
  unfold laid in Hlaid. unfold Spread.canAddCard.
  destruct (Spread.type s).
  - destruct (canAddToBook_spec s card Hne (proj2 Hlaid)) as (b & Hb & _).
    by exists b.
  - destruct (canAddToRun_spec s card Hne (proj1 (proj2 Hlaid)))
      as (b & Hb & _).
    by exists b.
Qed.

(** X25: [addCard] on a spread of the table either throws the error
    "Cannot add this card to the spread", when [canAddCard] answers
    [false], or adds exactly the given card: type and owner stay, the
    spread is again a book of one rank or a run of contiguous ranks in one
    suit, a book gets the card at its end and a run is kept in ascending
    order of rank. *)
Theorem addCard_spec (card : Card.t) (s : Spread.t) :
  laid s ->
  match Spread.addCard card s with
  | inl message =>
      message = "Cannot add this card to the spread"
      /\ Spread.canAddCard s card = Some false
  | inr s' =>
      Spread.canAddCard s card = Some true
      /\ Spread.cards s' ≡ₚ Spread.cards s ++ [card]
      /\ Spread.type s' = Spread.type s
      /\ Spread.owner s' = Spread.owner s
      /\ laid s'
      /\ match Spread.type s with
         | Spread.book => Spread.cards s' = Spread.cards s ++ [card]
         | Spread.run =>
             StronglySorted Z.le (map Card.getRankIndex (Spread.cards s'))
         end
  end.
Proof.
  intros Hlaid.
  destruct (canAddCard_answers s card Hlaid) as [b Hb].
  destruct (Spread.addCard card s) as [message|s'] eqn:Hadd.
  - unfold Spread.addCard in Hadd. rewrite Hb in Hadd.
    destruct b; [done|]. by injection Hadd as <-.
  - pose proof (addCard_laid card s s' Hlaid Hadd) as Hlaid'.
    unfold Spread.addCard in Hadd. rewrite Hb in Hadd.
    destruct b; [|done]. injection Hadd as <-. simpl.
    split; [done|]. split.
    + destruct (Spread.type s); [done|].
      unfold Spread.sortByRank. by rewrite sort_by_perm.
    + split; [done|]. split; [done|]. split; [done|].
      destruct (Spread.type s); [done|]. apply sort_by_sorted.
Qed.

Lemma addCard_spec_witness :
  exists s',
    Spread.addCard (Demo.card Card.R4 Card.spades) Demo.run567 = inr s'
    /\ Spread.cards s'
       = [Demo.card Card.R4 Card.spades; Demo.card Card.R5 Card.spades;
          Demo.card Card.R6 Card.spades; Demo.card Card.R7 Card.spades]
    /\ laid s'.
Proof.
  pose proof (addCard_spec (Demo.card Card.R4 Card.spades) Demo.run567
                run567_laid) as H.
  destruct (Spread.addCard _ _) as [message|s'] eqn:Hadd; [done|].
  exists s'. split; [done|].
  destruct H as (_ & _ & _ & _ & Hlaid & _). split; [|exact Hlaid].
  vm_compute in Hadd. by injection Hadd as <-.
Defined.

End SpreadOrder.

(** ** The effect of a discard *)

Section TurnEffects.

Import Rules Spec.

Lemma hasEmptyHand_true (p : Player.t) :
  Player.hasEmptyHand p = true <-> Player.hand p = [].
Proof.
  unfold Player.hasEmptyHand. rewrite bool_decide_eq_true.
  apply length_zero_iff_nil.
Qed.

Lemma hasEmptyHand_false (p : Player.t) :
  Player.hasEmptyHand p = false <-> Player.hand p <> [].
Proof.
  unfold Player.hasEmptyHand. rewrite bool_decide_eq_false.
  by rewrite length_zero_iff_nil.
Qed.

(** X12: [discard] in the phase ACTION with a card of the current player's
    hand returns: the first occurrence of the card leaves the hand and
    becomes the top of the discard pile.  If that empties the hand the
    round is over and the player has won by TONK; otherwise the turn
    passes to the next seat, in the phase START_OF_TURN with the record
    of the turn cleared. *)
Theorem discard_spec (card : Card.t) (g : Game.t) (p : Player.t) :
  Game.phase g = ACTION ->
  Game.getCurrentPlayer g = Some p ->
  card ∈ Player.hand p ->
  exists p' g',
    Game.discard card g = Game.Ok () g'
    /\ Player.removeCard card p = (Some card, p')
    /\ Game.players g' = <[Game.currentPlayerIndex g := p']> (Game.players g)
    /\ Game.deck g' = Deck.discard card (Game.deck g)
    /\ Game.getTopDiscard g' = Some card
    /\ Game.spreadsOnTable g' = Game.spreadsOnTable g
    /\ (Player.hand p' = [] ->
        Game.phase g' = GAME_OVER
        /\ Game.winCondition g' = Some TONK
        /\ Game.winner g' = Some (Game.currentPlayerIndex g)
        /\ Game.currentPlayerIndex g' = Game.currentPlayerIndex g)
    /\ (Player.hand p' <> [] ->
        Game.phase g' = START_OF_TURN
        /\ Game.currentPlayerIndex g'
           = ((Game.currentPlayerIndex g + 1) mod length (Game.players g))%nat
        /\ Game.hasDrawnThisTurn g' = false
        /\ Game.turnActions g' = []
        /\ Game.winner g' = Game.winner g
        /\ Game.winCondition g' = Game.winCondition g).
Proof.
  intros Hphase Hp Hin.
  destruct (removeCard_first card p Hin) as (before & after & Hhand & _ & Hrem).
  exists (Player.set_hand (before ++ after) p).
  unfold Game.discard. rewrite Hphase, Hp, Hrem.
  rewrite bool_decide_eq_false_2 by (intros H; by apply H).
  destruct (Player.hasEmptyHand _) eqn:Hempty; eexists; (split; [reflexivity|]);
    (split; [reflexivity|]).
  - apply hasEmptyHand_true in Hempty.
    unfold Game.getTopDiscard, Deck.getTopDiscard. simpl.
    rewrite pop_snoc. split_and!; try reflexivity; [by intros _|done].
  - apply hasEmptyHand_false in Hempty.
    unfold Game.getTopDiscard, Deck.getTopDiscard. simpl.
    rewrite pop_snoc, length_insert.
    split_and!; try reflexivity; [done|by intros _].
Qed.

Lemma discard_spec_witness :
  exists g',
    Game.discard (Demo.card Card.R2 Card.clubs) Demo.acting = Game.Ok () g'
    /\ Game.getTopDiscard g' = Some (Demo.card Card.R2 Card.clubs)
    /\ Game.phase g' = START_OF_TURN
    /\ Game.currentPlayerIndex g' = 1%nat.
Proof.
  destruct (discard_spec (Demo.card Card.R2 Card.clubs) Demo.acting
              (Demo.seat 0 [Demo.card Card.R5 Card.hearts;
                            Demo.card Card.R2 Card.clubs;
                            Demo.card Card.R3 Card.diamonds])
              eq_refl eq_refl)
    as (p' & g' & Hdiscard & Hrem & _ & _ & Htop & _ & _ & Hnext).
  { apply (bool_decide_unpack _). by vm_compute. }
  exists g'. split; [exact Hdiscard|]. split; [exact Htop|].
  vm_compute in Hrem. injection Hrem as <-.
  destruct Hnext as (Hphase & Hseat & _); [done|].
  split; [exact Hphase|]. rewrite Hseat. reflexivity.
Defined.

End TurnEffects.

(** ** The effect of a draw, of a spread laid and of a hit *)

Section Draws.

Import Rules Spec.

(** X11: In the phase DRAW the current player gets the top card of the pile it
    draws from, at the end of its hand, and the phase becomes ACTION; the
    other pile, the other hands and the table stay as they are.  On an
    empty discard pile [drawFromDiscard] returns [undefined] and leaves
    the game as it is, still in the phase DRAW. *)
Theorem draw_spec (g : Game.t) (p : Player.t) :
  Game.phase g = DRAW ->
  Game.getCurrentPlayer g = Some p ->
  (forall rest c,
     Deck.cards (Game.deck g) = rest ++ [c] ->
     exists g',
       Game.drawFromDeck g = Game.Ok (Some c) g'
       /\ Game.phase g' = ACTION
       /\ Game.hasDrawnThisTurn g' = true
       /\ Game.deck g' = Deck.mk rest (Deck.discardPile (Game.deck g))
       /\ Game.players g'
          = <[Game.currentPlayerIndex g := Player.addCard c p]> (Game.players g)
       /\ Game.currentPlayerIndex g' = Game.currentPlayerIndex g
       /\ Game.spreadsOnTable g' = Game.spreadsOnTable g)
  /\ (forall rest c,
        Deck.discardPile (Game.deck g) = rest ++ [c] ->
        exists g',
          Game.drawFromDiscard g = Game.Ok (Some c) g'
          /\ Game.phase g' = ACTION
          /\ Game.hasDrawnThisTurn g' = true
          /\ Game.deck g' = Deck.mk (Deck.cards (Game.deck g)) rest
          /\ Game.players g'
             = <[Game.currentPlayerIndex g := Player.addCard c p]>
                 (Game.players g)
          /\ Game.currentPlayerIndex g' = Game.currentPlayerIndex g
          /\ Game.spreadsOnTable g' = Game.spreadsOnTable g)
  /\ (Deck.discardPile (Game.deck g) = [] ->
      Game.drawFromDiscard g = Game.Ok None g).
Proof.
  intros Hphase Hp. split; [|split].
  - intros rest c Hcards. unfold Game.drawFromDeck, Deck.draw.
    rewrite Hphase, Hcards, pop_snoc.
    rewrite bool_decide_eq_false_2 by (intros H; by apply H).
    unfold Game.getCurrentPlayer in *. cbn [Game.players
      Game.currentPlayerIndex Game.set_deck]. rewrite Hp.
    eexists. split; [reflexivity|]. by split_and!.
  - intros rest c Hcards. unfold Game.drawFromDiscard, Deck.drawFromDiscard.
    rewrite Hphase, Hcards, pop_snoc.
    rewrite bool_decide_eq_false_2 by (intros H; by apply H).
    unfold Game.getCurrentPlayer in *. cbn [Game.players
      Game.currentPlayerIndex Game.set_deck]. rewrite Hp.
    eexists. split; [reflexivity|]. by split_and!.
  - intros Hempty. unfold Game.drawFromDiscard, Deck.drawFromDiscard.
    rewrite Hphase, Hempty.
    rewrite bool_decide_eq_false_2 by (intros H; by apply H).
    simpl. by destruct g.
Qed.

Lemma draw_spec_witness :
  exists g',
    Game.drawFromDeck Demo.drawing
    = Game.Ok (Some (Demo.card Card.R3 Card.diamonds)) g'
    /\ Game.phase g' = ACTION
    /\ Deck.cards (Game.deck g') = [Demo.card Card.RK Card.diamonds].
Proof.
  destruct (draw_spec Demo.drawing
              (Demo.seat 0 [Demo.card Card.R5 Card.hearts;
                            Demo.card Card.R2 Card.clubs])
              eq_refl eq_refl) as (Hdeck & _ & _).
  destruct (Hdeck [Demo.card Card.RK Card.diamonds]
              (Demo.card Card.R3 Card.diamonds) eq_refl)
    as (g' & Hdraw & Hphase & _ & Hpile & _).
  exists g'. split; [exact Hdraw|]. split; [exact Hphase|]. by rewrite Hpile.
Defined.

End Draws.

Section Spreads.

Import Rules Spec.




(** X14: [hitSpread] with a card of the current player's hand that the spread
    accepts, in the phase ACTION or START_OF_TURN, returns: the first
    occurrence of the card leaves the hand and the card joins the spread,
    which stays at its place on the table.  The round is won by TONK if
    the hand is then empty; otherwise the phase does not change. *)
Theorem hitSpread_spec (card : Card.t) (spread : nat) (g : Game.t)
    (p : Player.t) (s : Spread.t) :
  Game.phase g = ACTION \/ Game.phase g = START_OF_TURN ->
  Game.getCurrentPlayer g = Some p ->
  Game.spreadsOnTable g !! spread = Some s ->
  Spread.canAddCard s card = Some true ->
  card ∈ Player.hand p ->
  exists p' s' g',
    Game.hitSpread card spread g = Game.Ok () g'
    /\ Player.removeCard card p = (Some card, p')
    /\ Spread.addCard card s = inr s'
    /\ Spread.cards s' ≡ₚ card :: Spread.cards s
    /\ Game.spreadsOnTable g' = <[spread := s']> (Game.spreadsOnTable g)
    /\ Game.players g' = <[Game.currentPlayerIndex g := p']> (Game.players g)
    /\ Game.deck g' = Game.deck g
    /\ Game.currentPlayerIndex g' = Game.currentPlayerIndex g
    /\ (Player.hand p' = [] ->
        Game.phase g' = GAME_OVER
        /\ Game.winCondition g' = Some TONK
        /\ Game.winner g' = Some (Game.currentPlayerIndex g))
    /\ (Player.hand p' <> [] ->
        Game.phase g' = Game.phase g
        /\ Game.winner g' = Game.winner g
        /\ Game.winCondition g' = Game.winCondition g).
Proof.
  intros Hphase Hp Hs Hcan Hin.
  destruct (removeCard_first card p Hin) as (before & after & _ & _ & Hrem).
  exists (Player.set_hand (before ++ after) p).
  destruct (Spread.addCard card s) as [message|s'] eqn:Hadd.
  { unfold Spread.addCard in Hadd. by rewrite Hcan in Hadd. }
  exists s'. pose proof (addCard_cards card s s' Hadd) as [Hcards _].
  unfold Game.hitSpread. rewrite Hs, Hcan, Hp, Hrem.
  assert (bool_decide (Game.phase g <> ACTION)
          && bool_decide (Game.phase g <> START_OF_TURN) = false) as ->.
  { destruct Hphase as [-> | ->]; done. }
  cbn [Game.updateCurrentPlayer]. rewrite Hadd.
  destruct (Player.hasEmptyHand _) eqn:Hempty; eexists;
    (split; [reflexivity|]); (split; [reflexivity|]);
    (split; [reflexivity|]); (split; [exact Hcards|]).
  - apply hasEmptyHand_true in Hempty. by split_and!.
  - apply hasEmptyHand_false in Hempty. by split_and!.
Qed.

Lemma hitSpread_spec_witness :
  exists g',
    Game.hitSpread (Demo.card Card.R4 Card.spades) 0 Demo.hitting
    = Game.Ok () g'
    /\ Spread.cards <$> Game.spreadsOnTable g' !! 0%nat
       = Some [Demo.card Card.R4 Card.spades; Demo.card Card.R5 Card.spades;
               Demo.card Card.R6 Card.spades; Demo.card Card.R7 Card.spades]
    /\ Game.phase g' = START_OF_TURN.
Proof.
  destruct (hitSpread_spec (Demo.card Card.R4 Card.spades) 0 Demo.hitting
              (Demo.seat 1 [Demo.card Card.R4 Card.spades;
                            Demo.card Card.R4 Card.hearts;
                            Demo.card Card.R4 Card.diamonds;
                            Demo.card Card.R9 Card.spades])
              Demo.run567 (or_intror eq_refl) eq_refl eq_refl eq_refl)
    as (p' & s' & g' & Hhit & Hrem & Hadd & _ & Htable & _ & _ & _ & _ & Hgo).
  { apply (bool_decide_unpack _). by vm_compute. }
  exists g'. split; [exact Hhit|].
  vm_compute in Hrem. injection Hrem as <-.
  vm_compute in Hadd. injection Hadd as <-.
  split; [by rewrite Htable|]. by destruct Hgo as (Hphase & _).
Defined.

End Spreads.

(** ** Bets and the pot *)

Section Chips.

Import Rules Spec.

Lemma lookup_split {A} (l : list A) (i : nat) (x y : A) :
  l !! i = Some x ->
  exists before after,
    l = before ++ x :: after /\ <[i := y]> l = before ++ y :: after.
Proof.
  intros Hx. exists (take i l), (drop (S i) l). split.
  - by rewrite take_drop_middle.
  - apply insert_take_drop. by apply lookup_lt_Some in Hx.
Qed.

Lemma sum_by_insert {A} (f : A -> Z) (l : list A) (i : nat) (x y : A) :
  l !! i = Some x ->
  Array.sum_by f (<[i := y]> l) = Array.sum_by f l - f x + f y.
Proof.
  intros Hx. destruct (lookup_split l i x y Hx) as (b & a & Hl & ->).
  rewrite Hl, !sum_by_app, !sum_by_cons. lia.
Qed.

(** X15: [placeBet] rejects an eliminated player.  From any other player it
    takes the amount asked, but no more than the player's chips: that many
    chips move to the pot and are added to the player's bet of the round,
    the highest bet follows, and the chips in play stay the same. *)
Theorem placeBet_spec (player : nat) (amount : Z) (g : Game.t)
    (p : Player.t) :
  Game.players g !! player = Some p ->
  (Player.isEliminated p = true ->
   Game.placeBet player amount g
   = Game.Throw "Eliminated players cannot bet" g)
  /\ (Player.isEliminated p = false ->
      exists p' g',
        Game.placeBet player amount g
        = Game.Ok (Z.min amount (Player.chips p)) g'
        /\ Game.players g' = <[player := p']> (Game.players g)
        /\ Player.chips p' = Player.chips p - Z.min amount (Player.chips p)
        /\ Player.currentBet p'
           = Player.currentBet p + Z.min amount (Player.chips p)
        /\ Player.hand p' = Player.hand p
        /\ Game.pot g' = Game.pot g + Z.min amount (Player.chips p)
        /\ Game.highestBet g'
           = Z.max (Game.highestBet g) (Player.currentBet p')
        /\ Game.chipsInPlay g' = Game.chipsInPlay g
        /\ (0 <= amount -> 0 <= Player.chips p ->
            0 <= Z.min amount (Player.chips p) <= amount
            /\ 0 <= Player.chips p')).
Proof.
  intros Hp. unfold Game.placeBet. rewrite Hp. split; intros ->; [done|].
  unfold Player.bet.
  set (a := Z.min amount (Player.chips p)).
  set (p' := Player.set_betting _ _ _ p).
  exists p'.
  assert (Game.chipsInPlay
            (Game.set_pot (Game.pot g + a)
               (Game.set_players (<[player := p']> (Game.players g)) g))
          = Game.chipsInPlay g) as Hchips.
  { unfold Game.chipsInPlay. simpl. rewrite (sum_by_insert _ _ _ p) by done.
    subst p'. simpl. lia. }
  cbn [Game.highestBet Game.set_pot Game.set_players].
  destruct (Game.highestBet g <? Player.currentBet p') eqn:Hhigh;
    eexists; (split; [reflexivity|]); split_and!; try done;
    try (subst p' a; simpl in *; lia).
Qed.

Lemma placeBet_spec_witness :
  exists g',
    Game.placeBet 0 1500 Demo.tiedKnock = Game.Ok 1000 g'
    /\ Game.pot g' = 1000
    /\ Game.chipsInPlay g' = 2000.
Proof.
  destruct (placeBet_spec 0 1500 Demo.tiedKnock
              (Demo.seat 0 [Demo.card Card.R5 Card.hearts]) eq_refl)
    as [_ Hbet].
  destruct (Hbet eq_refl) as (p' & g' & Hplace & _ & _ & _ & _ & Hpot & _
                              & Hchips & _).
  exists g'. split; [exact Hplace|]. split; [exact Hpot|]. exact Hchips.
Defined.

(** X16: [awardPot] returns the pot and gives it to the winner: the pot is then
    empty, nobody else's chips change and the chips in play stay the same.
    Awarding once more gives nothing. *)
Theorem awardPot_spec (winner : nat) (g : Game.t) (p : Player.t) :
  Game.players g !! winner = Some p ->
  exists g',
    Game.awardPot winner g = Game.Ok (Game.pot g) g'
    /\ Game.players g'
       = <[winner := Player.receiveChips (Game.pot g) p]> (Game.players g)
    /\ Player.chips (Player.receiveChips (Game.pot g) p)
       = Player.chips p + Game.pot g
    /\ Game.pot g' = 0
    /\ Game.chipsInPlay g' = Game.chipsInPlay g
    /\ exists g'',
         Game.awardPot winner g' = Game.Ok 0 g''
         /\ Game.players g'' = Game.players g'.
Proof.
  intros Hp. unfold Game.awardPot at 1. rewrite Hp.
  eexists. split; [reflexivity|]. split; [done|]. split; [done|].
  split; [done|]. split.
  - unfold Game.chipsInPlay. simpl. rewrite (sum_by_insert _ _ _ p) by done.
    simpl. lia.
  - unfold Game.awardPot. simpl.
    rewrite list_lookup_insert_eq by (by apply lookup_lt_Some in Hp).
    eexists. split; [reflexivity|]. simpl. rewrite list_insert_insert_eq.
    f_equal. unfold Player.receiveChips, Player.set_betting. simpl.
    f_equal. lia.
Qed.

Lemma awardPot_spec_witness :
  exists g',
    Game.awardPot 1 Demo.allIn = Game.Ok 2000 g'
    /\ Player.chips <$> Game.players g' !! 1%nat = Some 2000
    /\ Game.pot g' = 0.
Proof.
  assert (exists p, Game.players Demo.allIn !! 1%nat = Some p
                    /\ Player.chips p = 0 /\ Game.pot Demo.allIn = 2000)
    as (p & Hp & Hchips & Hpot) by (eexists; by vm_compute).
  destruct (awardPot_spec 1 Demo.allIn p Hp)
    as (g' & Haward & Hplayers & Hwon & Hzero & _).
  exists g'. rewrite Hpot in *. split; [exact Haward|].
  split; [|exact Hzero].
  rewrite Hplayers, list_lookup_insert_eq by (by apply lookup_lt_Some in Hp).
  simpl. by rewrite Hchips.
Defined.

End Chips.

(** ** When a call is rejected *)

Section RejectionConditions.

Import Rules Spec.

Lemma not_and_phase (g : Game.t) :
  bool_decide (Game.phase g <> ACTION)
  && bool_decide (Game.phase g <> START_OF_TURN) = true
  <-> Game.phase g <> ACTION /\ Game.phase g <> START_OF_TURN.
Proof.
  by rewrite andb_true_iff, !bool_decide_eq_true.
Qed.

Lemma hitSpread_rejects (card : Card.t) (spread : nat) (g : Game.t)
    (s : Spread.t) :
  hasCurrentPlayer g ->
  Game.spreadsOnTable g !! spread = Some s ->
  laid s ->
  Game.isThrow (Game.hitSpread card spread g) = true
  <-> (Game.phase g <> ACTION /\ Game.phase g <> START_OF_TURN)
      \/ Spread.canAddCard s card = Some false.
Proof.
  intros Hcur Hs Hlaid. destruct (lookup_lt_is_Some_2 _ _ Hcur) as [p Hp].
  destruct (canAddCard_answers s card Hlaid) as [b Hb].
  unfold Game.hitSpread, Game.getCurrentPlayer. rewrite Hs, Hb, Hp.
  destruct (bool_decide (Game.phase g <> ACTION)
            && bool_decide (Game.phase g <> START_OF_TURN)) eqn:Hphase.
  { apply not_and_phase in Hphase. simpl. split; [by left|done]. }
  assert (~ (Game.phase g <> ACTION /\ Game.phase g <> START_OF_TURN))
    as Hnot.
  { intros H%not_and_phase. congruence. }
  destruct b; simpl.
  - destruct (Player.removeCard card p) as [removed p1].
    unfold Spread.addCard. rewrite Hb.
    destruct (Player.hasEmptyHand p1); simpl;
      (split; [done|]; intros [?|?]; done).
  - split; [by right|done].
Qed.

Lemma discard_rejects (card : Card.t) (g : Game.t) (p : Player.t) :
  Game.getCurrentPlayer g = Some p ->
  Game.isThrow (Game.discard card g) = true
  <-> Game.phase g <> ACTION \/ card ∉ Player.hand p.
Proof.
  intros Hp. unfold Game.discard. rewrite Hp.
  case_bool_decide as Hphase; simpl; [split; [by left|done]|].
  destruct (Player.removeCard card p) as [[c|] p1] eqn:Hrem.
  - apply removeCard_Some in Hrem as [-> Hperm].
    assert (card ∈ Player.hand p) as Hin
      by (rewrite Hperm; apply elem_of_cons; by left).
    destruct (Player.hasEmptyHand p1); simpl;
      (split; [done|]; intros [?|?]; done).
  - apply removeCard_None in Hrem as [-> Hnot]. simpl.
    split; [by right|done].
Qed.

(** X3: The only grounds on which the calls of a turn are rejected, for a game
    with a current player: the phase; for [laySpread] a set of cards that
    is no spread; for [hitSpread] a card that the spread does not accept;
    for [discard] a card that is not in the current player's hand.  No call
    is rejected for who makes it, and [laySpread] and [hitSpread] are not
    rejected for cards that the current player does not hold. *)
Theorem rejection_conditions (g : Game.t) (p : Player.t) :
  Game.getCurrentPlayer g = Some p ->
  (Game.isThrow (Game.proceedToDraw g) = true
   <-> Game.phase g <> START_OF_TURN)
  /\ (Game.isThrow (Game.knock g) = true <-> Game.phase g <> START_OF_TURN)
  /\ (Game.isThrow (Game.drawFromDeck g) = true <-> Game.phase g <> DRAW)
  /\ (Game.isThrow (Game.drawFromDiscard g) = true <-> Game.phase g <> DRAW)
  /\ (forall cards,
        Game.isThrow (Game.laySpread cards g) = true
        <-> (Game.phase g <> ACTION /\ Game.phase g <> START_OF_TURN)
            \/ Spread.valid (Spread.validate cards) = false)
  /\ (forall card spread s,
        Game.spreadsOnTable g !! spread = Some s ->
        laid s ->
        Game.isThrow (Game.hitSpread card spread g) = true
        <-> (Game.phase g <> ACTION /\ Game.phase g <> START_OF_TURN)
            \/ Spread.canAddCard s card = Some false)
  /\ (forall card,
        Game.isThrow (Game.discard card g) = true
        <-> Game.phase g <> ACTION \/ card ∉ Player.hand p).
Proof.
  intros Hp.
  assert (hasCurrentPlayer g) as Hcur
    by (by apply lookup_lt_Some in Hp).
  split_and!.
  - unfold Game.proceedToDraw. case_bool_decide; simpl; [done|].
    split; [done|]. intros Hne. by destruct Hne.
  - unfold Game.knock. case_bool_decide; simpl; [done|]. rewrite Hp.
    destruct (Game.knockLoop _ _ _ _ _). simpl.
    split; [done|]. intros Hne. by destruct Hne.
  - unfold Game.drawFromDeck. case_bool_decide; simpl; [done|].
    assert (Game.isThrow
              (let '(card, d1) := Deck.draw (Game.deck g) in
               match card with
               | Some c =>
                   match Game.getCurrentPlayer (Game.set_deck d1 g) with
                   | Some player =>
                       Game.Ok (Some c)
                         (Game.emit
                            (Game.cardDrawn (Game.currentPlayerIndex g) false c)
                            (Game.set_phase ACTION
                               (Game.pushAction (Game.ActDraw false c)
                                  (Game.set_hasDrawnThisTurn true
                                     (Game.updateCurrentPlayer
                                        (Player.addCard c player)
                                        (Game.set_deck d1 g))))))
                   | None => Game.Throw "TypeError" (Game.set_deck d1 g)
                   end
               | None =>
                   match Game.endGameStockEmpty (Game.set_deck d1 g) with
                   | Game.Ok _ g2 => Game.Ok None g2
                   | Game.Throw m g2 => Game.Throw m g2
                   end
               end) = false) as ->.
    { destruct (Deck.draw (Game.deck g)) as [[c|] d1].
      - unfold Game.getCurrentPlayer in *. simpl. by rewrite Hp.
      - unfold Game.endGameStockEmpty. simpl.
        destruct (Game.players g) eqn:E; [|done].
        unfold Game.getCurrentPlayer in Hp. by rewrite E in Hp. }
    split; [done|]. intros Hne. by destruct Hne.
  - unfold Game.drawFromDiscard. case_bool_decide; simpl; [done|].
    destruct (Deck.drawFromDiscard (Game.deck g)) as [[c|] d1]; simpl.
    + unfold Game.getCurrentPlayer in *. simpl. rewrite Hp. simpl.
      split; [done|]. intros Hne. by destruct Hne.
    + split; [done|]. intros Hne. by destruct Hne.
  - intros cards. by apply laySpread_rejects.
  - intros card spread s Hs Hlaid. by apply hitSpread_rejects.
  - intros card. by apply discard_rejects.
Qed.

Lemma rejection_conditions_witness :
  Game.isThrow (Game.discard (Demo.card Card.RK Card.spades) Demo.acting)
  = true
  /\ Game.isThrow (Game.knock Demo.acting) = true
  /\ Game.isThrow
       (Game.laySpread
          [Demo.card Card.RK Card.spades; Demo.card Card.RK Card.hearts;
           Demo.card Card.RK Card.clubs] Demo.acting) <> true.
Proof.
  destruct (rejection_conditions Demo.acting
              (Demo.seat 0 [Demo.card Card.R5 Card.hearts;
                            Demo.card Card.R2 Card.clubs;
                            Demo.card Card.R3 Card.diamonds]) eq_refl)
    as (_ & Hknock & _ & _ & Hlay & _ & Hdiscard).
  split; [|split].
  - apply Hdiscard. right. apply (bool_decide_unpack _). by vm_compute.
  - by apply Hknock.
  - intros [[H _]|H]%Hlay; [by apply H|done].
Defined.

Lemma rejection_keeps_state_witness :
  Game.isThrow (Game.discard (Demo.card Card.R5 Card.hearts) Demo.tiedKnock)
  = true
  /\ Game.stateOf
       (Game.discard (Demo.card Card.R5 Card.hearts) Demo.tiedKnock)
     = Demo.tiedKnock.
Proof.
  assert (hasCurrentPlayer Demo.tiedKnock) as Hcur
    by (unfold hasCurrentPlayer; simpl; lia).
  destruct (rejection_keeps_state Demo.tiedKnock Hcur)
    as (_ & _ & _ & _ & _ & Hdiscard & _).
  split; [reflexivity|]. apply Hdiscard. reflexivity.
Defined.

End RejectionConditions.

Section OwnChains.

Import Spec.







End OwnChains.

(** ** Coherence of the reachable states *)

Section Coherence.

Import Rules Spec.

Lemma dealAttempt_round (g : Game.t) :
  Game.winner (Game.dealAttempt g) = Game.winner g
  /\ Game.winCondition (Game.dealAttempt g) = Game.winCondition g
  /\ Game.hasDrawnThisTurn (Game.dealAttempt g) = Game.hasDrawnThisTurn g
  /\ Game.matchScores (Game.dealAttempt g) = Game.matchScores g
  /\ Game.roundNumber (Game.dealAttempt g) = Game.roundNumber g
  /\ Game.pointLimit (Game.dealAttempt g) = Game.pointLimit g
  /\ Game.matchWinner (Game.dealAttempt g) = Game.matchWinner g.
Proof.
  unfold Game.dealAttempt, Game.deal.
  destruct (Game.dealPasses _ _ _) as [d1 ps1].
  destruct (Deck.draw d1) as [firstDiscard d2].
  cbn [Game.winner Game.winCondition Game.hasDrawnThisTurn Game.matchScores
       Game.roundNumber Game.pointLimit Game.matchWinner
       Game.set_phase Game.emit Game.set_emitted Game.set_deck
       Game.set_players].
  unfold Game.collectAntes.
  by destruct (Game.anteLoop _ _) as [ps pot1].
Qed.

Lemma tonkSeats_bound (ps : list Player.t) (w : nat) :
  w ∈ Game.tonkSeats ps 0 -> (w < length ps)%nat.
Proof.
  intros (j & p & -> & Hp & _)%tonkSeats_spec. by apply lookup_lt_Some in Hp.
Qed.

Lemma settled_coherent (g1 g' : Game.t) :
  hasCurrentPlayer g1 ->
  Game.winner g1 = None ->
  Game.winCondition g1 = None ->
  Game.hasDrawnThisTurn g1 = false ->
  (if bool_decide (length (Game.checkInitialTonk g1) = 1%nat)
   then Some (Game.initialTonkWin (Game.checkInitialTonk g1) g1)
   else Some (Game.firstTurn g1)) = Some g' ->
  coherent g'.
Proof.
  intros Hcur Hwin Hcond Hdrawn.
  case_bool_decide as Hone; intros [= <-].
  - destruct (Game.checkInitialTonk g1) as [|w [|? ?]] eqn:Htonk; try done.
    assert (w < length (Game.players g1))%nat as Hw.
    { apply tonkSeats_bound. fold (Game.checkInitialTonk g1).
      rewrite Htonk. apply elem_of_cons. by left. }
    split; [by repeat right|]. split; [exact Hcur|].
    split; [intros _; by exists w, INITIAL_TONK|done].
  - split; [by left|]. split; [exact Hcur|]. split; [done|].
    intros _. split; [done|]. split; [done|]. simpl. rewrite Hdrawn.
    split; done.
Qed.

Lemma dealAndCheckInitialTonk_coherent (shuffles : list (nat -> Deck.Rand)) :
  forall g g',
    hasCurrentPlayer g ->
    Game.winner g = None ->
    Game.winCondition g = None ->
    Game.hasDrawnThisTurn g = false ->
    Game.dealAndCheckInitialTonk shuffles g = Some g' ->
    coherent g'.
Proof.
  induction shuffles as [|random shuffles IH];
    intros g g' Hcur Hwin Hcond Hdrawn;
    rewrite dealAndCheckInitialTonk_unfold; unfold voided;
    destruct (dealAttempt_cards g) as [_ Hlen];
    destruct (dealAttempt_frame g) as (Hseat & _ & _);
    destruct (dealAttempt_round g) as (Hwin1 & Hcond1 & Hdrawn1 & _);
    rewrite Hwin in Hwin1; rewrite Hcond in Hcond1;
    rewrite Hdrawn in Hdrawn1;
    assert (hasCurrentPlayer (Game.dealAttempt g)) as Hcur1
      by (unfold hasCurrentPlayer in *; by rewrite Hlen, Hseat);
    set (g1 := Game.dealAttempt g) in *;
    destruct (1 <? _)%nat eqn:Hmany; try done;
    try by apply settled_coherent.
  intros Hg'. eapply IH; [| | | |exact Hg']; try done.
  unfold hasCurrentPlayer, Game.resetForRedeal in *. simpl.
  by rewrite length_map.
Qed.

Lemma endGameStockEmpty_over (g : Game.t) :
  Game.players g <> [] ->
  exists w,
    (w < length (Game.players g))%nat
    /\ Game.endGameStockEmpty g
       = Game.Ok () (Game.endRound (Some w) STOCK_EMPTY g).
Proof.
  intros Hne. unfold Game.endGameStockEmpty.
  destruct (Game.players g) as [|first ps] eqn:Eps; [done|].
  destruct (lowestLoop_inv (first :: ps) (first :: ps) 0 0
              (Player.calculatePoints first)) as (m & Hinv).
  { done. }
  { repeat split; [by exists first|intros; lia..]. }
  destruct Hinv as ((pw & Hpw & _) & _).
  apply lookup_lt_Some in Hpw. eexists. split; [exact Hpw|done].
Qed.

Lemma exec_coherent (op : Game.Op) (g g' : Game.t) :
  coherent g -> Game.exec op g = Some g' -> coherent g'.
Proof.
  intros Hg. pose proof Hg as (Hplay & Hcur & Hover & Hround).
  destruct (lookup_lt_is_Some_2 _ _ Hcur) as [p Hp].
  destruct op; simpl; try (intros [= <-]).
  - unfold Game.initialize. cbv zeta.
    match goal with
    | |- context [Game.dealAndCheckInitialTonk _ ?s] => set (g1 := s)
    end.
    destruct (Game.dealAndCheckInitialTonk _ g1) as [g2|] eqn:Hdeal; [|done].
    intros [= <-].
    apply dealAndCheckInitialTonk_coherent in Hdeal; try done.
    unfold hasCurrentPlayer. subst g1.
    cbn [Game.players Game.currentPlayerIndex]. rewrite length_map.
    simpl. lia.
  - unfold Game.proceedToDraw. case_bool_decide as Hphase; [done|].
    simpl.
    destruct Hround as (Hw & Hc & Hd); [by rewrite Hphase|].
    split; [by right; left|]. split; [done|]. split; [done|].
    intros _. simpl. split; [done|]. split; [done|].
    rewrite Hphase in Hd. split; [|done]. intros H. by apply Hd in H.
  - unfold Game.drawFromDeck. case_bool_decide as Hphase; [done|].
    destruct Hround as (Hw & Hc & Hd); [by rewrite Hphase|].
    destruct (Deck.draw (Game.deck g)) as [[c|] d1].
    + unfold Game.getCurrentPlayer. simpl. rewrite Hp. simpl.
      split; [by right; right; left|].
      split; [unfold hasCurrentPlayer; simpl; by rewrite length_insert|].
      split; [done|]. intros _. by split_and!.
    + destruct (endGameStockEmpty_over (Game.set_deck d1 g))
        as (w & Hlt & ->).
      { simpl. intros Hnil. by rewrite Hnil in Hp. }
      simpl in *. split; [by repeat right|]. split; [done|].
      split; [|done]. intros _. by exists w, STOCK_EMPTY.
  - unfold Game.drawFromDiscard. case_bool_decide as Hphase; [done|].
    destruct Hround as (Hw & Hc & Hd); [by rewrite Hphase|].
    destruct (Deck.drawFromDiscard (Game.deck g)) as [[c|] d1] eqn:Hdraw.
    + unfold Game.getCurrentPlayer. simpl. rewrite Hp. simpl.
      split; [by right; right; left|].
      split; [unfold hasCurrentPlayer; simpl; by rewrite length_insert|].
      split; [done|]. intros _. by split_and!.
    + apply drawFromDiscard_None in Hdraw as ->. simpl.
      assert (Game.set_deck (Game.deck g) g = g) as -> by (by destruct g).
      done.
  - unfold Game.laySpread.
    destruct (_ && _) eqn:Hphase; [done|].
    destruct (negb _); [done|].
    unfold Game.getCurrentPlayer. rewrite Hp.
    destruct (Spread.vtype _) as [ty|]; [|done].
    destruct (Player.removeCards cards p) as [removed p1].
    assert (Game.phase g <> GAME_OVER) as Hnot.
    { intros Heq. rewrite Heq in Hphase. done. }
    destruct (Hround Hnot) as (Hw & Hc & Hd).
    destruct (Player.hasEmptyHand _); simpl.
    + split; [by repeat right|].
      split; [unfold hasCurrentPlayer; simpl; by rewrite length_insert|].
      split; [|done]. intros _.
      exists (Game.currentPlayerIndex g), TONK. simpl.
      rewrite length_insert. by split_and!.
    + split; [done|].
      split; [unfold hasCurrentPlayer; simpl; by rewrite length_insert|].
      split; [done|]. intros _. by split_and!.
  - unfold Game.hitSpread.
    destruct (_ && _) eqn:Hphase; [done|].
    destruct (Game.spreadsOnTable g !! spread) as [s|]; [|done].
    destruct (Spread.canAddCard s card) as [[|]|] eqn:Hcan; try done.
    unfold Game.getCurrentPlayer. rewrite Hp.
    destruct (Player.removeCard card p) as [removed p1].
    unfold Spread.addCard. rewrite Hcan.
    assert (Game.phase g <> GAME_OVER) as Hnot.
    { intros Heq. rewrite Heq in Hphase. done. }
    destruct (Hround Hnot) as (Hw & Hc & Hd).
    destruct (Player.hasEmptyHand _); simpl.
    + split; [by repeat right|].
      split; [unfold hasCurrentPlayer; simpl; by rewrite length_insert|].
      split; [|done]. intros _.
      exists (Game.currentPlayerIndex g), TONK. simpl.
      rewrite length_insert. by split_and!.
    + split; [done|].
      split; [unfold hasCurrentPlayer; simpl; by rewrite length_insert|].
      split; [done|]. intros _. by split_and!.
  - unfold Game.discard. case_bool_decide as Hphase; [done|].
    destruct Hround as (Hw & Hc & Hd); [by rewrite Hphase|].
    unfold Game.getCurrentPlayer. rewrite Hp.
    destruct (Player.removeCard card p) as [[c|] p1]; [|done].
    destruct (Player.hasEmptyHand _); simpl.
    + split; [by repeat right|].
      split; [unfold hasCurrentPlayer; simpl; by rewrite length_insert|].
      split; [|done]. intros _.
      exists (Game.currentPlayerIndex g), TONK. simpl.
      rewrite length_insert. by split_and!.
    + split; [by left|]. split.
      { unfold hasCurrentPlayer. simpl. rewrite length_insert.
        apply Nat.mod_upper_bound. unfold hasCurrentPlayer in Hcur. lia. }
      split; [done|]. intros _. by split_and!.
  - unfold Game.knock. case_bool_decide as Hphase; [done|].
    unfold Game.getCurrentPlayer. rewrite Hp.
    pose proof (knockLoop_result (Game.players g) (Game.currentPlayerIndex g))
      as Hinv.
    destruct (Game.knockLoop _ _ _ _ _) as [lp lpts].
    unfold knockInv in Hinv. simpl in Hinv.
    split; [by repeat right|]. split; [by destruct lpts as [m|];
                                       [destruct (_ <? m)|]|].
    split; [|done]. intros _.
    destruct lp as [w|], lpts as [m|]; try done.
    + destruct Hinv as (_ & (pw & Hpw & _) & _).
      apply lookup_lt_Some in Hpw.
      destruct (_ <? m); simpl.
      * by exists (Game.currentPlayerIndex g), KNOCK.
      * by exists w, CAUGHT.
    + simpl. by exists (Game.currentPlayerIndex g), KNOCK.
  - unfold Game.startNextRound. intros Hstart.
    apply dealAndCheckInitialTonk_coherent in Hstart; try done.
    unfold hasCurrentPlayer in *. simpl. by rewrite length_map.
Qed.

(** X4: In every state that [initialize] and the calls after it produce, the
    phase is START_OF_TURN, DRAW, ACTION or GAME_OVER and a seat is to
    act.  When the round is over there is a winner among the seats and a
    win condition; before that there is neither, and the current player
    has drawn exactly when the phase is ACTION. *)
Theorem reachable_coherent (g : Game.t) : Game.Reachable g -> coherent g.
Proof.
  induction 1 as [g0 env playerCount name g Hinit|g op g' _ IH Hexec].
  - unfold Game.initialize in Hinit. cbv zeta in Hinit.
    match type of Hinit with
    | context [Game.dealAndCheckInitialTonk _ ?s] => set (g1 := s) in Hinit
    end.
    destruct (Game.dealAndCheckInitialTonk _ g1) as [g2|] eqn:Hdeal; [|done].
    injection Hinit as <-.
    apply dealAndCheckInitialTonk_coherent in Hdeal; try done.
    unfold hasCurrentPlayer. subst g1.
    cbn [Game.players Game.currentPlayerIndex]. rewrite length_map.
    simpl. lia.
  - by eapply exec_coherent.
Qed.

Lemma reachable_coherent_witness :
  exists g,
    Demo.seatOneKnocked = Some g
    /\ Game.phase g = GAME_OVER
    /\ exists w c,
         Game.winner g = Some w /\ (w < length (Game.players g))%nat
         /\ Game.winCondition g = Some c /\ c <> INITIAL_TONK_DRAW.
Proof.
  pose proof reached_seatOneKnocked as Hreach.
  assert (Game.phase <$> Demo.seatOneKnocked = Some GAME_OVER) as Hphase
    by (vm_compute; reflexivity).
  destruct Demo.seatOneKnocked as [g|]; [|destruct Hreach].
  exists g. simpl in *. injection Hphase as Hphase.
  split; [reflexivity|]. split; [exact Hphase|].
  destruct (reachable_coherent g Hreach) as (_ & _ & Hover & _).
  exact (Hover Hphase).
Defined.

End Coherence.

(** ** The deal *)

Section Dealing.

Import Rules Spec.

Lemma dealPass_top (ps : list Player.t) :
  forall d,
    (length ps <= length (Deck.cards d))%nat ->
    Game.dealPass d ps
    = (Deck.mk (take (length (Deck.cards d) - length ps) (Deck.cards d))
         (Deck.discardPile d),
       zip_with (fun p c => Player.addCard c p) ps (reverse (Deck.cards d))).
Proof.
  induction ps as [|p ps IH]; intros d Hlen; simpl.
  - rewrite Nat.sub_0_r, firstn_all. by destruct d.
  - unfold Deck.draw.
    destruct (Array.pop (Deck.cards d)) as [[rest c]|] eqn:Hpop.
    + apply pop_Some in Hpop. rewrite Hpop in *.
      rewrite length_app in Hlen. simpl in *.
      rewrite IH by (simpl; lia). simpl.
      rewrite reverse_snoc, length_app. simpl. f_equal. f_equal.
      rewrite take_app_le by lia. f_equal. lia.
    + apply pop_None in Hpop. rewrite Hpop in Hlen. simpl in Hlen. lia.
Qed.

Lemma dealPasses_top (k : nat) :
  forall ps d,
    (k * length ps <= length (Deck.cards d))%nat ->
    Deck.cards (fst (Game.dealPasses k d ps))
    = take (length (Deck.cards d) - k * length ps) (Deck.cards d)
    /\ Deck.discardPile (fst (Game.dealPasses k d ps)) = Deck.discardPile d
    /\ length (snd (Game.dealPasses k d ps)) = length ps
    /\ forall i p,
         ps !! i = Some p ->
         exists p',
           snd (Game.dealPasses k d ps) !! i = Some p'
           /\ p' = Player.set_hand (Player.hand p') p
           /\ length (Player.hand p') = (length (Player.hand p) + k)%nat
           /\ take (length (Player.hand p)) (Player.hand p') = Player.hand p
           /\ forall r, (r < k)%nat ->
                Player.hand p' !! (length (Player.hand p) + r)%nat
                = fromTop d (r * length ps + i).
Proof.
  induction k as [|k IH]; intros ps d Hlen; simpl.
  - rewrite Nat.sub_0_r, firstn_all. split; [done|]. split; [done|].
    split; [done|]. intros i p Hp. exists p. split; [done|].
    split; [by destruct p|]. split; [lia|]. split; [by rewrite firstn_all|].
    intros r Hr. lia.
  - rewrite dealPass_top by lia.
    set (d1 := Deck.mk _ _).
    set (ps1 := zip_with _ _ _).
    assert (length ps1 = length ps) as Hlen1.
    { subst ps1. rewrite length_zip_with, length_reverse. lia. }
    assert (length (Deck.cards d1)
            = (length (Deck.cards d) - length ps)%nat) as Hd1.
    { subst d1. simpl. rewrite length_take. lia. }
    destruct (IH ps1 d1) as (Hcards & Hdisc & Hps & Hhands).
    { rewrite Hlen1, Hd1. lia. }
    split.
    { rewrite Hcards, Hlen1, Hd1. subst d1. simpl. rewrite take_take.
      f_equal. lia. }
    split; [by rewrite Hdisc|]. split; [by rewrite Hps|].
    intros i p Hp.
    assert (i < length ps)%nat as Hi by (by eapply lookup_lt_Some).
    destruct (lookup_lt_is_Some_2 (reverse (Deck.cards d)) i) as [c Hc].
    { rewrite length_reverse. lia. }
    assert (ps1 !! i = Some (Player.addCard c p)) as Hp1.
    { subst ps1. rewrite lookup_zip_with, Hp. simpl. by rewrite Hc. }
    destruct (Hhands i _ Hp1) as (p' & Hp' & Hframe & Hlength & Htake & Hdealt).
    exists p'. split; [exact Hp'|]. simpl in *.
    split; [by rewrite Hframe|].
    rewrite length_app in *. simpl in *. split; [lia|]. split.
    { apply (f_equal (take (length (Player.hand p)))) in Htake.
      rewrite take_take, take_app_length in Htake.
      by replace (length (Player.hand p) `min` (length (Player.hand p) + 1))%nat
        with (length (Player.hand p)) in Htake by lia. }
    intros r Hr. destruct r as [|r].
    + rewrite Nat.add_0_r. simpl. unfold fromTop. rewrite Hc.
      apply (f_equal (fun l => l !! length (Player.hand p))) in Htake.
      rewrite lookup_take_lt in Htake by lia.
      rewrite Htake. by rewrite list_lookup_middle.
    + specialize (Hdealt r ltac:(lia)).
      replace (length (Player.hand p) + S r)%nat
        with (length (Player.hand p) + 1 + r)%nat by lia.
      rewrite Hdealt. unfold fromTop. subst d1. simpl.
      rewrite Hlen1, <- drop_reverse, lookup_drop.
      f_equal. lia.
Qed.


(** X8: [deal] hands the cards out one at a time from the top of the draw
    pile, in seat order, five rounds of it, and turns the next card up on
    the discard pile: with [n] players and a draw pile of at least
    [5 n + 1] cards, the card that seat [i] receives in round [r] is the one
    [r n + i] places below the top, every hand grows by exactly five cards
    behind those it had, and the card [5 n] places below the top becomes
    the top of the discard pile. *)
Theorem deal_round_robin (g : Game.t) :
  (5 * length (Game.players g) + 1
   <= length (Deck.cards (Game.deck g)))%nat ->
  length (Game.players (Game.deal g)) = length (Game.players g)
  /\ (forall i p,
        Game.players g !! i = Some p ->
        exists p',
          Game.players (Game.deal g) !! i = Some p'
          /\ p' = Player.set_hand (Player.hand p') p
          /\ length (Player.hand p') = (length (Player.hand p) + 5)%nat
          /\ take (length (Player.hand p)) (Player.hand p') = Player.hand p
          /\ forall r, (r < 5)%nat ->
               Player.hand p' !! (length (Player.hand p) + r)%nat
               = fromTop (Game.deck g) (r * length (Game.players g) + i))
  /\ Deck.cards (Game.deck (Game.deal g))
     = take (length (Deck.cards (Game.deck g))
             - (5 * length (Game.players g) + 1))
         (Deck.cards (Game.deck g))
  /\ exists c,
       fromTop (Game.deck g) (5 * length (Game.players g)) = Some c
       /\ Deck.discardPile (Game.deck (Game.deal g))
          = Deck.discardPile (Game.deck g) ++ [c].
Proof.
  intros Hlen. unfold Game.deal, getCardsPerPlayer, CARDS_PER_PLAYER.
  destruct (dealPasses_top 5 (Game.players g) (Game.deck g))
    as (Hcards & Hdisc & Hps & Hhands); [lia|].
  destruct (Game.dealPasses 5 (Game.deck g) (Game.players g)) as [d1 ps1].
  cbn [fst snd] in Hcards, Hdisc, Hps, Hhands.
  set (n := length (Game.players g)) in *.
  set (cards := Deck.cards (Game.deck g)) in *.
  destruct (lookup_lt_is_Some_2 (reverse cards) (5 * n)) as [c Hc].
  { rewrite length_reverse. lia. }
  assert (Deck.cards d1 = take (length cards - (5 * n + 1)) cards ++ [c])
    as Hsplit.
  { rewrite Hcards.
    rewrite reverse_lookup in Hc by lia.
    replace (length cards - 5 * n)%nat
      with (S (length cards - (5 * n + 1))) by lia.
    erewrite take_S_r; [done|].
    rewrite <- Hc. f_equal. lia. }
  unfold Deck.draw. rewrite Hsplit, pop_snoc. simpl.
  split; [exact Hps|]. split; [exact Hhands|]. split; [done|].
  exists c. split; [exact Hc|]. by rewrite Hdisc.
Qed.

Lemma deal_round_robin_witness :
  exists p',
    Game.players (Game.deal Demo.tonkRound) !! 1%nat = Some p'
    /\ length (Player.hand p') = 5%nat
    /\ Player.hand p' !! 2%nat = fromTop (Game.deck Demo.tonkRound) 5
    /\ length (Deck.discardPile (Game.deck (Game.deal Demo.tonkRound)))
       = 1%nat.
Proof.
  assert (exists p, Game.players Demo.tonkRound !! 1%nat = Some p
                    /\ Player.hand p = []) as (p & Hp & Hhand)
    by (eexists; split; reflexivity).
  destruct (deal_round_robin Demo.tonkRound) as (_ & Hhands & _ & Hup).
  { apply (bool_decide_unpack _). by vm_compute. }
  destruct (Hhands 1%nat p Hp) as (p' & Hp' & _ & Hlen & _ & Hdealt).
  destruct Hup as (c & _ & Hdisc).
  exists p'. rewrite Hhand in *. split; [exact Hp'|]. split; [exact Hlen|].
  split; [exact (Hdealt 2%nat ltac:(lia))|]. by rewrite Hdisc.
Defined.

End Dealing.

(** ** The first deal of a match *)

Section FirstDeal.

Import Rules Spec.








End FirstDeal.

(** ** The winner of a knock and of the match *)

Section LowestOfAll.

Import Rules Spec.

Context {P : Type} (points : P -> Z).

Lemma knockWinner_fold (all : list P) (rest : list P) :
  forall i w pw,
    drop i all = rest ->
    firstLowest points all i w pw ->
    exists w',
      firstLowest points all (length all) w'
        (fold_left
           (fun winner player =>
              if points player <? points winner then player else winner)
           rest pw).
Proof.
  induction rest as [|q rest IH]; intros i w pw Hdrop (Hw & Hle & Hlt); simpl.
  - exists w. split; [done|]. split; [|done].
    intros j p Hj. apply Hle.
    destruct (decide (i < length all)%nat) as [Hi|Hi]; [|lia].
    apply (f_equal length) in Hdrop. rewrite length_drop in Hdrop.
    simpl in Hdrop. lia.
  - apply drop_cons_inv in Hdrop as [Hq Hdrop].
    destruct (Z.ltb_spec (points q) (points pw)) as [Hlow|Hhigh].
    + apply (IH (S i) i q Hdrop). split; [done|]. split.
      * intros j p Hj Hp. destruct (decide (j = i)) as [->|Hne].
        -- rewrite Hq in Hp. injection Hp as ->. lia.
        -- specialize (Hle j p ltac:(lia) Hp). lia.
      * intros j p Hj Hp. specialize (Hle j p Hj Hp). lia.
    + apply (IH (S i) w pw Hdrop). split; [done|]. split; [|done].
      intros j p Hj Hp. destruct (decide (j = i)) as [->|Hne].
      * rewrite Hq in Hp. by injection Hp as ->.
      * apply (Hle j); [lia|done].
Qed.

Lemma firstLowest_unique (all : list P) (w1 w2 : nat) (p1 p2 : P) :
  firstLowest points all (length all) w1 p1 ->
  firstLowest points all (length all) w2 p2 ->
  w1 = w2.
Proof.
  intros (H1 & Hle1 & Hlt1) (H2 & Hle2 & Hlt2).
  pose proof (lookup_lt_Some _ _ _ H1). pose proof (lookup_lt_Some _ _ _ H2).
  destruct (Nat.lt_trichotomy w1 w2) as [Hlt|[Heq|Hgt]]; [|done|].
  - specialize (Hlt2 w1 p1 Hlt H1). specialize (Hle1 w2 p2 ltac:(lia) H2). lia.
  - specialize (Hlt1 w2 p2 Hgt H2). specialize (Hle2 w1 p1 ltac:(lia) H1). lia.
Qed.

Lemma determineKnockWinner_first (players : list P) :
  players <> [] ->
  exists w pw,
    determineKnockWinner points players = Some pw
    /\ firstLowest points players (length players) w pw.
Proof.
  intros Hne. destruct players as [|first rest]; [done|].
  destruct (knockWinner_fold (first :: rest) rest 1 0 first) as [w Hw].
  { done. }
  { split; [done|]. split; [|intros; lia].
    intros j p Hj Hp. destruct j; [|lia]. by injection Hp as ->. }
  eexists w, _. split; [reflexivity|]. exact Hw.
Qed.

End LowestOfAll.

Section KnockWinner.

Import Rules Spec.

(** X18: [determineKnockWinner] returns [null] for no players and otherwise the
    player with the lowest points, the first of them in the array when
    several tie.  It is the player whom [endGameStockEmpty], with its own
    loop, makes the winner when the stock is empty. *)
Theorem determineKnockWinner_spec :
  (forall (P : Type) (points : P -> Z),
     determineKnockWinner points [] = None
     /\ forall players : list P,
          players <> [] ->
          exists w pw,
            determineKnockWinner points players = Some pw
            /\ players !! w = Some pw
            /\ (forall p, p ∈ players -> points pw <= points p)
            /\ (forall j p, (j < w)%nat -> players !! j = Some p ->
                  points pw < points p))
  /\ (forall g : Game.t,
        Game.players g <> [] ->
        exists w,
          Game.endGameStockEmpty g
          = Game.Ok () (Game.endRound (Some w) STOCK_EMPTY g)
          /\ Game.players g !! w
             = determineKnockWinner Player.calculatePoints (Game.players g)).
Proof.
  split.
  - intros P points. split; [done|]. intros players Hne.
    destruct (determineKnockWinner_first points players Hne)
      as (w & pw & Hwin & Hw & Hle & Hlt).
    exists w, pw. split; [done|]. split; [done|]. split; [|done].
    intros p [j Hj]%list_elem_of_lookup. apply (Hle j); [|done].
    by eapply lookup_lt_Some.
  - intros g Hne.
    destruct (determineKnockWinner_first Player.calculatePoints
                (Game.players g) Hne) as (w & pw & -> & Hw).
    unfold Game.endGameStockEmpty.
    destruct (Game.players g) as [|first ps] eqn:Eps; [done|].
    destruct (lowestLoop_inv (first :: ps) (first :: ps) 0 0
                (Player.calculatePoints first)) as (m & Hinv).
    { done. }
    { repeat split; [by exists first|intros; lia..]. }
    eexists. split; [reflexivity|].
    destruct Hinv as ((pw' & Hpw' & Hm) & Hle & Hlt). subst m.
    rewrite Hpw'. f_equal.
    assert (Game.lowestLoop (first :: ps) 0 0 (Player.calculatePoints first)
            = w) as Heq.
    { eapply (firstLowest_unique Player.calculatePoints (first :: ps));
        [|exact Hw]. split; [exact Hpw'|]. split; [|done]. done. }
    rewrite Heq in Hpw'. destruct Hw as (Hw & _). congruence.
Qed.

End KnockWinner.

Section MatchEnd.

Import Rules Spec.

Lemma lowestScoreLoop_inv (scores : gmap string Z) (all : list Player.t)
    (ps : list Player.t) :
  (forall p, p ∈ all -> is_Some (scores !! Player.id p)) ->
  forall i w pw,
    drop i all = ps ->
    firstLowest (fun p => default 0 (scores !! Player.id p)) all i w pw ->
    exists pw',
      firstLowest (fun p => default 0 (scores !! Player.id p)) all
        (length all)
        (Game.lowestScoreLoop scores ps i w (scores !! Player.id pw)) pw'.
Proof.
  intros Hall. induction ps as [|q ps IH]; intros i w pw Hdrop (Hw & Hle & Hlt);
    cbn [Game.lowestScoreLoop].
  - exists pw. split; [done|]. split; [|done].
    intros j p Hj. apply Hle.
    destruct (decide (i < length all)%nat) as [Hi|Hi]; [|lia].
    apply (f_equal length) in Hdrop. rewrite length_drop in Hdrop.
    simpl in Hdrop. lia.
  - apply drop_cons_inv in Hdrop as [Hq Hdrop].
    destruct (Hall q) as [sq Hsq]; [by eapply list_elem_of_lookup_2|].
    destruct (Hall pw) as [sw Hsw]; [by eapply list_elem_of_lookup_2|].
    rewrite Hsq, Hsw. rewrite Hsw in Hle, Hlt.
    cbn [default] in Hle, Hlt. unfold id in Hle, Hlt.
    destruct (Z.ltb_spec sq sw) as [Hlow|Hhigh].
    + rewrite <- Hsq. apply (IH (S i) i q Hdrop).
      split; [done|]. rewrite Hsq. cbn [default]. unfold id. split.
      * intros j p Hj Hp. destruct (decide (j = i)) as [->|Hne].
        -- rewrite Hq in Hp. injection Hp as ->. by rewrite Hsq.
        -- specialize (Hle j p ltac:(lia) Hp). lia.
      * intros j p Hj Hp. specialize (Hle j p Hj Hp). lia.
    + rewrite <- Hsw. apply (IH (S i) w pw Hdrop).
      split; [done|]. rewrite Hsw. cbn [default]. unfold id. split; [|done].
      intros j p Hj Hp. destruct (decide (j = i)) as [->|Hne].
      * rewrite Hq in Hp. injection Hp as ->. by rewrite Hsq.
      * apply (Hle j); [lia|done].
Qed.

Lemma matchEndLoop_spec (ps all : list Player.t) (g : Game.t) :
  (Forall (fun p => Game.getScore g p < Game.pointLimit g) ps ->
   Game.matchEndLoop ps all g = (false, g))
  /\ (Exists (fun p => Game.pointLimit g <= Game.getScore g p
                       /\ is_Some (Game.matchScores g !! Player.id p)) ps ->
      Game.matchEndLoop ps all g
      = (true,
         Game.set_matchWinner
           (Some (Game.lowestScoreLoop (Game.matchScores g) all 0 0
                    (head all ≫= fun p => Game.matchScores g !! Player.id p)))
           g)).
Proof.
  induction ps as [|p ps [IH1 IH2]]; simpl.
  - split; [done|]. by intros H%Exists_nil.
  - unfold Game.getScore in *. split.
    + intros [Hp Hps]%Forall_cons.
      destruct (Game.matchScores g !! Player.id p) as [score|]; simpl in *.
      * rewrite (proj2 (Z.leb_gt _ _)) by done. by apply IH1.
      * by apply IH1.
    + intros [[Hp [score Hscore]]|Hps]%Exists_cons.
      * rewrite Hscore in *. simpl in Hp.
        by rewrite (proj2 (Z.leb_le _ _)) by done.
      * destruct (Game.matchScores g !! Player.id p) as [score|]; simpl;
          [|by apply IH2].
        destruct (Game.pointLimit g <=? score); [done|by apply IH2].
Qed.

(** X17: [checkMatchEnd], when every player has an entry in the match scores:
    it answers [false] and changes nothing as long as every score is below
    the point limit.  As soon as a score has reached the limit it answers
    [true] and makes match winner the player with the lowest score, the
    first of them in seat order when several tie. *)
Theorem checkMatchEnd_spec (g : Game.t) :
  (forall p, p ∈ Game.players g ->
     is_Some (Game.matchScores g !! Player.id p)) ->
  ((forall p, p ∈ Game.players g -> Game.getScore g p < Game.pointLimit g) ->
   Game.checkMatchEnd g = (false, g))
  /\ ((exists p, p ∈ Game.players g
                 /\ Game.pointLimit g <= Game.getScore g p) ->
      exists w pw,
        Game.checkMatchEnd g = (true, Game.set_matchWinner (Some w) g)
        /\ Game.players g !! w = Some pw
        /\ (forall p, p ∈ Game.players g ->
              Game.getScore g pw <= Game.getScore g p)
        /\ (forall j p, (j < w)%nat -> Game.players g !! j = Some p ->
              Game.getScore g pw < Game.getScore g p)).
Proof.
  intros Hall. unfold Game.checkMatchEnd.
  destruct (matchEndLoop_spec (Game.players g) (Game.players g) g)
    as [Hno Hyes].
  split.
  - intros Hbelow. apply Hno. by apply Forall_forall.
  - intros (p & Hp & Hlimit). rewrite Hyes.
    2: { apply Exists_exists. exists p. split; [done|]. split; [done|].
         by apply Hall. }
    destruct (Game.players g) as [|first ps] eqn:Eps;
      [by apply elem_of_nil in Hp|].
    destruct (lowestScoreLoop_inv (Game.matchScores g) (first :: ps)
                (first :: ps) Hall 0 0 first) as (pw & Hw & Hle & Hlt).
    { done. }
    { split; [done|]. split; intros; lia. }
    eexists _, pw. split; [reflexivity|]. split; [exact Hw|].
    split; [|exact Hlt].
    intros q [j Hj]%list_elem_of_lookup. apply (Hle j); [|done].
    by eapply lookup_lt_Some.
Qed.

Lemma checkMatchEnd_spec_witness :
  Game.checkMatchEnd Demo.finished
  = (true, Game.set_matchWinner (Some 0%nat) Demo.finished).
Proof.
  destruct (checkMatchEnd_spec Demo.finished) as [_ Hover].
  { intros p Hp. apply (bool_decide_unpack _).
    repeat (apply elem_of_cons in Hp as [->|Hp]; [by vm_compute|]).
    by apply elem_of_nil in Hp. }
  destruct Hover as (w & pw & Hend & Hw & _ & Hlt).
  { exists (Demo.seat 1 [Demo.card Card.R5 Card.spades]).
    split; [|by vm_compute]. apply elem_of_cons. right.
    apply elem_of_cons. by left. }
  destruct w as [|[|w]].
  - exact Hend.
  - exfalso. ospecialize (Hlt 0%nat _ _ eq_refl); [lia|].
    injection Hw as <-. by vm_compute in Hlt.
  - by vm_compute in Hw.
Defined.

End MatchEnd.

Section Reorder.

Import Rules Spec.

Lemma sum_by_perm {A} (f : A -> Z) (l1 l2 : list A) :
  l1 ≡ₚ l2 -> Array.sum_by f l1 = Array.sum_by f l2.
Proof.
  induction 1 as [|x l1 l2 _ IH|x y l|l1 l2 l3 _ IH1 _ IH2].
  - done.
  - by rewrite !sum_by_cons, IH.
  - rewrite !sum_by_cons. lia.
  - by rewrite IH1.
Qed.

(** X23: [reorderCard] moves the card at [fromIndex] to the position [toIndex]
    of the hand and keeps the order of the other cards; nothing else about
    the player changes, and the hand holds the same cards and points as
    before.  An index outside the hand, or two equal indices, leave the
    hand as it is. *)
Theorem reorderCard_spec (fromIndex toIndex : Z) (p : Player.t) :
  let inHand i := 0 <= i < Z.of_nat (length (Player.hand p)) in
  let p' := Player.reorderCard fromIndex toIndex p in
  p' = Player.set_hand (Player.hand p') p
  /\ Player.hand p' ≡ₚ Player.hand p
  /\ Player.calculatePoints p' = Player.calculatePoints p
  /\ (~ (inHand fromIndex /\ inHand toIndex) -> p' = p)
  /\ (inHand fromIndex -> inHand toIndex ->
      Player.hand p' !! Z.to_nat toIndex
      = Player.hand p !! Z.to_nat fromIndex
      /\ delete (Z.to_nat toIndex) (Player.hand p')
         = delete (Z.to_nat fromIndex) (Player.hand p)).
Proof.
  cbv zeta. unfold Player.reorderCard.
  destruct (Z.ltb_spec fromIndex 0) as [Hf0|Hf0]; simpl.
  { rewrite set_hand_self. split_and!; try done. intros; lia. }
  destruct (Z.leb_spec (Z.of_nat (length (Player.hand p))) fromIndex)
    as [Hfn|Hfn]; simpl.
  { rewrite set_hand_self. split_and!; try done. intros; lia. }
  destruct (Z.ltb_spec toIndex 0) as [Ht0|Ht0]; simpl.
  { rewrite set_hand_self. split_and!; try done. intros; lia. }
  destruct (Z.leb_spec (Z.of_nat (length (Player.hand p))) toIndex)
    as [Htn|Htn]; simpl.
  { rewrite set_hand_self. split_and!; try done. intros; lia. }
  case_bool_decide as Heq.
  { subst toIndex. rewrite set_hand_self. by split_and!. }
  destruct (lookup_lt_is_Some_2 (Player.hand p) (Z.to_nat fromIndex))
    as [card Hcard]; [lia|].
  rewrite Hcard. simpl.
  set (rest := delete (Z.to_nat fromIndex) (Player.hand p)).
  assert (length rest = pred (length (Player.hand p))) as Hrest.
  { subst rest. rewrite length_delete; [lia|by eexists]. }
  assert (Array.insertAt (Z.to_nat toIndex) card rest ≡ₚ Player.hand p)
    as Hperm.
  { unfold Array.insertAt. rewrite <- Permutation_middle, take_drop.
    subst rest. by rewrite <- delete_Permutation. }
  split; [done|]. split; [exact Hperm|]. split.
  { unfold Player.calculatePoints. simpl. by apply sum_by_perm. }
  split; [intros Hnot; exfalso; apply Hnot; lia|].
  intros _ _. unfold Array.insertAt.
  assert (length (take (Z.to_nat toIndex) rest) = Z.to_nat toIndex) as Htake.
  { rewrite length_take. lia. }
  split.
  - rewrite <- Htake at 1. by rewrite list_lookup_middle.
  - rewrite <- Htake at 1. by rewrite delete_middle, take_drop.
Qed.

Lemma reorderCard_spec_witness :
  let p := Demo.seat 0 [Demo.card Card.R5 Card.hearts;
                        Demo.card Card.R2 Card.clubs;
                        Demo.card Card.R9 Card.spades] in
  Player.hand (Player.reorderCard 0 2 p)
  = [Demo.card Card.R2 Card.clubs; Demo.card Card.R9 Card.spades;
     Demo.card Card.R5 Card.hearts]
  /\ Player.reorderCard 0 3 p = p.
Proof.
  cbv zeta.
  destruct (reorderCard_spec 0 3
              (Demo.seat 0 [Demo.card Card.R5 Card.hearts;
                            Demo.card Card.R2 Card.clubs;
                            Demo.card Card.R9 Card.spades]))
    as (_ & _ & _ & Hout & _).
  split; [reflexivity|]. apply Hout. simpl. lia.
Defined.

End Reorder.

(** ** The spreads found in a hand *)

Section Groups.

Import Spec.

Context {K : Type} `{EqDecision K} (key : Card.t -> K).

Lemma groupPush_keys (k : K) (card : Card.t)
    (groups : list (K * list Card.t)) :
  map fst (Spread.groupPush k card groups)
  = if bool_decide (k ∈ map fst groups) then map fst groups
    else map fst groups ++ [k].
Proof.
  induction groups as [|[k' cs] groups IH]; cbn [Spread.groupPush map fst].
  - case_bool_decide as Hin; [by apply elem_of_nil in Hin|done].
  - destruct (decide (k = k')) as [->|Hne]; cbn [map fst].
    + rewrite bool_decide_eq_true_2; [done|]. apply elem_of_cons. by left.
    + rewrite IH. case_bool_decide as Hin.
      * rewrite bool_decide_eq_true_2; [done|]. apply elem_of_cons. by right.
      * rewrite bool_decide_eq_false_2; [done|].
        intros [?|?]%elem_of_cons; done.
Qed.

Lemma groupPush_elem (k : K) (card : Card.t)
    (groups : list (K * list Card.t)) (k' : K) (cs' : list Card.t) :
  NoDup (map fst groups) ->
  (k', cs') ∈ Spread.groupPush k card groups ->
  (k' <> k /\ (k', cs') ∈ groups)
  \/ (k' = k /\ exists cs, (k, cs) ∈ groups /\ cs' = cs ++ [card])
  \/ (k' = k /\ (k ∉ map fst groups) /\ cs' = [card]).
Proof.
  induction groups as [|[k0 cs0] groups IH]; simpl; intros Hnd Hin.
  - apply list_elem_of_singleton in Hin as [= -> ->]. right. right.
    split; [done|]. split; [|done]. by intros H%elem_of_nil.
  - apply NoDup_cons in Hnd as [Hk0 Hnd].
    destruct (decide (k = k0)) as [->|Hne].
    + apply elem_of_cons in Hin as [[= -> ->]|Hin].
      * right. left. split; [done|]. exists cs0. split; [|done].
        apply elem_of_cons. by left.
      * left. split.
        -- intros ->. apply Hk0. apply list_elem_of_fmap. by exists (k0, cs').
        -- apply elem_of_cons. by right.
    + apply elem_of_cons in Hin as [[= -> ->]|Hin].
      * left. split; [done|]. apply elem_of_cons. by left.
      * destruct (IH Hnd Hin) as [[H1 H2]|[(H1 & cs & H2 & H3)|(H1 & H2 & H3)]].
        -- left. split; [done|]. apply elem_of_cons. by right.
        -- right. left. split; [done|]. exists cs. split; [|done].
           apply elem_of_cons. by right.
        -- right. right. split; [done|]. split; [|done].
           intros [?|?]%elem_of_cons; done.
Qed.

(** The groups made from [cards]: one entry for each key that occurs, and
    under each key the cards that have it, in their order in [cards]. *)
Lemma groups_spec (cards : list Card.t) :
  let groups :=
    fold_left (fun groups card => Spread.groupPush (key card) card groups)
      cards [] in
  NoDup (map fst groups)
  /\ (forall c, c ∈ cards -> key c ∈ map fst groups)
  /\ (forall k cs, (k, cs) ∈ groups ->
        cs = filter (fun c => key c = k) cards).
Proof.
  induction cards as [|card cards IH] using rev_ind; cbv zeta.
  - simpl. split; [constructor|]. split.
    + by intros c H%elem_of_nil.
    + by intros k cs H%elem_of_nil.
  - rewrite fold_left_app. simpl.
    destruct IH as (Hnd & Hkeys & Hgroups).
    set (groups := fold_left _ cards []) in *.
    pose proof (groupPush_keys (key card) card groups) as Hk.
    split; [|split].
    + rewrite Hk. case_bool_decide as Hin; [done|].
      apply NoDup_app. split; [done|]. split; [|apply NoDup_singleton].
      intros x Hx Hx'. apply list_elem_of_singleton in Hx' as ->. done.
    + intros c Hc. rewrite Hk.
      apply elem_of_app in Hc as [Hc|Hc].
      * case_bool_decide; [by apply Hkeys|].
        apply elem_of_app. left. by apply Hkeys.
      * apply list_elem_of_singleton in Hc as ->.
        case_bool_decide as Hin; [done|]. apply elem_of_app. right.
        by apply list_elem_of_singleton.
    + intros k cs Hin. rewrite filter_app.
      destruct (groupPush_elem _ _ _ _ _ Hnd Hin)
        as [[H1 H2]|[(-> & cs0 & H2 & ->)|(-> & H2 & ->)]].
      * rewrite (Hgroups k cs H2).
        rewrite (filter_cons_False _ card) by (intros ?; by apply H1).
        by rewrite filter_nil, app_nil_r.
      * rewrite (Hgroups _ cs0 H2).
        by rewrite (filter_cons_True _ card) by done.
      * rewrite (filter_cons_True _ card) by done. rewrite filter_nil.
        assert (filter (fun c => key c = key card) cards = []) as ->; [|done].
        destruct (filter _ cards) as [|c l] eqn:Hf; [done|].
        assert (c ∈ filter (fun c => key c = key card) cards) as Hc
          by (rewrite Hf; apply elem_of_cons; by left).
        apply list_elem_of_filter in Hc as [Heq Hc].
        exfalso. apply H2. rewrite <- Heq. by apply Hkeys.
Qed.

End Groups.

Section Candidates.

Import Rules Spec.

Lemma consecutive_snoc (l : list Card.t) (a b : Card.t) :
  Spread.consecutive (l ++ [a]) = true ->
  Card.getRankIndex b = Card.getRankIndex a + 1 ->
  Spread.consecutive (l ++ [a; b]) = true.
Proof.
  intros Hl Hb. induction l as [|x l IH].
  - simpl. case_bool_decide as Hne; [by destruct Hne|done].
  - destruct l as [|y l].
    + simpl in *. case_bool_decide as H1; [done|].
      case_bool_decide as H2; [by destruct H2|done].
    + simpl in Hl |- *. case_bool_decide as H1; [done|]. by apply IH.
Qed.

(** A run of the scan: at least three cards whose rank indices go up by
    one from each card to the next. *)
Lemma scanRuns_spec (all : list Card.t) (rest : list Card.t) :
  forall prev front runs,
    Forall (fun r => (3 <= length r)%nat /\ Spread.consecutive r = true) runs ->
    Spread.consecutive (front ++ [prev]) = true ->
    concat runs ++ (front ++ [prev]) ++ rest ⊆+ all ->
    Forall (fun r => (3 <= length r)%nat /\ Spread.consecutive r = true)
      (Spread.scanRuns prev rest (front ++ [prev]) runs)
    /\ concat (Spread.scanRuns prev rest (front ++ [prev]) runs) ⊆+ all.
Proof.
  induction rest as [|curr rest IH]; intros prev front runs Hruns Hcur Hsub;
    cbn [Spread.scanRuns].
  - destruct (MIN_SPREAD_SIZE <=? length (front ++ [prev]))%nat eqn:Hlen.
    + apply Nat.leb_le in Hlen. split.
      * apply Forall_app. split; [done|]. apply Forall_singleton.
        split; [exact Hlen|done].
      * rewrite concat_app. simpl. by rewrite !app_nil_r in *.
    + split; [done|]. etrans; [|exact Hsub]. by apply submseteq_inserts_r.
  - case_bool_decide as Hnext.
    + apply (IH curr (front ++ [prev]) runs Hruns).
      * replace ((front ++ [prev]) ++ [curr]) with (front ++ [prev; curr])
          by (by rewrite <- app_assoc).
        by apply consecutive_snoc.
      * by rewrite <- (app_assoc (front ++ [prev]) [curr] rest).
    + destruct (MIN_SPREAD_SIZE <=? length (front ++ [prev]))%nat eqn:Hlen.
      * apply Nat.leb_le in Hlen.
        apply (IH curr [] (runs ++ [front ++ [prev]])).
        -- apply Forall_app. split; [done|]. apply Forall_singleton.
           split; [exact Hlen|done].
        -- done.
        -- rewrite concat_app. simpl. rewrite app_nil_r.
           by rewrite <- app_assoc.
      * apply (IH curr [] runs Hruns); [done|].
        etrans; [|exact Hsub]. simpl.
        apply submseteq_skips_l. by apply submseteq_inserts_l.
Qed.

Lemma findConsecutiveRuns_spec (cards : list Card.t) :
  Forall (fun r => (3 <= length r)%nat /\ Spread.consecutive r = true)
    (Spread.findConsecutiveRuns cards)
  /\ concat (Spread.findConsecutiveRuns cards) ⊆+ cards.
Proof.
  unfold Spread.findConsecutiveRuns.
  destruct (_ <? _)%nat; [split; [done|apply submseteq_nil_l]|].
  pose proof (sort_by_perm Card.getRankIndex cards) as Hperm.
  fold (Spread.sortByRank cards) in Hperm.
  destruct (Spread.sortByRank cards) as [|first rest];
    [split; [done|apply submseteq_nil_l]|].
  apply (scanRuns_spec cards rest first [] []); [done|done|].
  simpl. by rewrite Hperm.
Qed.

Lemma run_valid (r : list Card.t) (s : Card.Suit) :
  (3 <= length r)%nat ->
  Spread.consecutive r = true ->
  (forall c, c ∈ r -> Card.suit c = s) ->
  Spread.validate r = Spread.mkValidation true (Some Spread.run).
Proof.
  intros Hlen Hcons Hsuit.
  assert (contiguousRanks r) as Hcont.
  { destruct r as [|c l]; [simpl in Hlen; lia|].
    exists (Card.getRankIndex c).
    by rewrite (proj1 (consecutive_progression c l) Hcons). }
  assert (Spread.isValidRun r = true) as Hrun.
  { apply isValidRun_iff. split; [done|]. split; [|done].
    intros c1 c2 H1 H2. by rewrite (Hsuit c1 H1), (Hsuit c2 H2). }
  assert (Spread.isValidBook r = false) as Hbook.
  { apply not_true_is_false. intros [_ Hrank]%isValidBook_iff.
    by apply (uniformRank_not_contiguous r); [lia|..]. }
  unfold Spread.validate. by rewrite Hbook, Hrun.
Qed.

Lemma book_valid (cs : list Card.t) (k : Card.Rank) :
  (3 <= length cs)%nat ->
  (forall c, c ∈ cs -> Card.rank c = k) ->
  Spread.validate (take 4 cs) = Spread.mkValidation true (Some Spread.book).
Proof.
  intros Hlen Hrank.
  assert (Spread.isValidBook (take 4 cs) = true) as Hbook.
  { apply isValidBook_iff. rewrite length_take. split; [lia|].
    intros c1 c2 (i1 & H1 & _)%elem_of_take (i2 & H2 & _)%elem_of_take.
    apply list_elem_of_lookup_2 in H1, H2.
    by rewrite (Hrank c1), (Hrank c2). }
  unfold Spread.validate. by rewrite Hbook.
Qed.

Lemma entriesByRank_elem (groups : list (Card.Rank * list Card.t))
    (e : Card.Rank * list Card.t) :
  e ∈ Spread.entriesByRank groups -> e ∈ groups.
Proof.
  unfold Spread.entriesByRank. intros [He|He]%elem_of_app.
  - apply list_elem_of_In, in_flat_map in He as (r & _ & He).
    apply list_elem_of_In in He. by apply list_elem_of_filter in He as [_ He].
  - by apply list_elem_of_filter in He as [_ He].
Qed.

Lemma filter_submseteq_cards (P : Card.t -> Prop) `{!forall c, Decision (P c)}
    (cards : list Card.t) :
  filter P cards ⊆+ cards.
Proof. apply sublist_submseteq, sublist_filter. Qed.

Lemma findPossibleSpreads_valid (cards : list Card.t)
    (cand : Spread.Candidate) :
  cand ∈ Spread.findPossibleSpreads cards ->
  Spread.validate (Spread.ccards cand)
  = Spread.mkValidation true (Some (Spread.ctype cand))
  /\ (3 <= length (Spread.ccards cand))%nat
  /\ Spread.ccards cand ⊆+ cards.
Proof.
  unfold Spread.findPossibleSpreads. intros [Hin|Hin]%elem_of_app.
  - apply list_elem_of_In, in_flat_map in Hin as ([k cs] & He & Hin).
    apply list_elem_of_In, entriesByRank_elem in He.
    destruct (groups_spec Card.rank cards) as (_ & _ & Hgroups).
    apply Hgroups in He. cbn [snd] in Hin.
    destruct (MIN_SPREAD_SIZE <=? length cs)%nat eqn:Hlen; [|done].
    apply Nat.leb_le in Hlen.
    destruct Hin as [<-|[]]. simpl. split; [|split].
    + apply (book_valid cs k); [done|]. intros c Hc. rewrite He in Hc.
      by apply list_elem_of_filter in Hc as [Hc _].
    + rewrite length_take. unfold MIN_SPREAD_SIZE in Hlen. lia.
    + etrans; [apply sublist_submseteq, sublist_take|]. rewrite He.
      apply filter_submseteq_cards.
  - apply list_elem_of_In, in_flat_map in Hin as ([k cs] & He & Hin).
    apply list_elem_of_In in He.
    destruct (groups_spec Card.suit cards) as (_ & _ & Hgroups).
    apply Hgroups in He. cbn [snd] in Hin.
    apply in_map_iff in Hin as (r & <- & Hr). apply list_elem_of_In in Hr.
    destruct (findConsecutiveRuns_spec cs) as [Hgood Hsub]. simpl.
    destruct (proj1 (Forall_forall _ _) Hgood r Hr) as [Hlen Hcons].
    assert (r ⊆+ cs) as Hrcs.
    { etrans; [|exact Hsub]. apply sublist_submseteq.
      apply list_elem_of_split in Hr as (l1 & l2 & ->).
      rewrite concat_app. simpl. apply sublist_inserts_l.
      by apply sublist_inserts_r. }
    split; [|split; [done|]].
    + apply (run_valid r k); [done|done|]. intros c Hc.
      eapply elem_of_submseteq in Hc; [|exact Hrcs]. rewrite He in Hc.
      by apply list_elem_of_filter in Hc as [Hc _].
    + etrans; [exact Hrcs|]. rewrite He. apply filter_submseteq_cards.
Qed.

(** X26: Every candidate that [findPossibleSpreads] finds in a set of cards is
    made of at least three of those cards, each used no more often than it
    is there, and [validate] accepts it with the type the candidate
    carries.  [laySpread] therefore does not reject it in the phases
    ACTION and START_OF_TURN. *)
Theorem findPossibleSpreads_sound (cards : list Card.t)
    (cand : Spread.Candidate) :
  cand ∈ Spread.findPossibleSpreads cards ->
  Spread.validate (Spread.ccards cand)
  = Spread.mkValidation true (Some (Spread.ctype cand))
  /\ (3 <= length (Spread.ccards cand))%nat
  /\ Spread.ccards cand ⊆+ cards
  /\ forall g,
       hasCurrentPlayer g ->
       Game.phase g = ACTION \/ Game.phase g = START_OF_TURN ->
       Game.isThrow (Game.laySpread (Spread.ccards cand) g) = false.
Proof.
  intros Hin.
  destruct (findPossibleSpreads_valid cards cand Hin) as (Hvalid & Hlen & Hsub).
  split; [done|]. split; [done|]. split; [done|].
  intros g Hcur Hphase. apply not_true_is_false.
  intros [[H1 H2]|H]%laySpread_rejects; [|by rewrite Hvalid in H|done].
  by destruct Hphase.
Qed.

Lemma findPossibleSpreads_sound_witness :
  Spread.validate
    [Demo.card Card.R4 Card.spades; Demo.card Card.R4 Card.hearts;
     Demo.card Card.R4 Card.diamonds]
  = Spread.mkValidation true (Some Spread.book)
  /\ Game.isThrow
       (Game.laySpread
          [Demo.card Card.R4 Card.spades; Demo.card Card.R4 Card.hearts;
           Demo.card Card.R4 Card.diamonds] Demo.hitting) = false.
Proof.
  destruct (findPossibleSpreads_sound
              [Demo.card Card.R4 Card.spades; Demo.card Card.R4 Card.hearts;
               Demo.card Card.R4 Card.diamonds; Demo.card Card.R9 Card.spades]
              (Spread.mkCandidate Spread.book
                 [Demo.card Card.R4 Card.spades; Demo.card Card.R4 Card.hearts;
                  Demo.card Card.R4 Card.diamonds]))
    as (Hvalid & _ & _ & Hlay).
  { assert (Spread.findPossibleSpreads
              [Demo.card Card.R4 Card.spades; Demo.card Card.R4 Card.hearts;
               Demo.card Card.R4 Card.diamonds; Demo.card Card.R9 Card.spades]
            = [Spread.mkCandidate Spread.book
                 [Demo.card Card.R4 Card.spades; Demo.card Card.R4 Card.hearts;
                  Demo.card Card.R4 Card.diamonds]]) as ->
      by (vm_compute; reflexivity).
    by apply list_elem_of_singleton. }
  split; [exact Hvalid|]. apply Hlay.
  - unfold hasCurrentPlayer. simpl. lia.
  - by right.
Defined.

End Candidates.

(** ** The spreads the computer player lays *)

Section Books.

Import Rules Spec.

Lemma entriesByRank_complete (groups : list (Card.Rank * list Card.t))
    (e : Card.Rank * list Card.t) :
  e ∈ groups -> e ∈ Spread.entriesByRank groups.
Proof.
  intros He. unfold Spread.entriesByRank. apply elem_of_app.
  destruct (decide (fst e ∈ Spread.integerRanks)) as [Hint|Hnot].
  - left. apply list_elem_of_In, in_flat_map. exists (fst e).
    split; [by apply list_elem_of_In|].
    apply list_elem_of_In, list_elem_of_filter. by split.
  - right. apply list_elem_of_filter. by split.
Qed.

(** X27: The books that [findPossibleSpreads] proposes: for each rank held at
    least three times, the first four cards of that rank in the order of
    the hand, and no other book. *)
Theorem findPossibleSpreads_books (cards : list Card.t)
    (cand : Spread.Candidate) :
  cand ∈ Spread.findPossibleSpreads cards /\ Spread.ctype cand = Spread.book
  <-> exists k,
        (3 <= length (filter (fun c => Card.rank c = k) cards))%nat
        /\ cand = Spread.mkCandidate Spread.book
                    (take 4 (filter (fun c => Card.rank c = k) cards)).
Proof.
  destruct (groups_spec Card.rank cards) as (Hnd & Hkeys & Hgroups).
  cbv zeta in Hnd, Hkeys, Hgroups.
  fold (Spread.groupCardsByRank cards) in Hnd, Hkeys, Hgroups.
  unfold Spread.findPossibleSpreads. split.
  - intros [[Hin|Hin]%elem_of_app Hty].
    + apply list_elem_of_In, in_flat_map in Hin as ([k cs] & He & Hin).
      apply list_elem_of_In, entriesByRank_elem in He.
      apply Hgroups in He. cbn [snd] in Hin.
      destruct (MIN_SPREAD_SIZE <=? length cs)%nat eqn:Hlen; [|done].
      apply Nat.leb_le in Hlen. destruct Hin as [<-|[]].
      exists k. rewrite <- He. done.
    + apply list_elem_of_In, in_flat_map in Hin as (e & _ & Hin).
      apply in_map_iff in Hin as (r & <- & _). done.
  - intros (k & Hlen & ->). split; [|done]. apply elem_of_app. left.
    set (cs := filter (fun c => Card.rank c = k) cards) in *.
    assert ((k, cs) ∈ Spread.groupCardsByRank cards) as He.
    { destruct cs as [|c0 cs0] eqn:Hcs; [simpl in Hlen; lia|].
      assert (c0 ∈ filter (fun c => Card.rank c = k) cards) as Hc0
        by (fold cs; rewrite Hcs; apply elem_of_cons; by left).
      apply list_elem_of_filter in Hc0 as [Hk Hc0].
      apply Hkeys in Hc0. rewrite Hk in Hc0.
      apply list_elem_of_fmap in Hc0 as ([k' cs'] & Hk' & He).
      simpl in Hk'. subst k'.
      rewrite (Hgroups k cs' He) in He. fold cs in He. by rewrite Hcs in He. }
    apply list_elem_of_In, in_flat_map. exists (k, cs).
    split; [by apply list_elem_of_In, entriesByRank_complete|].
    cbn [snd]. apply Nat.leb_le in Hlen.
    unfold MIN_SPREAD_SIZE. rewrite Hlen. by left.
Qed.

End Books.

Section ComputerSpreads.

Import Rules Spec.

Lemma sort_by_head {A} (key : A -> Z) (l : list A) (x : A) (rest : list A) :
  Array.sort_by key l = x :: rest ->
  x ∈ l /\ forall y, y ∈ l -> key x <= key y.
Proof.
  intros Hsort.
  pose proof (sort_by_perm key l) as Hperm.
  pose proof (sort_by_sorted key l) as Hsorted.
  rewrite Hsort in Hperm, Hsorted. split.
  - rewrite <- Hperm. apply elem_of_cons. by left.
  - intros y Hy. rewrite <- Hperm in Hy.
    apply elem_of_cons in Hy as [->|Hy]; [lia|].
    simpl in Hsorted. apply StronglySorted_inv in Hsorted as [_ Hall].
    apply (proj1 (Forall_forall _ _) Hall (key y)).
    apply list_elem_of_fmap. by exists y.
Qed.

Lemma sort_by_nil {A} (key : A -> Z) (l : list A) :
  Array.sort_by key l = [] -> l = [].
Proof.
  intros Hsort. pose proof (sort_by_length key l) as Hlen.
  rewrite Hsort in Hlen. by destruct l.
Qed.

Lemma removeFound_perm (cards : list Card.t) :
  forall remainingHand,
    cards ⊆+ remainingHand ->
    remainingHand ≡ₚ cards ++ ComputerPlayer.removeFound cards remainingHand.
Proof.
  induction cards as [|card cards IH]; intros hand Hsub; simpl; [done|].
  assert (card ∈ hand) as Hin.
  { eapply elem_of_submseteq; [|exact Hsub]. apply elem_of_cons. by left. }
  destruct (Array.findIndex _ hand) as [idx|] eqn:Hfind.
  - apply findIndex_first in Hfind
      as (before & x & after & -> & <- & Hx & _).
    apply equals_eq in Hx as ->. rewrite delete_middle.
    rewrite <- Permutation_middle in Hsub |- *.
    apply (submseteq_app_inv_l _ _ [card]) in Hsub.
    by rewrite <- (IH _ Hsub).
  - apply (findIndex_None _ _ Hfind) in Hin.
    assert (Card.equals card card = true) by by apply equals_eq.
    congruence.
Qed.

Lemma laySpreadsLoop_spec (fuel : nat) :
  forall remainingHand spreads,
    (length remainingHand <= fuel)%nat ->
    exists laid rest,
      ComputerPlayer.laySpreadsLoop fuel remainingHand spreads
      = Some (spreads ++ laid)
      /\ head laid
         = head (ComputerPlayer.sortByPoints
                   (Spread.findPossibleSpreads remainingHand))
      /\ Forall (fun c => Spread.validate (Spread.ccards c)
                          = Spread.mkValidation true (Some (Spread.ctype c)))
           laid
      /\ remainingHand ≡ₚ concat (map Spread.ccards laid) ++ rest
      /\ Spread.findPossibleSpreads rest = [].
Proof.
  induction fuel as [|fuel IH]; intros hand spreads Hfuel;
    cbn [ComputerPlayer.laySpreadsLoop];
    destruct (ComputerPlayer.sortByPoints (Spread.findPossibleSpreads hand))
      as [|best others] eqn:Hsort.
  1, 3: exists [], hand; rewrite app_nil_r; split_and!; try done;
    by apply sort_by_nil in Hsort.
  all: apply sort_by_head in Hsort as [Hbest _];
    apply findPossibleSpreads_valid in Hbest as (Hvalid & Hlen & Hsub);
    pose proof (removeFound_perm _ _ Hsub) as Hperm;
    pose proof (Permutation_length Hperm) as Hlength;
    rewrite length_app in Hlength.
  - lia.
  - destruct (IH (ComputerPlayer.removeFound (Spread.ccards best) hand)
                (spreads ++ [best]))
      as (laid & rest & Hloop & _ & Hgood & Hrest & Hnone); [lia|].
    exists (best :: laid), rest. rewrite Hloop, <- app_assoc.
    split; [done|]. split; [done|]. split; [by constructor|].
    split; [|done]. simpl. by rewrite <- app_assoc, <- Hrest.
Qed.

(** X28: [findAllSpreadsToLay] ends after at most as many rounds of its loop as
    the hand has cards.  The spreads it returns start with the one that
    [findBestSpread] picks; each is accepted by [validate] with the type it
    carries; together they use no card more often than the hand holds it,
    and in the cards of the hand that they leave no further spread is
    found. *)
Theorem findAllSpreadsToLay_spec (fuel : nat) (p : Player.t) :
  (length (Player.hand p) <= fuel)%nat ->
  exists spreads rest,
    ComputerPlayer.findAllSpreadsToLay fuel p = Some spreads
    /\ head spreads = ComputerPlayer.findBestSpread p
    /\ Forall (fun c => Spread.validate (Spread.ccards c)
                        = Spread.mkValidation true (Some (Spread.ctype c)))
         spreads
    /\ Player.hand p ≡ₚ concat (map Spread.ccards spreads) ++ rest
    /\ Spread.findPossibleSpreads rest = [].
Proof.
  intros Hfuel.
  destruct (laySpreadsLoop_spec fuel (Player.hand p) [] Hfuel)
    as (laid & rest & Hloop & Hhead & Hgood & Hrest & Hnone).
  exists laid, rest. by split_and!.
Qed.

Lemma findAllSpreadsToLay_spec_witness :
  exists spreads,
    ComputerPlayer.findAllSpreadsToLay 4
      (Demo.seat 1 [Demo.card Card.R4 Card.spades; Demo.card Card.R4 Card.hearts;
                    Demo.card Card.R4 Card.diamonds;
                    Demo.card Card.R9 Card.spades])
    = Some spreads
    /\ map Spread.ctype spreads = [Spread.book].
Proof.
  destruct (findAllSpreadsToLay_spec 4
              (Demo.seat 1 [Demo.card Card.R4 Card.spades;
                            Demo.card Card.R4 Card.hearts;
                            Demo.card Card.R4 Card.diamonds;
                            Demo.card Card.R9 Card.spades]))
    as (spreads & rest & Hall & _); [simpl; lia|].
  exists spreads. split; [exact Hall|].
  vm_compute in Hall. by injection Hall as <-.
Defined.

End ComputerSpreads.

(** ** The hits the computer player finds *)

Section Hits.

Import Rules Spec.

Lemma hitsOfSpread_spec (s : Spread.t) (i : nat) (hand : list Card.t) :
  laid s ->
  forall hits,
    ComputerPlayer.hitsOfSpread s i hand hits
    = Some (hits
            ++ map (fun card => ComputerPlayer.mkHit card i)
                 (filter (fun card => Spread.canAddCard s card = Some true)
                    hand)).
Proof.
  intros Hlaid. induction hand as [|card hand IH]; intros hits; simpl.
  - by rewrite app_nil_r.
  - destruct (canAddCard_answers s card Hlaid) as [b Hb]. rewrite Hb.
    destruct b.
    + rewrite filter_cons_True by done. rewrite IH. simpl.
      by rewrite <- app_assoc.
    + rewrite filter_cons_False by (by rewrite Hb). apply IH.
Qed.

Lemma hitsLoop_spec (spreads : list Spread.t) (hand : list Card.t) :
  Forall laid spreads ->
  forall i hits,
    exists found,
      ComputerPlayer.hitsLoop spreads i hand hits = Some (hits ++ found)
      /\ forall h,
           h ∈ found
           <-> ComputerPlayer.hcard h ∈ hand
               /\ exists j s,
                    ComputerPlayer.hspread h = (i + j)%nat
                    /\ spreads !! j = Some s
                    /\ Spread.canAddCard s (ComputerPlayer.hcard h)
                       = Some true.
Proof.
  induction 1 as [|s spreads Hlaid _ IH]; intros i hits; simpl.
  - exists []. rewrite app_nil_r. split; [done|]. intros h. split.
    + by intros H%elem_of_nil.
    + by intros (_ & j & s & _ & Hs & _).
  - rewrite (hitsOfSpread_spec s i hand Hlaid).
    destruct (IH (S i)
                (hits
                 ++ map (fun card => ComputerPlayer.mkHit card i)
                      (filter
                         (fun card => Spread.canAddCard s card = Some true)
                         hand))) as (found & -> & Hfound).
    eexists. rewrite <- app_assoc. split; [reflexivity|].
    intros h. rewrite elem_of_app, Hfound. split.
    + intros [Hh|(Hin & j & s' & Hj & Hs' & Hcan)].
      * apply list_elem_of_fmap in Hh as (card & -> & Hcard).
        apply list_elem_of_filter in Hcard as [Hcan Hcard]. simpl.
        split; [done|]. exists 0%nat, s. split; [lia|]. done.
      * split; [done|]. exists (S j), s'. split; [lia|]. done.
    + intros (Hin & j & s' & Hj & Hs' & Hcan). destruct j as [|j].
      * left. simpl in Hs'. injection Hs' as <-.
        apply list_elem_of_fmap. exists (ComputerPlayer.hcard h).
        split; [destruct h; simpl in *; f_equal; lia|].
        by apply list_elem_of_filter.
      * right. split; [done|]. exists j, s'. split; [lia|]. done.
Qed.

Lemma sort_by_descending {A} (value : A -> Z) (l : list A) :
  StronglySorted (fun x y => value y <= value x)
    (Array.sort_by (fun x => - value x) l).
Proof.
  pose proof (sort_by_sorted (fun x => - value x) l) as Hsorted.
  induction (Array.sort_by _ l) as [|x sorted IH]; [constructor|].
  simpl in Hsorted. apply StronglySorted_inv in Hsorted as [Hrest Hall].
  constructor; [by apply IH|].
  apply Forall_forall. intros y Hy.
  assert (- value x <= - value y); [|lia].
  apply (proj1 (Forall_forall _ _) Hall). apply list_elem_of_fmap.
  by exists y.
Qed.

(** X29: [findHitOpportunities] on a table of spreads that are books and runs
    returns exactly the pairs of a card of the hand and a spread of the
    table that accepts the card, the cards of highest value first.
    [hitSpread] rejects none of them in the phases ACTION and
    START_OF_TURN. *)
Theorem findHitOpportunities_spec (spreadsOnTable : list Spread.t)
    (p : Player.t) :
  Forall laid spreadsOnTable ->
  exists hits,
    ComputerPlayer.findHitOpportunities spreadsOnTable p = Some hits
    /\ (forall h,
          h ∈ hits
          <-> ComputerPlayer.hcard h ∈ Player.hand p
              /\ exists s,
                   spreadsOnTable !! ComputerPlayer.hspread h = Some s
                   /\ Spread.canAddCard s (ComputerPlayer.hcard h)
                      = Some true)
    /\ StronglySorted
         (fun h1 h2 => Card.value (ComputerPlayer.hcard h2)
                       <= Card.value (ComputerPlayer.hcard h1)) hits
    /\ forall g h,
         Game.spreadsOnTable g = spreadsOnTable ->
         hasCurrentPlayer g ->
         Game.phase g = ACTION \/ Game.phase g = START_OF_TURN ->
         h ∈ hits ->
         Game.isThrow
           (Game.hitSpread (ComputerPlayer.hcard h) (ComputerPlayer.hspread h)
              g) = false.
Proof.
  intros Hlaid. unfold ComputerPlayer.findHitOpportunities.
  destruct (hitsLoop_spec spreadsOnTable (Player.hand p) Hlaid 0 [])
    as (found & -> & Hfound).
  simpl. eexists. split; [reflexivity|].
  assert (forall h,
            h ∈ Array.sort_by
                  (fun h => - Card.value (ComputerPlayer.hcard h)) found
            <-> ComputerPlayer.hcard h ∈ Player.hand p
                /\ exists s,
                     spreadsOnTable !! ComputerPlayer.hspread h = Some s
                     /\ Spread.canAddCard s (ComputerPlayer.hcard h)
                        = Some true) as Hhits.
  { intros h. rewrite sort_by_perm, Hfound. split.
    - intros (Hin & j & s & -> & Hs & Hcan). split; [done|]. by exists s.
    - intros (Hin & s & Hs & Hcan). split; [done|].
      by exists (ComputerPlayer.hspread h), s. }
  split; [exact Hhits|]. split.
  { apply (sort_by_descending
             (fun h => Card.value (ComputerPlayer.hcard h))). }
  intros g h <- Hcur Hphase (_ & s & Hs & Hcan)%Hhits.
  apply not_true_is_false.
  intros [[H1 H2]|H]%(hitSpread_rejects _ _ _ s); try done.
  - by destruct Hphase.
  - congruence.
  - by eapply Forall_lookup_1.
Qed.

Lemma findHitOpportunities_spec_witness :
  ComputerPlayer.findHitOpportunities [Demo.run567]
    (Demo.seat 1 [Demo.card Card.R4 Card.spades; Demo.card Card.R4 Card.hearts;
                  Demo.card Card.R4 Card.diamonds;
                  Demo.card Card.R9 Card.spades])
  = Some [ComputerPlayer.mkHit (Demo.card Card.R4 Card.spades) 0].
Proof.
  destruct (findHitOpportunities_spec [Demo.run567]
              (Demo.seat 1 [Demo.card Card.R4 Card.spades;
                            Demo.card Card.R4 Card.hearts;
                            Demo.card Card.R4 Card.diamonds;
                            Demo.card Card.R9 Card.spades]))
    as (hits & Hhits & _).
  { apply Forall_singleton. exact run567_laid. }
  rewrite Hhits. vm_compute in Hhits. by injection Hhits as <-.
Defined.

End Hits.

(** ** The discard the computer player chooses *)

Section HandGroups.

Import Spec.

Context {K : Type} `{EqDecision K} (key : ComputerPlayer.HandCard -> K).

Lemma groupAdd_keys (k : K) (x : ComputerPlayer.HandCard)
    (groups : list (K * list ComputerPlayer.HandCard)) :
  map fst (ComputerPlayer.groupAdd k x groups)
  = if bool_decide (k ∈ map fst groups) then map fst groups
    else map fst groups ++ [k].
Proof.
  induction groups as [|[k' xs] groups IH];
    cbn [ComputerPlayer.groupAdd map fst].
  - case_bool_decide as Hin; [by apply elem_of_nil in Hin|done].
  - destruct (decide (k = k')) as [->|Hne]; cbn [map fst].
    + rewrite bool_decide_eq_true_2; [done|]. apply elem_of_cons. by left.
    + rewrite IH. case_bool_decide as Hin.
      * rewrite bool_decide_eq_true_2; [done|]. apply elem_of_cons. by right.
      * rewrite bool_decide_eq_false_2; [done|].
        intros [?|?]%elem_of_cons; done.
Qed.

Lemma groupAdd_elem (k : K) (x : ComputerPlayer.HandCard)
    (groups : list (K * list ComputerPlayer.HandCard)) (k' : K)
    (xs' : list ComputerPlayer.HandCard) :
  NoDup (map fst groups) ->
  (k', xs') ∈ ComputerPlayer.groupAdd k x groups ->
  (k' <> k /\ (k', xs') ∈ groups)
  \/ (k' = k /\ exists xs, (k, xs) ∈ groups /\ xs' = xs ++ [x])
  \/ (k' = k /\ (k ∉ map fst groups) /\ xs' = [x]).
Proof.
  induction groups as [|[k0 xs0] groups IH]; simpl; intros Hnd Hin.
  - apply list_elem_of_singleton in Hin as [= -> ->]. right. right.
    split; [done|]. split; [|done]. by intros H%elem_of_nil.
  - apply NoDup_cons in Hnd as [Hk0 Hnd].
    destruct (decide (k = k0)) as [->|Hne].
    + apply elem_of_cons in Hin as [[= -> ->]|Hin].
      * right. left. split; [done|]. exists xs0. split; [|done].
        apply elem_of_cons. by left.
      * left. split.
        -- intros ->. apply Hk0. apply list_elem_of_fmap. by exists (k0, xs').
        -- apply elem_of_cons. by right.
    + apply elem_of_cons in Hin as [[= -> ->]|Hin].
      * left. split; [done|]. apply elem_of_cons. by left.
      * destruct (IH Hnd Hin) as [[H1 H2]|[(H1 & xs & H2 & H3)|(H1 & H2 & H3)]].
        -- left. split; [done|]. apply elem_of_cons. by right.
        -- right. left. split; [done|]. exists xs. split; [|done].
           apply elem_of_cons. by right.
        -- right. right. split; [done|]. split; [|done].
           intros [?|?]%elem_of_cons; done.
Qed.

Lemma handGroups_spec (hand : list ComputerPlayer.HandCard) :
  let groups :=
    fold_left (fun groups x => ComputerPlayer.groupAdd (key x) x groups)
      hand [] in
  NoDup (map fst groups)
  /\ (forall x, x ∈ hand -> key x ∈ map fst groups)
  /\ (forall k xs, (k, xs) ∈ groups ->
        xs = filter (fun x => key x = k) hand).
Proof.
  induction hand as [|y hand IH] using rev_ind; cbv zeta.
  - simpl. split; [constructor|]. split.
    + by intros c H%elem_of_nil.
    + by intros k cs H%elem_of_nil.
  - rewrite fold_left_app. simpl.
    destruct IH as (Hnd & Hkeys & Hgroups).
    set (groups := fold_left _ hand []) in *.
    pose proof (groupAdd_keys (key y) y groups) as Hk.
    split; [|split].
    + rewrite Hk. case_bool_decide as Hin; [done|].
      apply NoDup_app. split; [done|]. split; [|apply NoDup_singleton].
      intros x Hx Hx'. apply list_elem_of_singleton in Hx' as ->. done.
    + intros c Hc. rewrite Hk.
      apply elem_of_app in Hc as [Hc|Hc].
      * case_bool_decide; [by apply Hkeys|].
        apply elem_of_app. left. by apply Hkeys.
      * apply list_elem_of_singleton in Hc as ->.
        case_bool_decide as Hin; [done|]. apply elem_of_app. right.
        by apply list_elem_of_singleton.
    + intros k cs Hin. rewrite filter_app.
      destruct (groupAdd_elem _ _ _ _ _ Hnd Hin)
        as [[H1 H2]|[(-> & cs0 & H2 & ->)|(-> & H2 & ->)]].
      * rewrite (Hgroups k cs H2).
        rewrite (filter_cons_False _ y) by (intros ?; by apply H1).
        by rewrite filter_nil, app_nil_r.
      * rewrite (Hgroups _ cs0 H2).
        by rewrite (filter_cons_True _ y) by done.
      * rewrite (filter_cons_True _ y) by done. rewrite filter_nil.
        destruct (filter _ hand) as [|c l] eqn:Hf; [done|].
        assert (c ∈ filter (fun c => key c = key y) hand) as Hc
          by (rewrite Hf; apply elem_of_cons; by left).
        apply list_elem_of_filter in Hc as [Heq Hc].
        exfalso. apply H2. rewrite <- Heq. by apply Hkeys.
Qed.

Lemma handGroups_complete (hand : list ComputerPlayer.HandCard)
    (x : ComputerPlayer.HandCard) :
  x ∈ hand ->
  (key x, filter (fun y => key y = key x) hand)
  ∈ fold_left (fun groups x => ComputerPlayer.groupAdd (key x) x groups)
      hand [].
Proof.
  intros Hx. destruct (handGroups_spec hand) as (_ & Hkeys & Hgroups).
  cbv zeta in Hkeys, Hgroups. apply Hkeys in Hx.
  apply list_elem_of_fmap in Hx as ([k xs] & Hk & He). simpl in Hk. subst k.
  by rewrite <- (Hgroups _ _ He).
Qed.

End HandGroups.

Section Contributing.

Import Rules Spec.

Lemma elem_of_setAdd x y (set : list ComputerPlayer.HandCard) :
  x ∈ ComputerPlayer.setAdd y set <-> x = y \/ x ∈ set.
Proof.
  unfold ComputerPlayer.setAdd. case_bool_decide as Hin.
  - split; [by right|]. by intros [->|?].
  - rewrite elem_of_app, list_elem_of_singleton. tauto.
Qed.

Lemma elem_of_fold_setAdd (xs set : list ComputerPlayer.HandCard) x :
  x ∈ fold_left (fun set c => ComputerPlayer.setAdd c set) xs set
  <-> x ∈ set \/ x ∈ xs.
Proof.
  revert set. induction xs as [|y xs IH]; intros set; simpl.
  - split; [by left|]. by intros [?|?%elem_of_nil].
  - rewrite IH, elem_of_setAdd, elem_of_cons. tauto.
Qed.


Lemma nearPairs_cons a b (rest set : list ComputerPlayer.HandCard) :
  ComputerPlayer.nearPairs (a :: b :: rest) set
  = ComputerPlayer.nearPairs (b :: rest)
      (if bool_decide
            (Card.getRankIndex (snd b) - Card.getRankIndex (snd a) = 1)
          || bool_decide
               (Card.getRankIndex (snd b) - Card.getRankIndex (snd a) = 2)
       then ComputerPlayer.setAdd b (ComputerPlayer.setAdd a set)
       else set).
Proof. reflexivity. Qed.

Lemma nearPair_short x (a b : ComputerPlayer.HandCard) :
  ~ nearPair [] a b /\ ~ nearPair [x] a b.
Proof.
  split; intros [(l1 & l2 & Heq) _].
  - by destruct l1.
  - by destruct l1 as [|? [|? ?]].
Qed.

Lemma nearPair_cons x y (rest : list ComputerPlayer.HandCard) a b :
  nearPair (x :: y :: rest) a b
  <-> (a = x /\ b = y
       /\ (Card.getRankIndex (snd y) - Card.getRankIndex (snd x) = 1
           \/ Card.getRankIndex (snd y) - Card.getRankIndex (snd x) = 2))
      \/ nearPair (y :: rest) a b.
Proof.
  unfold nearPair. split.
  - intros [(l1 & l2 & Heq) Hdiff]. destruct l1 as [|z l1].
    + simpl in Heq. injection Heq as -> -> ->. by left.
    + simpl in Heq. injection Heq as -> Heq. right. split; [|done].
      by exists l1, l2.
  - intros [(-> & -> & Hdiff)|[(l1 & l2 & Heq) Hdiff]].
    + split; [|done]. by exists [], rest.
    + split; [|done]. exists (x :: l1), l2. by rewrite Heq.
Qed.

Lemma elem_of_nearPairs (sorted : list ComputerPlayer.HandCard) :
  forall set x,
    x ∈ ComputerPlayer.nearPairs sorted set
    <-> x ∈ set \/ exists a b, nearPair sorted a b /\ (x = a \/ x = b).
Proof.
  induction sorted as [|a rest IH]; intros set x.
  - simpl. split; [by left|]. intros [?|(a & b & Hpair & _)]; [done|].
    by apply (proj1 (nearPair_short a a b)) in Hpair.
  - destruct rest as [|b rest].
    + simpl. split; [by left|]. intros [?|(a' & b' & Hpair & _)]; [done|].
      by apply (proj2 (nearPair_short a a' b')) in Hpair.
    + rewrite nearPairs_cons, IH. split.
      * intros [Hx|(a' & b' & Hpair & Hx)].
        -- destruct (_ || _) eqn:Hcond; [|by left].
           apply orb_true_iff in Hcond.
           rewrite !bool_decide_eq_true in Hcond.
           rewrite !elem_of_setAdd in Hx.
           destruct Hx as [->|[->|Hx]]; [..|by left];
             right; exists a, b; (split; [apply nearPair_cons; by left|]);
             [by right|by left].
        -- right. exists a', b'. split; [|done].
           apply nearPair_cons. by right.
      * intros [Hx|(a' & b' & Hpair & Hx)].
        -- left. destruct (_ || _); [|done].
           rewrite !elem_of_setAdd. by right; right.
        -- apply nearPair_cons in Hpair as [(-> & -> & Hdiff)|Hpair].
           ++ left. rewrite (proj2 (orb_true_iff _ _)).
              ** rewrite !elem_of_setAdd. destruct Hx as [->| ->]; tauto.
              ** rewrite !bool_decide_eq_true. exact Hdiff.
           ++ right. by exists a', b'.
Qed.

Lemma elem_of_rankFold (lists : list (list ComputerPlayer.HandCard)) :
  forall set x,
    x ∈ fold_left
          (fun contributing cards =>
             if (2 <=? length cards)%nat
             then fold_left (fun set c => ComputerPlayer.setAdd c set) cards
                    contributing
             else contributing) lists set
    <-> x ∈ set
        \/ exists cards,
             cards ∈ lists /\ (2 <= length cards)%nat /\ x ∈ cards.
Proof.
  induction lists as [|cards lists IH]; intros set x; cbn [fold_left].
  - split; [by left|]. by intros [?|(? & ?%elem_of_nil & _)].
  - rewrite IH. destruct (2 <=? length cards)%nat eqn:Hlen.
    + apply Nat.leb_le in Hlen. rewrite elem_of_fold_setAdd. split.
      * intros [[Hx|Hx]|(cs & Hcs & Hl & Hx)]; [by left|..].
        -- right. exists cards. split; [apply elem_of_cons; by left|done].
        -- right. exists cs. split; [apply elem_of_cons; by right|done].
      * intros [Hx|(cs & [->|Hcs]%elem_of_cons & Hl & Hx)].
        -- by left; left.
        -- by left; right.
        -- right. by exists cs.
    + apply Nat.leb_gt in Hlen. split.
      * intros [Hx|(cs & Hcs & Hl & Hx)]; [by left|].
        right. exists cs. split; [apply elem_of_cons; by right|done].
      * intros [Hx|(cs & [->|Hcs]%elem_of_cons & Hl & Hx)]; [by left|lia|].
        right. by exists cs.
Qed.

Lemma elem_of_suitFold (lists : list (list ComputerPlayer.HandCard)) :
  forall set x,
    x ∈ fold_left
          (fun contributing cards =>
             if (length cards <? 2)%nat then contributing
             else ComputerPlayer.nearPairs
                    (Array.sort_by (fun x => Card.getRankIndex (snd x)) cards)
                    contributing) lists set
    <-> x ∈ set
        \/ exists cards a b,
             cards ∈ lists
             /\ nearPair
                  (Array.sort_by (fun x => Card.getRankIndex (snd x)) cards)
                  a b
             /\ (x = a \/ x = b).
Proof.
  induction lists as [|cards lists IH]; intros set x; cbn [fold_left].
  - split; [by left|]. by intros [?|(? & ? & ? & ?%elem_of_nil & _)].
  - rewrite IH. destruct (_ <? 2)%nat eqn:Hlen.
    + apply Nat.ltb_lt in Hlen. split.
      * intros [Hx|(cs & a & b & Hcs & Hpair)]; [by left|].
        right. exists cs, a, b. split; [apply elem_of_cons; by right|done].
      * intros [Hx|(cs & a & b & [->|Hcs]%elem_of_cons & Hpair & Hx)];
          [by left| |right; by exists cs, a, b].
        exfalso. destruct Hpair as [(l1 & l2 & Heq) _].
        apply (f_equal length) in Heq.
        rewrite sort_by_length, length_app in Heq. simpl in Heq.
        unfold ComputerPlayer.HandCard in *. lia.
    + rewrite elem_of_nearPairs. split.
      * intros [[Hx|(a & b & Hpair & Hx)]|(cs & a & b & Hcs & Hpair)];
          [by left|..].
        -- right. exists cards, a, b.
           split; [apply elem_of_cons; by left|done].
        -- right. exists cs, a, b.
           split; [apply elem_of_cons; by right|done].
      * intros [Hx|(cs & a & b & [->|Hcs]%elem_of_cons & Hpair & Hx)].
        -- by left; left.
        -- left. right. by exists a, b.
        -- right. by exists cs, a, b.
Qed.

Lemma elem_of_valuesByRank
    (groups : list (Card.Rank * list ComputerPlayer.HandCard))
    (cards : list ComputerPlayer.HandCard) :
  cards ∈ ComputerPlayer.valuesByRank groups
  <-> exists k, (k, cards) ∈ groups.
Proof.
  unfold ComputerPlayer.valuesByRank. rewrite list_elem_of_fmap. split.
  - intros ([k cs] & -> & [He|He]%elem_of_app); exists k; simpl.
    + apply list_elem_of_In, in_flat_map in He as (r & _ & He).
      apply list_elem_of_In in He.
      by apply list_elem_of_filter in He as [_ He].
    + by apply list_elem_of_filter in He as [_ He].
  - intros [k He]. exists (k, cards). split; [done|]. apply elem_of_app.
    destruct (decide (k ∈ Spread.integerRanks)) as [Hint|Hnot].
    + left. apply list_elem_of_In, in_flat_map. exists k.
      split; [by apply list_elem_of_In|].
      apply list_elem_of_In, list_elem_of_filter. by split.
    + right. apply list_elem_of_filter. by split.
Qed.

Lemma other_element {A} (l : list A) (x : A) :
  NoDup l -> (2 <= length l)%nat -> x ∈ l -> exists y, y ∈ l /\ y <> x.
Proof.
  intros Hnd Hlen Hx. apply list_elem_of_split in Hx as (l1 & l2 & ->).
  apply NoDup_app in Hnd as (_ & Hdisj & Hnd2).
  apply NoDup_cons in Hnd2 as [Hx2 _].
  rewrite length_app in Hlen. simpl in Hlen.
  destruct l1 as [|y l1].
  - destruct l2 as [|y l2]; [simpl in Hlen; lia|].
    exists y. split.
    + apply elem_of_app. right. apply elem_of_cons. right.
      apply elem_of_cons. by left.
    + intros ->. apply Hx2. apply elem_of_cons. by left.
  - exists y. split.
    + apply elem_of_app. left. apply elem_of_cons. by left.
    + intros ->. apply (Hdisj x); apply elem_of_cons; by left.
Qed.

Lemma two_elements {A} (l : list A) (x y : A) :
  x ∈ l -> y ∈ l -> x <> y -> (2 <= length l)%nat.
Proof.
  intros Hx Hy Hne. destruct l as [|a [|b l]]; simpl; [..|lia].
  - by apply elem_of_nil in Hx.
  - apply list_elem_of_singleton in Hx, Hy. congruence.
Qed.

Lemma sorted_successor {A} (key : A -> Z) (sorted : list A) (x y : A) :
  StronglySorted Z.le (map key sorted) ->
  x ∈ sorted -> y ∈ sorted -> key x < key y ->
  exists l1 b l2,
    sorted = l1 ++ x :: b :: l2 /\ key x <= key b <= key y.
Proof.
  intros Hsorted Hx Hy Hlt.
  apply list_elem_of_split in Hx as (l1 & l2 & ->).
  rewrite map_app in Hsorted. simpl in Hsorted.
  apply StronglySorted_app in Hsorted as (Hcross & _ & Hright).
  apply StronglySorted_inv in Hright as [Hright Hall].
  apply elem_of_app in Hy as [Hy|Hy].
  { assert (key y <= key x); [|lia]. apply Hcross.
    - apply list_elem_of_fmap. by exists y.
    - apply elem_of_cons. by left. }
  apply elem_of_cons in Hy as [->|Hy]; [lia|].
  destruct l2 as [|b l2]; [by apply elem_of_nil in Hy|].
  exists l1, b, l2. split; [done|]. split.
  - apply (proj1 (Forall_forall _ _) Hall). apply elem_of_cons. by left.
  - apply elem_of_cons in Hy as [->|Hy]; [lia|].
    simpl in Hright. apply StronglySorted_inv in Hright as [_ Hb].
    apply (proj1 (Forall_forall _ _) Hb). apply list_elem_of_fmap.
    by exists y.
Qed.

Lemma sorted_predecessor {A} (key : A -> Z) (sorted : list A) (x y : A) :
  StronglySorted Z.le (map key sorted) ->
  x ∈ sorted -> y ∈ sorted -> key y < key x ->
  exists l1 a l2,
    sorted = l1 ++ a :: x :: l2 /\ key y <= key a <= key x.
Proof.
  intros Hsorted Hx Hy Hlt.
  apply list_elem_of_split in Hx as (l1 & l2 & ->).
  rewrite map_app in Hsorted. simpl in Hsorted.
  apply StronglySorted_app in Hsorted as (Hcross & Hleft & Hright).
  apply StronglySorted_inv in Hright as [_ Hall].
  apply elem_of_app in Hy as [Hy|Hy].
  2: { apply elem_of_cons in Hy as [->|Hy]; [lia|].
       assert (key x <= key y); [|lia].
       apply (proj1 (Forall_forall _ _) Hall). apply list_elem_of_fmap.
       by exists y. }
  destruct l1 as [|a0 l1 _] using rev_ind; [by apply elem_of_nil in Hy|].
  exists l1, a0, l2. split; [by rewrite <- app_assoc|]. split.
  - apply elem_of_app in Hy as [Hy|Hy].
    + rewrite map_app in Hleft.
      apply (StronglySorted_app_1_elem_of _ _ _ (key y) (key a0)) in Hleft;
        [done|..].
      * apply list_elem_of_fmap. by exists y.
      * apply elem_of_cons. by left.
    + apply list_elem_of_singleton in Hy as ->. lia.
  - apply Hcross.
    + apply list_elem_of_fmap. exists a0. split; [done|].
      apply elem_of_app. right. apply elem_of_cons. by left.
    + apply elem_of_cons. by left.
Qed.

Lemma rankIndexOf_inj (r1 r2 : Card.Rank) :
  Card.rankIndexOf r1 = Card.rankIndexOf r2 -> r1 = r2.
Proof. by destruct r1, r2. Qed.

Lemma tagged_elem (hand : list Card.t) x :
  x ∈ imap (fun i c => (i, c)) hand <-> hand !! fst x = Some (snd x).
Proof.
  rewrite elem_of_lookup_imap. split.
  - by intros (i & c & -> & Hc).
  - intros Hx. exists (fst x), (snd x). by destruct x.
Qed.

Lemma tagged_NoDup (hand : list Card.t) :
  NoDup (imap (fun i c => (i, c)) hand).
Proof.
  apply NoDup_alt. intros i j x Hi Hj.
  apply list_lookup_imap_Some in Hi as (c1 & _ & ->).
  by apply list_lookup_imap_Some in Hj as (c2 & _ & [= ->]).
Qed.

(** The cards that [getSpreadContributingCards] returns are the cards of
    the hand that are partnered in it. *)
Lemma contributing_partnered (p : Player.t) (c : Card.t) :
  c ∈ ComputerPlayer.getSpreadContributingCards p
  <-> partnered (Player.hand p) c.
Proof.
  unfold ComputerPlayer.getSpreadContributingCards. cbv zeta.
  set (tg := imap (fun i c => (i, c)) (Player.hand p)).
  set (idx := fun x : ComputerPlayer.HandCard => Card.getRankIndex (snd x)).
  pose proof (tagged_NoDup (Player.hand p)) as Hnd. fold tg in Hnd.
  pose proof (handGroups_spec (fun x => Card.rank (snd x)) tg)
    as (_ & _ & Hranks). cbv zeta in Hranks.
  pose proof (handGroups_spec (fun x => Card.suit (snd x)) tg)
    as (_ & _ & Hsuits). cbv zeta in Hsuits.
  (* the rank rule *)
  assert (forall x,
            (exists cards,
               cards ∈ ComputerPlayer.valuesByRank
                         (fold_left
                            (fun groups x =>
                               ComputerPlayer.groupAdd (Card.rank (snd x)) x
                                 groups) tg [])
               /\ (2 <= length cards)%nat /\ x ∈ cards)
            <-> x ∈ tg
                /\ exists y, y ∈ tg /\ y <> x
                             /\ Card.rank (snd y) = Card.rank (snd x))
    as Hrank.
  { intros x. split.
    - intros (cards & [k He]%elem_of_valuesByRank & Hlen & Hx).
      apply Hranks in He. subst cards.
      destruct (other_element _ x (NoDup_filter _ _ Hnd) Hlen Hx)
        as (y & Hy & Hne).
      apply list_elem_of_filter in Hx as [Hkx Hx].
      apply list_elem_of_filter in Hy as [Hky Hy].
      split; [done|]. exists y. split; [done|]. split; [done|]. congruence.
    - intros (Hx & y & Hy & Hne & Hsame).
      exists (filter (fun z => Card.rank (snd z) = Card.rank (snd x)) tg).
      split; [|split].
      + apply elem_of_valuesByRank. exists (Card.rank (snd x)).
        by apply (handGroups_complete (fun x => Card.rank (snd x))).
      + apply (two_elements _ x y); [..|done]; by apply list_elem_of_filter.
      + by apply list_elem_of_filter. }
  (* the suit rule *)
  assert (forall x,
            (exists cards a b,
               cards ∈ map snd
                         (fold_left
                            (fun groups x =>
                               ComputerPlayer.groupAdd (Card.suit (snd x)) x
                                 groups) tg [])
               /\ nearPair (Array.sort_by idx cards) a b
               /\ (x = a \/ x = b))
            -> x ∈ tg
               /\ exists y, y ∈ tg /\ y <> x
                            /\ Card.suit (snd y) = Card.suit (snd x)
                            /\ (Z.abs (idx y - idx x) = 1
                                \/ Z.abs (idx y - idx x) = 2)) as Hsuit1.
  { intros x (cards & a & b & Hcards & [(l1 & l2 & Hsplit) Hdiff] & Hx).
    apply list_elem_of_fmap in Hcards as ([k cs] & -> & He). simpl in *.
    pose proof (sort_by_perm idx cs) as Hperm. rewrite Hsplit in Hperm.
    apply Hsuits in He.
    assert (a ∈ cs) as Ha.
    { rewrite <- Hperm. apply elem_of_app. right. apply elem_of_cons.
      by left. }
    assert (b ∈ cs) as Hb.
    { rewrite <- Hperm. apply elem_of_app. right. apply elem_of_cons.
      right. apply elem_of_cons. by left. }
    rewrite He in Ha, Hb.
    apply list_elem_of_filter in Ha as [Hka Ha].
    apply list_elem_of_filter in Hb as [Hkb Hb].
    assert (a <> b) as Hab by (intros ->; lia).
    unfold idx. destruct Hx as [-> | ->].
    - split; [done|]. exists b. split; [done|]. split; [done|].
      split; [congruence|lia].
    - split; [done|]. exists a. split; [done|]. split; [done|].
      split; [congruence|lia]. }
  assert (forall x y,
            x ∈ tg -> y ∈ tg ->
            Card.suit (snd y) = Card.suit (snd x) ->
            Z.abs (idx y - idx x) = 1 \/ Z.abs (idx y - idx x) = 2 ->
            (exists cards a b,
               cards ∈ map snd
                         (fold_left
                            (fun groups x =>
                               ComputerPlayer.groupAdd (Card.suit (snd x)) x
                                 groups) tg [])
               /\ nearPair (Array.sort_by idx cards) a b
               /\ (x = a \/ x = b))
            \/ exists z, z ∈ tg /\ z <> x
                         /\ Card.rank (snd z) = Card.rank (snd x)) as Hsuit2.
  { intros x y Hx Hy Hsame Hdist.
    set (cs := filter (fun z => Card.suit (snd z) = Card.suit (snd x)) tg).
    assert (cs ∈ map snd
                   (fold_left
                      (fun groups x =>
                         ComputerPlayer.groupAdd (Card.suit (snd x)) x groups)
                      tg [])) as Hcs.
    { apply list_elem_of_fmap. exists (Card.suit (snd x), cs).
      split; [done|].
      by apply (handGroups_complete (fun x => Card.suit (snd x))). }
    pose proof (sort_by_perm idx cs) as Hperm.
    pose proof (sort_by_sorted idx cs) as Hsorted.
    assert (NoDup (Array.sort_by idx cs)) as Hnds
      by (rewrite Hperm; by apply NoDup_filter).
    assert (x ∈ Array.sort_by idx cs) as Hxs
      by (rewrite Hperm; by apply list_elem_of_filter).
    assert (y ∈ Array.sort_by idx cs) as Hys
      by (rewrite Hperm; by apply list_elem_of_filter).
    assert (forall z, z ∈ Array.sort_by idx cs ->
                      z ∈ tg /\ Card.suit (snd z) = Card.suit (snd x))
      as Hmem.
    { intros z Hz. rewrite Hperm in Hz.
      by apply list_elem_of_filter in Hz as [? ?]. }
    destruct (Z.lt_trichotomy (idx x) (idx y)) as [Hlt|[Heq|Hgt]]; [|lia|].
    - destruct (sorted_successor idx _ x y Hsorted Hxs Hys Hlt)
        as (l1 & b & l2 & Hsplit & Hb).
      assert (b ∈ Array.sort_by idx cs) as Hbs.
      { rewrite Hsplit. apply elem_of_app. right. apply elem_of_cons.
        right. apply elem_of_cons. by left. }
      assert (b <> x) as Hbx.
      { intros ->. rewrite Hsplit in Hnds.
        apply NoDup_app in Hnds as (_ & _ & Hnds).
        apply NoDup_cons in Hnds as [Hnot _]. apply Hnot.
        apply elem_of_cons. by left. }
      destruct (decide (idx b = idx x)) as [Hsame'|Hne].
      + right. exists b. destruct (Hmem b Hbs) as [Hbt _].
        split; [done|]. split; [done|].
        by apply rankIndexOf_inj.
      + left. exists cs, x, b. split; [done|]. split; [|by left].
        split; [by exists l1, l2|]. fold (idx b) (idx x). lia.
    - destruct (sorted_predecessor idx _ x y Hsorted Hxs Hys Hgt)
        as (l1 & a & l2 & Hsplit & Ha).
      assert (a ∈ Array.sort_by idx cs) as Has.
      { rewrite Hsplit. apply elem_of_app. right. apply elem_of_cons.
        by left. }
      assert (a <> x) as Hax.
      { intros ->. rewrite Hsplit in Hnds.
        apply NoDup_app in Hnds as (_ & _ & Hnds).
        apply NoDup_cons in Hnds as [Hnot _]. apply Hnot.
        apply elem_of_cons. by left. }
      destruct (decide (idx a = idx x)) as [Hsame'|Hne].
      + right. exists a. destruct (Hmem a Has) as [Hat _].
        split; [done|]. split; [done|].
        by apply rankIndexOf_inj.
      + left. exists cs, a, x. split; [done|]. split; [|by right].
        split; [by exists l1, l2|]. fold (idx a) (idx x). lia. }
  (* together *)
  rewrite list_elem_of_fmap. split.
  - intros ([i c0] & -> & Hin). simpl.
    apply elem_of_suitFold in Hin as [Hin|Hin].
    + apply elem_of_rankFold in Hin as [Hin|Hin];
        [by apply elem_of_nil in Hin|].
      apply Hrank in Hin as (Hx & [j c'] & Hy & Hne & Hsame).
      apply tagged_elem in Hx, Hy. simpl in *.
      exists i, j, c'. split; [intros ->; congruence|].
      split; [done|]. split; [done|]. by left.
    + apply Hsuit1 in Hin as (Hx & [j c'] & Hy & Hne & Hsame & Hdist).
      apply tagged_elem in Hx, Hy. unfold idx in Hdist. simpl in *.
      exists i, j, c'. split; [intros ->; congruence|].
      split; [done|]. split; [done|]. by right.
  - intros (i & j & c' & Hne & Hi & Hj & Hnear).
    assert ((i, c) ∈ tg) as Hx by (by apply tagged_elem).
    assert ((j, c') ∈ tg) as Hy by (by apply tagged_elem).
    assert ((j, c') <> (i, c)) as Hneq by congruence.
    exists (i, c). split; [done|]. apply elem_of_suitFold.
    assert ((i, c)
            ∈ fold_left
                (fun contributing cards =>
                   if (2 <=? length cards)%nat
                   then fold_left
                          (fun set c => ComputerPlayer.setAdd c set) cards
                          contributing
                   else contributing)
                (ComputerPlayer.valuesByRank
                   (fold_left
                      (fun groups x =>
                         ComputerPlayer.groupAdd (Card.rank (snd x)) x groups)
                      tg [])) []
            <-> exists y, y ∈ tg /\ y <> (i, c)
                          /\ Card.rank (snd y) = Card.rank c) as Hrank'.
    { rewrite elem_of_rankFold, Hrank. simpl. split.
      - intros [?%elem_of_nil|[_ H]]; done.
      - intros H. right. by split. }
    destruct Hnear as [Hsame|[Hsame Hdist]].
    + left. apply Hrank'. by exists (j, c').
    + destruct (Hsuit2 (i, c) (j, c') Hx Hy Hsame Hdist) as [HS|HR].
      * by right.
      * left. by apply Hrank'.
Qed.

(** X30: The cards that [getSpreadContributingCards] returns are the cards of
    the hand that are partnered: another card of the hand has the same
    rank, or the same suit and a rank one or two steps away.
    [decideDiscard] returns [undefined] for an empty hand and otherwise a
    card of the hand, which [discard] accepts in the phase ACTION when the
    player is the current one.  If some card of the hand is not partnered,
    the card returned is such a card, and none of them is worth more;
    if every card is partnered, no card of the hand is worth more than
    the one returned. *)
Theorem decideDiscard_spec (p : Player.t) :
  (forall c,
     c ∈ ComputerPlayer.getSpreadContributingCards p
     <-> partnered (Player.hand p) c)
  /\ (Player.hand p = [] -> ComputerPlayer.decideDiscard p = None)
  /\ (Player.hand p <> [] ->
      exists c,
        ComputerPlayer.decideDiscard p = Some c
        /\ c ∈ Player.hand p
        /\ ((exists x, x ∈ Player.hand p /\ ~ partnered (Player.hand p) x) ->
            ~ partnered (Player.hand p) c
            /\ forall x, x ∈ Player.hand p -> ~ partnered (Player.hand p) x ->
                 Card.value x <= Card.value c)
        /\ ((forall x, x ∈ Player.hand p -> partnered (Player.hand p) x) ->
            forall x, x ∈ Player.hand p -> Card.value x <= Card.value c)
        /\ forall g,
             Game.phase g = ACTION ->
             Game.getCurrentPlayer g = Some p ->
             Game.isThrow (Game.discard c g) = false).
Proof.
  unfold ComputerPlayer.decideDiscard. cbv zeta.
  set (free := filter (fun c => c ∉ ComputerPlayer.getSpreadContributingCards p)
                 (Player.hand p)).
  assert (forall x, x ∈ free
                    <-> x ∈ Player.hand p /\ ~ partnered (Player.hand p) x)
    as Hfree.
  { intros x. subst free. rewrite list_elem_of_filter, contributing_partnered.
    tauto. }
  assert (forall c g,
            c ∈ Player.hand p ->
            Game.phase g = ACTION ->
            Game.getCurrentPlayer g = Some p ->
            Game.isThrow (Game.discard c g) = false) as Haccept.
  { intros c g Hc Hphase Hp. apply not_true_is_false.
    intros [?|?]%(discard_rejects _ _ p); done. }
  split; [apply contributing_partnered|]. split.
  - intros Hnil. subst free. rewrite Hnil. done.
  - intros Hne. destruct (0 <? length free)%nat eqn:Hlen.
    + destruct (Array.sort_by _ free) as [|c rest] eqn:Hsort.
      { apply sort_by_nil in Hsort. rewrite Hsort in Hlen. done. }
      apply sort_by_head in Hsort as [Hc Hmax].
      apply Hfree in Hc as [Hc Hnot].
      exists c. split; [done|]. split; [done|]. split; [|split].
      * intros _. split; [done|]. intros x Hx Hxn.
        assert (- Card.value c <= - Card.value x); [|lia].
        apply Hmax. by apply Hfree.
      * intros Hall. by apply Hall in Hc.
      * intros g. by apply Haccept.
    + assert (free = []) as Hnil.
      { apply Nat.ltb_ge in Hlen. destruct free; [done|simpl in Hlen; lia]. }
      destruct (Array.sort_by _ (Player.hand p)) as [|c rest] eqn:Hsort.
      { by apply sort_by_nil in Hsort. }
      apply sort_by_head in Hsort as [Hc Hmax].
      exists c. split; [done|]. split; [done|]. split; [|split].
      * intros (x & Hx & Hxn). exfalso.
        assert (x ∈ free) as Hxf by (by apply Hfree).
        rewrite Hnil in Hxf. by apply elem_of_nil in Hxf.
      * intros _ x Hx.
        assert (- Card.value c <= - Card.value x); [|lia]. by apply Hmax.
      * intros g. by apply Haccept.
Qed.

Lemma decideDiscard_spec_witness :
  ComputerPlayer.decideDiscard
    (Demo.seat 1 [Demo.card Card.R4 Card.spades; Demo.card Card.R4 Card.hearts;
                  Demo.card Card.R4 Card.diamonds;
                  Demo.card Card.R9 Card.spades])
  = Some (Demo.card Card.R9 Card.spades)
  /\ Game.isThrow
       (Game.discard (Demo.card Card.R9 Card.spades)
          (Game.set_phase ACTION Demo.hitting)) = false.
Proof.
  destruct (decideDiscard_spec
              (Demo.seat 1 [Demo.card Card.R4 Card.spades;
                            Demo.card Card.R4 Card.hearts;
                            Demo.card Card.R4 Card.diamonds;
                            Demo.card Card.R9 Card.spades]))
    as (_ & _ & Hsome).
  destruct Hsome as (c & Hc & _ & _ & _ & Haccept); [done|].
  vm_compute in Hc. injection Hc as <-.
  split; [reflexivity|]. by apply Haccept.
Defined.

End Contributing.

(** ** Chips through a match, and the next round *)

Section Solvency.

Import Rules Spec.

Lemma solvent_account (g g' : Game.t) :
  map account (Game.players g') = map account (Game.players g) ->
  Game.pot g' = Game.pot g ->
  solvent g -> solvent g'.
Proof.
  intros Hacc Hpot (Hps & Hpos & Hbound). split; [|split].
  - apply Forall_lookup. intros i p' Hp'.
    apply (f_equal (fun l => l !! i)) in Hacc.
    rewrite !list_lookup_fmap, Hp' in Hacc.
    destruct (Game.players g !! i) as [p|] eqn:Hp; [|done].
    simpl in Hacc. unfold account in Hacc. injection Hacc as -> ->.
    by apply (Forall_lookup_1 _ _ _ _ Hps Hp).
  - by rewrite Hpot.
  - destruct (account_chips _ _ Hacc) as [Hchips _].
    apply (f_equal length) in Hacc. rewrite !length_map in Hacc.
    unfold Game.chipsInPlay in *.
    by rewrite (sum_by_map _ _ _ _ Hchips), Hpot, Hacc.
Qed.

Lemma sum_by_nonneg {A} (f : A -> Z) (l : list A) :
  (forall x, x ∈ l -> 0 <= f x) -> 0 <= Array.sum_by f l.
Proof.
  induction l as [|x l IH]; intros Hf.
  - unfold Array.sum_by. simpl. lia.
  - rewrite sum_by_cons.
    assert (0 <= f x) by (apply Hf, elem_of_cons; by left).
    assert (0 <= Array.sum_by f l); [|lia].
    apply IH. intros y Hy. apply Hf, elem_of_cons. by right.
Qed.

Lemma collectAntes_solvent (g : Game.t) :
  solvent g -> solvent (Game.collectAntes g).
Proof.
  intros (Hps & Hpos & Hbound).
  pose proof (collectAntes_chips g) as Hchips.
  pose proof (collectAntes_eliminated g) as Helim.
  destruct (collectAntes_cards g) as [_ Hlen].
  split; [|split].
  - apply Forall_lookup. intros i p' Hp'.
    apply (f_equal (fun l => l !! i)) in Hchips.
    apply (f_equal (fun l => l !! i)) in Helim.
    rewrite !list_lookup_fmap, Hp' in Hchips.
    rewrite !list_lookup_fmap, Hp' in Helim.
    destruct (Game.players g !! i) as [p|] eqn:Hp; [|done].
    simpl in Hchips, Helim. injection Hchips as ->. injection Helim as ->.
    destruct (Forall_lookup_1 _ _ _ _ Hps Hp) as [Hout Hrange].
    split; [done|]. unfold anteOf, ANTE_AMOUNT. rewrite Hout. lia.
  - rewrite collectAntes_pot. apply sum_by_nonneg. intros p Hp.
    destruct (proj1 (Forall_forall _ _) Hps p Hp) as [Hout Hrange].
    unfold anteOf, ANTE_AMOUNT. rewrite Hout. lia.
  - rewrite collectAntes_total, Hlen. lia.
Qed.

Lemma dealAndCheckInitialTonk_solvent (shuffles : list (nat -> Deck.Rand)) :
  forall g g',
    solvent g ->
    Game.dealAndCheckInitialTonk shuffles g = Some g' ->
    solvent g'.
Proof.
  induction shuffles as [|random shuffles IH]; intros g g' Hg;
    rewrite dealAndCheckInitialTonk_unfold;
    pose proof (collectAntes_solvent g Hg) as Hantes;
    destruct (dealAttempt_account g) as [Hacc Hpot];
    pose proof (solvent_account _ _ Hacc Hpot Hantes) as Hdealt;
    destruct (1 <? _)%nat; try done;
    try (destruct (bool_decide _); intros [= <-];
         by apply (solvent_account (Game.dealAttempt g))).
  intros Hg'. apply IH in Hg'; [done|].
  destruct (voided_account random g) as [Hacc' Hpot'].
  by apply (solvent_account (Game.dealAttempt g)).
Qed.

Lemma insert_account (ps : list Player.t) (i : nat) (p p' : Player.t) :
  ps !! i = Some p -> account p' = account p ->
  map account (<[i := p']> ps) = map account ps.
Proof.
  intros Hp Hacc. rewrite list_fmap_insert, Hacc.
  apply list_insert_id. by rewrite list_lookup_fmap, Hp.
Qed.

Lemma removeCard_account (card : Card.t) (p : Player.t) :
  account (snd (Player.removeCard card p)) = account p.
Proof. by rewrite removeCard_frame. Qed.

Lemma removeCards_account (cards : list Card.t) (p : Player.t) :
  account (snd (Player.removeCards cards p)) = account p.
Proof. by rewrite removeCards_frame. Qed.

Lemma startingChips_solvent (ps : list Player.t) (g : Game.t) :
  Game.players g = map Game.startingChips ps ->
  Game.pot g = 0 ->
  solvent g.
Proof.
  intros Hps Hpot. split; [|split].
  - rewrite Hps. apply Forall_forall. intros p Hp.
    apply list_elem_of_fmap in Hp as (q & -> & _).
    simpl. unfold STARTING_CHIPS. split; [done|lia].
  - by rewrite Hpot.
  - unfold Game.chipsInPlay. rewrite Hps, Hpot, length_map.
    assert (Array.sum_by Player.chips (map Game.startingChips ps)
            = STARTING_CHIPS * Z.of_nat (length ps)) as ->; [|lia].
    clear Hps. induction ps as [|q ps IH]; [done|].
    simpl map. rewrite sum_by_cons, IH. simpl Player.chips. simpl length.
    lia.
Qed.

Lemma initialize_solvent (env : Game.Env) (playerCount : nat)
    (name : string) (g0 g : Game.t) :
  Game.initialize env playerCount name g0 = Some g -> solvent g.
Proof.
  unfold Game.initialize. cbv zeta.
  match goal with
  | |- context [Game.dealAndCheckInitialTonk _ ?s] => set (g1 := s)
  end.
  destruct (Game.dealAndCheckInitialTonk _ g1) as [g2|] eqn:Hdeal; [|done].
  intros [= <-]. apply dealAndCheckInitialTonk_solvent in Hdeal.
  - by apply (solvent_account g2).
  - by eapply startingChips_solvent.
Qed.

Lemma exec_solvent (op : Game.Op) (g g' : Game.t) :
  solvent g -> Game.exec op g = Some g' -> solvent g'.
Proof.
  intros Hg. destruct op; simpl; try (intros [= <-]).
  - apply initialize_solvent.
  - unfold Game.proceedToDraw. destruct (bool_decide _); [done|].
    by apply (solvent_account g).
  - unfold Game.drawFromDeck. destruct (bool_decide _); [done|].
    destruct (Deck.draw (Game.deck g)) as [[c|] d1].
    + unfold Game.getCurrentPlayer. simpl.
      destruct (Game.players g !! Game.currentPlayerIndex g) as [p|] eqn:Hp;
        simpl; apply (solvent_account g); try done.
      simpl. by apply (insert_account _ _ p).
    + unfold Game.endGameStockEmpty. simpl.
      destruct (Game.players g) eqn:Eps; simpl; apply (solvent_account g);
        simpl; by rewrite ?Eps.
  - unfold Game.drawFromDiscard. destruct (bool_decide _); [done|].
    destruct (Deck.drawFromDiscard (Game.deck g)) as [[c|] d1];
      [|by apply (solvent_account g)].
    unfold Game.getCurrentPlayer. simpl.
    destruct (Game.players g !! Game.currentPlayerIndex g) as [p|] eqn:Hp;
      simpl; apply (solvent_account g); try done.
    simpl. by apply (insert_account _ _ p).
  - unfold Game.laySpread. destruct (_ && _); [done|].
    destruct (negb _); [done|].
    unfold Game.getCurrentPlayer.
    destruct (Game.players g !! Game.currentPlayerIndex g) as [p|] eqn:Hp;
      [|done].
    destruct (Spread.vtype _) as [ty|]; [|done].
    pose proof (removeCards_account cards p) as Hacc.
    destruct (Player.removeCards cards p) as [removed p1]. simpl in Hacc.
    destruct (Player.hasEmptyHand _); simpl; apply (solvent_account g);
      try done; simpl; by apply (insert_account _ _ p).
  - unfold Game.hitSpread. destruct (_ && _); [done|].
    destruct (Game.spreadsOnTable g !! spread) as [s|]; [|done].
    destruct (Spread.canAddCard s card) as [[|]|] eqn:Hcan; try done.
    unfold Game.getCurrentPlayer.
    destruct (Game.players g !! Game.currentPlayerIndex g) as [p|] eqn:Hp;
      [|done].
    pose proof (removeCard_account card p) as Hacc.
    destruct (Player.removeCard card p) as [removed p1]. simpl in Hacc.
    unfold Spread.addCard. rewrite Hcan.
    destruct (Player.hasEmptyHand _); simpl; apply (solvent_account g);
      try done; simpl; by apply (insert_account _ _ p).
  - unfold Game.discard. destruct (bool_decide _); [done|].
    unfold Game.getCurrentPlayer.
    destruct (Game.players g !! Game.currentPlayerIndex g) as [p|] eqn:Hp;
      [|done].
    pose proof (removeCard_account card p) as Hacc.
    destruct (Player.removeCard card p) as [[c|] p1]; [|done].
    simpl in Hacc.
    destruct (Player.hasEmptyHand _); simpl; apply (solvent_account g);
      try done; simpl; by apply (insert_account _ _ p).
  - unfold Game.knock. destruct (bool_decide _); [done|].
    destruct (Game.getCurrentPlayer g) as [p|]; [|done].
    destruct (Game.knockLoop _ _ _ _ _) as [lp lpts].
    destruct lpts as [m|]; [destruct (_ <? m)|];
      by apply (solvent_account g).
  - unfold Game.startNextRound. intros Hstart.
    apply dealAndCheckInitialTonk_solvent in Hstart; [done|].
    destruct Hg as (Hps & Hpos & Hbound). split; [|split].
    + cbn [Game.players Game.prepareNextRound Game.emit Game.set_emitted
           Game.set_deck Game.set_highestBet Game.set_pot
           Game.set_turnActions Game.set_hasDrawnThisTurn
           Game.set_winCondition Game.set_winner Game.set_spreadsOnTable
           Game.set_players Game.set_roundNumber].
      apply Forall_forall. intros p Hp.
      apply list_elem_of_fmap in Hp as (q & -> & Hq).
      exact (proj1 (Forall_forall _ _) Hps q Hq).
    + done.
    + unfold Game.chipsInPlay in *.
      cbn [Game.players Game.pot Game.prepareNextRound Game.emit
           Game.set_emitted Game.set_deck Game.set_highestBet Game.set_pot
           Game.set_turnActions Game.set_hasDrawnThisTurn
           Game.set_winCondition Game.set_winner Game.set_spreadsOnTable
           Game.set_players Game.set_roundNumber].
      rewrite length_map.
      rewrite (sum_by_map Player.chips Player.chips _ (Game.players g)).
      * lia.
      * rewrite <- list_fmap_compose. by apply list_fmap_ext.
Qed.

Lemma matchEndLoop_state (ps all : list Player.t) (g : Game.t) :
  exists mw,
    snd (Game.matchEndLoop ps all g) = Game.set_matchWinner mw g.
Proof.
  induction ps as [|p ps IH]; cbn [Game.matchEndLoop].
  - exists (Game.matchWinner g). by destruct g.
  - destruct (match Game.matchScores g !! Player.id p with
              | Some score => Game.pointLimit g <=? score
              | None => false
              end); [by eexists|exact IH].
Qed.

Lemma call_solvent (c : Call) (g g' : Game.t) :
  solvent g -> fair c -> call c g = Some g' -> solvent g'.
Proof.
  intros Hg Hfair. destruct c as [op|player amount|winner| |]; simpl.
  - by apply exec_solvent.
  - intros [= <-]. unfold Game.placeBet.
    destruct (Game.players g !! player) as [p|] eqn:Hp; [|done].
    destruct (Player.isEliminated p) eqn:Hout; [done|].
    destruct Hg as (Hps & Hpos & Hbound).
    destruct (Forall_lookup_1 _ _ _ _ Hps Hp) as [_ Hchips].
    simpl in Hfair. unfold Player.bet.
    set (a := Z.min amount (Player.chips p)).
    set (p' := Player.set_betting _ _ _ p).
    assert (solvent
              (Game.set_pot (Game.pot g + a)
                 (Game.set_players (<[player := p']> (Game.players g)) g)))
      as Hnew.
    { split; [|split].
      - simpl. apply Forall_insert; [done|]. subst p' a. simpl.
        split; [done|lia].
      - simpl. subst a. lia.
      - unfold Game.chipsInPlay in *. simpl.
        rewrite (sum_by_insert _ _ _ p) by done. rewrite length_insert.
        subst p' a. simpl. lia. }
    cbn [Game.highestBet Game.set_pot Game.set_players].
    destruct (Game.highestBet g <? Player.currentBet p');
      simpl; by eapply solvent_account.
  - intros [= <-]. unfold Game.awardPot.
    destruct (Game.players g !! winner) as [p|] eqn:Hp; [|done].
    destruct Hg as (Hps & Hpos & Hbound).
    destruct (Forall_lookup_1 _ _ _ _ Hps Hp) as [Hout Hchips].
    simpl. split; [|split].
    + simpl. apply Forall_insert; [done|]. simpl. split; [done|lia].
    + done.
    + unfold Game.chipsInPlay in *. simpl.
      rewrite (sum_by_insert _ _ _ p) by done. rewrite length_insert.
      simpl. lia.
  - intros [= <-]. unfold Game.applyRoundScoring.
    destruct (Game.scoringLoop _ _ _ _ _) as [scores losers]. simpl.
    by apply (solvent_account g).
  - intros [= <-]. unfold Game.checkMatchEnd.
    destruct (matchEndLoop_state (Game.players g) (Game.players g) g)
      as [mw ->].
    by apply (solvent_account g).
Qed.

(** X6: Through a whole match, bets and payments of the pot included, no
    player is ever eliminated, nobody's chips and no pot go below zero,
    and the chips of the players and the pot together never exceed the
    1000 chips that each player started with: a player without chips
    antes nothing and plays on. *)
Theorem played_solvent (g : Game.t) :
  Played g ->
  Forall (fun p => Player.isEliminated p = false /\ 0 <= Player.chips p)
    (Game.players g)
  /\ 0 <= Game.pot g
  /\ Game.chipsInPlay g <= 1000 * Z.of_nat (length (Game.players g)).
Proof.
  intros Hg. change (solvent g).
  induction Hg as [g0 env playerCount name g Hinit|g c g' _ IH Hfair Hcall].
  - by apply (initialize_solvent env playerCount name g0).
  - by eapply call_solvent.
Qed.

Lemma played_solvent_witness :
  exists g0 g,
    Game.initialize (Demo.env Demo.sevensShuffle) 2 "You" Game.constructed
    = Some g0
    /\ Spec.call (Spec.CallPlaceBet 0 25) g0 = Some g
    /\ 0 <= Game.pot g
    /\ Game.chipsInPlay g <= 1000 * Z.of_nat (length (Game.players g)).
Proof.
  assert (is_Some (Game.initialize (Demo.env Demo.sevensShuffle) 2 "You"
                     Game.constructed)) as [g0 Hg0]
    by (vm_compute; eexists; reflexivity).
  exists g0, (Game.stateOf (Game.placeBet 0 25 g0)).
  split; [exact Hg0|]. split; [reflexivity|].
  assert (Spec.fair (Spec.CallPlaceBet 0 25)) as Hfair by (simpl; lia).
  exact (proj2 (played_solvent _
                  (Spec.played_step g0 (Spec.CallPlaceBet 0 25) _
                     (Spec.played_init _ _ _ _ _ Hg0) Hfair eq_refl))).
Defined.

End Solvency.

Section NextRound.

Import Rules Spec.




End NextRound.
